(** * The Logfather: the ingestion-to-query pipeline, embedded and verified

    A shallow embedding of the log parser (lib/logParser.js), the search
    engine (lib/searchEngine.js) and the loader of routes/api.js.

    Conventions of the embedding:
    - a JavaScript string is a [string] whose characters are the code
      units U+0000 .. U+00FF; on these [trim], [toLowerCase] and the classes
      [\d] and [\W] of a regular expression are the ones of ECMAScript
      (strings with a code unit above U+00FF are not represented);
    - a [Date] is [option Z]: milliseconds since the epoch, [None] for an
      Invalid Date (time value NaN);
    - integers ([page], [pageSize], array lengths, line numbers) are [Z] or
      [nat]; a number that can be Infinity or NaN is a [jsnum];
    - a thrown exception is the [Throw] outcome of the [exn] monad;
    - the insertion-ordered [Map] and [Set] of the engine are association
      lists and duplicate-free lists in insertion order;
    - what belongs to the JavaScript runtime rather than to the repository
      (JSON.parse, Date parsing and printing, localeCompare,
      Array.prototype.sort, the clock) is the interface [JsRuntime]; of
      [sort] it says what the standard says: a reordering, and the stable
      sorted order when the comparator is consistent;
    - the asynchronous handlers of the routes are the events of a
      [Server]: requests that arrive, and loads that complete. *)

From Stdlib Require Import List String Ascii ZArith Bool Arith Lia Permutation.
Import ListNotations.
Local Open Scope string_scope.
Local Open Scope list_scope.
Local Open Scope nat_scope.

Set Implicit Arguments.

(** ** Strings *)

Module Js.

Definition code (c : ascii) : nat := nat_of_ascii c.

(** White space and line terminators removed by [String.prototype.trim]:
    TAB, LF, VT, FF, CR, SP and the no-break space U+00A0 (the others lie
    above U+00FF). *)
Definition isSpace (c : ascii) : bool :=
  let n := code c in
  ((9 <=? n) && (n <=? 13)) || (n =? 32) || (n =? 160).

Definition isDigit (c : ascii) : bool :=
  let n := code c in (48 <=? n) && (n <=? 57).

(** The class [\w] of a regular expression: [A-Za-z0-9_]. *)
Definition isWordChar (c : ascii) : bool :=
  let n := code c in
  ((65 <=? n) && (n <=? 90)) || ((97 <=? n) && (n <=? 122))
  || isDigit c || (n =? 95).

(** The lower-case mapping of Unicode on U+0000 .. U+00FF: [A-Z], and
    U+00C0 .. U+00DE without the multiplication sign U+00D7, each to the
    character 32 places on. *)
Definition lowerChar (c : ascii) : ascii :=
  let n := code c in
  if ((65 <=? n) && (n <=? 90))
     || ((192 <=? n) && (n <=? 222) && negb (n =? 215))
  then ascii_of_nat (n + 32) else c.

Fixpoint toLowerCase (s : string) : string :=
  match s with
  | EmptyString => EmptyString
  | String c s' => String (lowerChar c) (toLowerCase s')
  end.

Fixpoint trimStart (s : string) : string :=
  match s with
  | EmptyString => EmptyString
  | String c s' => if isSpace c then trimStart s' else s
  end.

(** [trimEnd] keeps a character when it is not a space or when something
    is left after it. *)
Fixpoint trimEnd (s : string) : string :=
  match s with
  | EmptyString => EmptyString
  | String c s' =>
      match trimEnd s' with
      | EmptyString => if isSpace c then EmptyString else String c EmptyString
      | t => String c t
      end
  end.

Definition trim (s : string) : string := trimEnd (trimStart s).

(** [s.includes(sub)]. *)
Fixpoint includes (s sub : string) : bool :=
  prefix sub s ||
  match s with
  | EmptyString => false
  | String _ s' => includes s' sub
  end.

(** Truthiness of a string: only the empty string is falsy. *)
Definition truthy (s : string) : bool :=
  match s with EmptyString => false | _ => true end.

(** [s.split(sep)] for a one-character separator. *)
Fixpoint splitChar (sep : ascii) (s : string) : list string :=
  match s with
  | EmptyString => [EmptyString]
  | String c s' =>
      if Ascii.eqb c sep then EmptyString :: splitChar sep s'
      else match splitChar sep s' with
           | p :: ps => String c p :: ps
           | [] => [String c EmptyString]
           end
  end.

(** [s.split(/\W+/)]: the pieces between maximal runs of non-word
    characters, with an empty first (last) piece when [s] starts (ends) with
    such a run, and [[""]] for the empty string. *)
Fixpoint splitNonWord (s : string) : list string :=
  match s with
  | EmptyString => [EmptyString]
  | String c s' =>
      if isWordChar c then
        match splitNonWord s' with
        | p :: ps => String c p :: ps
        | [] => [String c EmptyString]
        end
      else
        match s' with
        | EmptyString => [EmptyString; EmptyString]
        | String c' _ =>
            if isWordChar c' then EmptyString :: splitNonWord s'
            else splitNonWord s'
        end
  end.

(** [arr.join(sep)]. *)
Fixpoint join (sep : string) (l : list string) : string :=
  match l with
  | [] => EmptyString
  | [x] => x
  | x :: rest => (x ++ sep ++ join sep rest)%string
  end.

(** [arr.pop()] on a fresh array: its last element. *)
Definition pop (l : list string) : option string := last (map Some l) None.

(** Decimal rendering of a non-negative integer, as template literals and
    [String] do for array indices and line numbers. *)
Fixpoint digitsFuel (fuel n : nat) (acc : string) : string :=
  match fuel with
  | O => acc
  | S fuel' =>
      let acc' := String (ascii_of_nat (48 + n mod 10)) acc in
      if n / 10 =? 0 then acc' else digitsFuel fuel' (n / 10) acc'
  end.

Definition natToString (n : nat) : string := digitsFuel (S n) n EmptyString.

(** [arr.slice(start, end)] with the relative (negative) bounds of
    ECMAScript: a negative bound counts from the end of the array. *)
Definition slice {A : Type} (l : list A) (start end_ : Z) : list A :=
  let len := Z.of_nat (List.length l) in
  let k := if (start <? 0)%Z then Z.max (len + start) 0 else Z.min start len in
  let fin := if (end_ <? 0)%Z then Z.max (len + end_) 0 else Z.min end_ len in
  firstn (Z.to_nat (fin - k)) (skipn (Z.to_nat k) l).

End Js.


(** ** Exceptions, numbers and runtime values *)

Inductive error : Type := TypeError | SyntaxError.

(** A computation that returns a value or throws. *)
Inductive exn (A : Type) : Type :=
| Ok (a : A)
| Throw (e : error).
Arguments Ok {A} a.
Arguments Throw {A} e.

Definition bind {A B : Type} (c : exn A) (k : A -> exn B) : exn B :=
  match c with
  | Ok a => k a
  | Throw e => Throw e
  end.

Notation "x <- c ;; k" := (bind c (fun x => k))
  (at level 61, c at next level, right associativity).

(** [try { body } catch (error) { handler }]. *)
Definition tryCatch {A : Type} (body : exn A) (handler : error -> exn A) : exn A :=
  match body with
  | Ok a => Ok a
  | Throw e => handler e
  end.

(** Visits a list from left to right with a callback that may throw. *)
Fixpoint filterM {A : Type} (f : A -> exn bool) (l : list A) : exn (list A) :=
  match l with
  | [] => Ok []
  | x :: l' =>
      b <- f x ;;
      r <- filterM f l' ;;
      Ok (if b then x :: r else r)
  end.

(** A number that is an integer, +Infinity or NaN (-0 is 0). *)
Inductive jsnum : Type :=
| JInt (z : Z)
| JInfinity
| JNaN.

(** Time value of a [Date] object; [None] is an Invalid Date. *)
Definition Date : Type := option Z.

(** [new Date(ms)] for an integer [ms]: valid within 8.64e15 ms of the epoch. *)
Definition Date_of_ms (ms : Z) : Date :=
  if (Z.abs ms <=? 8640000000000000)%Z then Some ms else None.

(** [a < b] on dates compares time values; false when one is NaN. *)
Definition dateLt (a b : Date) : bool :=
  match a, b with
  | Some x, Some y => (x <? y)%Z
  | _, _ => false
  end.

(** What [JSON.parse] returns. A number is the finite double [m * 2^e]. *)
#[warnings="-register-all"]
Inductive json : Type :=
| JNull
| JBool (b : bool)
| JNumber (m e : Z)
| JString (s : string)
| JArray (items : list json)
| JObject (fields : list (string * json)).

Fixpoint assoc {V : Type} (k : string) (l : list (string * V)) : option V :=
  match l with
  | [] => None
  | (k', v) :: l' => if String.eqb k' k then Some v else assoc k l'
  end.

(** [v.k] for one of the keys read by the parser, none of which a
    prototype provides: [undefined] ([None]) unless [v] is an object with
    that own property; reading a property of [null] throws. *)
Definition getProp (v : json) (k : string) : exn (option json) :=
  match v with
  | JNull => Throw TypeError
  | JObject fields => Ok (assoc k fields)
  | _ => Ok None
  end.

(** Truthiness of a property value ([None] is [undefined]). *)
Definition jsTruthy (v : option json) : bool :=
  match v with
  | None => false
  | Some JNull => false
  | Some (JBool b) => b
  | Some (JNumber m _) => negb (m =? 0)%Z
  | Some (JString s) => Js.truthy s
  | Some (JArray _) => true
  | Some (JObject _) => true
  end.

(** ** Array.prototype.sort

    A comparator yields an integer, or NaN ([None]). *)

Section Sort.
Variable A : Type.
Variable cmp : A -> A -> option Z.

(** Whether a sort may leave [a] before [b]: the comparator is not
    positive. [SortCompare] reads NaN as 0. *)
Definition notAfter (a b : A) : bool :=
  match cmp a b with
  | Some v => (v <=? 0)%Z
  | None => true
  end.

(** The stable sort, by insertion from the right: the order the standard
    prescribes when the comparator is consistent. *)
Fixpoint insertSorted (x : A) (l : list A) : list A :=
  match l with
  | [] => [x]
  | y :: l' => if notAfter x y then x :: l else y :: insertSorted x l'
  end.

Fixpoint stableSort (l : list A) : list A :=
  match l with
  | [] => []
  | x :: l' => insertSorted x (stableSort l')
  end.

(** [a =CF b], [a <CF b], [a >CF b]: the comparator yields a number that
    is 0, negative, positive. *)
Definition cmpIs (s : comparison) (a b : A) : bool :=
  match cmp a b with
  | Some v =>
      match (v ?= 0)%Z, s with
      | Eq, Eq | Lt, Lt | Gt, Gt => true
      | _, _ => false
      end
  | None => false
  end.

(** The conditions of a consistent comparator at [a], [b], [c]: the result
    for [a] and [b] is not NaN; [a =CF a]; [=CF] is symmetric; [=CF], [<CF]
    and [>CF] are transitive. *)
Definition consistentAt (a b c : A) : bool :=
  (cmpIs Eq a b || cmpIs Lt a b || cmpIs Gt a b)
  && cmpIs Eq a a
  && implb (cmpIs Eq a b) (cmpIs Eq b a)
  && implb (cmpIs Eq a b && cmpIs Eq b c) (cmpIs Eq a c)
  && implb (cmpIs Lt a b && cmpIs Lt b c) (cmpIs Lt a c)
  && implb (cmpIs Gt a b && cmpIs Gt b c) (cmpIs Gt a c).

(** The comparator is a consistent comparator for the values of [l]. *)
Definition consistent (l : list A) : bool :=
  forallb
    (fun a => forallb (fun b => forallb (fun c => consistentAt a b c) l) l) l.

End Sort.

(** The services of the JavaScript runtime the repository calls, with the
    laws asked of them: a string compares equal to itself; [sort] reorders
    the array, and for a consistent comparator the order is the stable
    sorted one (ECMAScript 2019; the package asks for Node 14). Where the
    comparator is not consistent (NaN from an Invalid Date) the order is
    left to the implementation, and nothing but the reordering is known. *)
Class JsRuntime : Type := {
  (** [a.localeCompare(b)]: negative, zero or positive. *)
  localeCompare : string -> string -> Z;
  localeCompare_refl : forall s, localeCompare s s = 0%Z;
  (** [arr.sort(cmp)] on an array without [undefined] element. *)
  Array_sort : forall A : Type, (A -> A -> option Z) -> list A -> list A;
  Array_sort_perm :
    forall (A : Type) (cmp : A -> A -> option Z) (l : list A),
      Permutation (Array_sort cmp l) l;
  Array_sort_consistent :
    forall (A : Type) (cmp : A -> A -> option Z) (l : list A),
      consistent cmp l = true -> Array_sort cmp l = stableSort cmp l;
  (** [JSON.parse(line)]; throws a SyntaxError on malformed text. *)
  JSON_parse : string -> exn json;
  (** [new Date(v)] for a parsed JSON value [v]. *)
  Date_of_json : json -> exn Date;
  (** [parseInt(v)]; [None] is NaN. *)
  parseInt_json : json -> exn (option Z);
  (** [new Date(s)] for a string. *)
  Date_of_string : string -> Date;
  (** [String(d)] for a date. *)
  Date_toString : Date -> string
}.

(** ** Log entries *)

(** The [level] of an entry: a string, except that [levelMap[normalized]]
    also finds the two lower-case members every object literal inherits. *)
Inductive LevelValue : Type :=
| LevelStr (s : string)
| LevelObjectCtor      (* levelMap["constructor"]: the function Object *)
| LevelObjectProto.    (* levelMap["__proto__"]: Object.prototype *)

Definition levelText (l : LevelValue) : string :=
  match l with
  | LevelStr s => s
  | LevelObjectCtor => "function Object() { [native code] }"
  | LevelObjectProto => "[object Object]"
  end.

Record Entry : Type := {
  id : string;
  level : LevelValue;
  message : string;
  timestamp : Date;
  sourceFile : string;
  lineNumber : nat;
  raw : string;
  isStructured : bool
}.

(** Truthiness of an optional string (null, undefined and the
    empty string are falsy). *)
Definition optTruthy (o : option string) : bool :=
  match o with
  | Some s => Js.truthy s
  | None => false
  end.

(** [entry.level !== filters.level]: a level that is not a string differs
    from every string. *)
Definition levelDiffers (l : LevelValue) (f : string) : bool :=
  match l with
  | LevelStr s => negb (String.eqb s f)
  | _ => true
  end.

(** ** lib/logParser.js *)

Section LogParser.
Context {rt : JsRuntime}.

Definition generateEntryId (filePath : string) (lineNumber : nat) : string :=
  let filename :=
    match Js.pop (Js.splitChar "/" filePath) with
    | Some f => if Js.truthy f then f else filePath
    | None => filePath
    end in
  (filename ++ ":" ++ Js.natToString lineNumber)%string.

Definition levelMap (k : string) : option LevelValue :=
  if (k =? "err")%string then Some (LevelStr "error")
  else if (k =? "warn")%string then Some (LevelStr "warning")
  else if (k =? "info")%string then Some (LevelStr "info")
  else if (k =? "debug")%string then Some (LevelStr "debug")
  else if (k =? "trace")%string then Some (LevelStr "debug")
  else if (k =? "fatal")%string then Some (LevelStr "error")
  else if (k =? "constructor")%string then Some LevelObjectCtor
  else if (k =? "__proto__")%string then Some LevelObjectProto
  else None.

(** [level.toLowerCase] exists on strings only. *)
Definition normalizeLogLevel (level : option json) : exn LevelValue :=
  if negb (jsTruthy level) then Ok (LevelStr "unknown")
  else
    match level with
    | Some (JString s) =>
        let normalized := Js.trim (Js.toLowerCase s) in
        Ok (match levelMap normalized with
            | Some v => v
            | None => LevelStr normalized
            end)
    | _ => Throw TypeError
    end.

Fixpoint dropDigits (s : string) : string :=
  match s with
  | EmptyString => EmptyString
  | String c s' => if Js.isDigit c then dropDigits s' else s
  end.

(** When [s] starts with a match of [/\u001b\[\d+m/], what follows it. *)
Definition ansiAt (s : string) : option string :=
  match s with
  | String e (String b (String d rest)) =>
      if (Js.code e =? 27) && (Js.code b =? 91) && Js.isDigit d then
        match dropDigits rest with
        | String m rest' => if Js.code m =? 109 then Some rest' else None
        | EmptyString => None
        end
      else None
  | _ => None
  end.

(** [message.replace(/\u001b\[\d+m/g, '')]; each step consumes a character,
    so the length of the string is fuel enough. *)
Fixpoint stripAnsiFuel (fuel : nat) (s : string) : string :=
  match fuel with
  | O => s
  | S fuel' =>
      match ansiAt s with
      | Some rest => stripAnsiFuel fuel' rest
      | None =>
          match s with
          | EmptyString => EmptyString
          | String c s' => String c (stripAnsiFuel fuel' s')
          end
      end
  end.

Definition stripAnsi (s : string) : string := stripAnsiFuel (String.length s) s.

(** [message.replace] exists on strings only. *)
Definition cleanMessage (message : option json) : exn string :=
  if negb (jsTruthy message) then Ok ""
  else
    match message with
    | Some (JString s) => Ok (Js.trim (stripAnsi s))
    | _ => Throw TypeError
    end.

(** [now] is the reading of the clock by [new Date()]. *)
Definition parseTimestamp (now : Z) (timestamp : option json) : exn Date :=
  match timestamp with
  | None => Ok (Some now)
  | Some v =>
      if negb (jsTruthy timestamp) then Ok (Some now)
      else
        isoDate <- Date_of_json v ;;
        match isoDate with
        | Some _ => Ok isoDate
        | None =>
            unixTime <- parseInt_json v ;;
            match unixTime with
            | Some u => Ok (Date_of_ms (u * 1000))
            | None => Ok (Some now)
            end
        end
  end.

Definition inferLogLevel (line filePath : string) : string :=
  if Js.includes filePath "error" then "error"
  else if Js.includes filePath "debug" then "debug"
  else
    let lowerLine := Js.toLowerCase line in
    if Js.includes lowerLine "error" || Js.includes lowerLine "err" then "error"
    else if Js.includes lowerLine "warn" then "warning"
    else if Js.includes lowerLine "info" then "info"
    else if Js.includes lowerLine "debug" then "debug"
    else "unknown".

(** A pattern without alternatives: [#] stands for [\d], any other
    character for itself. Returns the matched prefix and the rest. *)
Fixpoint matchPat (p s : string) : option (string * string) :=
  match p with
  | EmptyString => Some (EmptyString, s)
  | String pc p' =>
      match s with
      | EmptyString => None
      | String c s' =>
          if (if Ascii.eqb pc "#" then Js.isDigit c else Ascii.eqb pc c) then
            match matchPat p' s' with
            | Some (m, r) => Some (String c m, r)
            | None => None
            end
          else None
      end
  end.

(** [/\d{4}-\d{2}-\d{2}T\d{2}:\d{2}:\d{2}(?:\.\d{3})?Z?/] at the start of [s]. *)
Definition isoAt (s : string) : option string :=
  match matchPat "####-##-##T##:##:##" s with
  | None => None
  | Some (m, r) =>
      let '(m1, r1) :=
        match matchPat ".###" r with
        | Some (f, r') => ((m ++ f)%string, r')
        | None => (m, r)
        end in
      match matchPat "Z" r1 with
      | Some (z, _) => Some (m1 ++ z)%string
      | None => Some m1
      end
  end.

(** [/\d{4}-\d{2}-\d{2} \d{2}:\d{2}:\d{2}/] at the start of [s]. *)
Definition simpleDateAt (s : string) : option string :=
  match matchPat "####-##-## ##:##:##" s with
  | Some (m, _) => Some m
  | None => None
  end.

(** [line.match(re)]: the leftmost match. *)
Fixpoint firstMatch (at_ : string -> option string) (s : string) : option string :=
  match at_ s with
  | Some m => Some m
  | None =>
      match s with
      | EmptyString => None
      | String _ s' => firstMatch at_ s'
      end
  end.

Definition inferTimestamp (now : Z) (line : string) : Date :=
  let fromIso :=
    match firstMatch isoAt line with
    | Some m => Date_of_string m
    | None => None
    end in
  match fromIso with
  | Some t => Some t
  | None =>
      let fromSimple :=
        match firstMatch simpleDateAt line with
        | Some m => Date_of_string m
        | None => None
        end in
      match fromSimple with
      | Some t => Some t
      | None => Some now
      end
  end.

Definition createFallbackEntry (now : Z) (line filePath : string)
  (lineNumber : nat) : Entry :=
  let level := inferLogLevel line filePath in
  let timestamp := inferTimestamp now line in
  {| id := generateEntryId filePath lineNumber;
     level := LevelStr level;
     message := Js.trim line;
     timestamp := timestamp;
     sourceFile := filePath;
     lineNumber := lineNumber;
     raw := line;
     isStructured := false |}.

(** The body of the [try] block of [parseLogLine]. *)
Definition parseStructured (now : Z) (line filePath : string)
  (lineNumber : nat) : exn Entry :=
  parsed <- JSON_parse line ;;
  plevel <- getProp parsed "level" ;;
  pmessage <- getProp parsed "message" ;;
  ptimestamp <- getProp parsed "timestamp" ;;
  if negb (jsTruthy plevel) || negb (jsTruthy pmessage)
     || negb (jsTruthy ptimestamp)
  then Ok (createFallbackEntry now line filePath lineNumber)
  else
    lvl <- normalizeLogLevel plevel ;;
    msg <- cleanMessage pmessage ;;
    ts <- parseTimestamp now ptimestamp ;;
    Ok {| id := generateEntryId filePath lineNumber;
          level := lvl;
          message := msg;
          timestamp := ts;
          sourceFile := filePath;
          lineNumber := lineNumber;
          raw := line;
          isStructured := true |}.

Definition parseLogLine (now : Z) (line filePath : string)
  (lineNumber : nat) : exn Entry :=
  tryCatch (parseStructured now line filePath lineNumber)
    (fun _ => Ok (createFallbackEntry now line filePath lineNumber)).

(** The lines kept by [fileContent.split('\n').filter(line => line.trim())]. *)
Definition nonEmptyLines (fileContent : string) : list string :=
  filter (fun line => Js.truthy (Js.trim line))
    (Js.splitChar "010"%char fileContent).

(** The loop of [parseLogContent] from index [i] on; [clock n] is the
    reading of the clock while line number [n] is parsed. *)
Fixpoint parseLines (clock : nat -> Z) (filePath : string) (i : nat)
  (lines : list string) : exn (list Entry) :=
  match lines with
  | [] => Ok []
  | line :: rest =>
      entry <- parseLogLine (clock (i + 1)) line filePath (i + 1) ;;
      entries <- parseLines clock filePath (S i) rest ;;
      Ok (entry :: entries)
  end.

Definition parseLogContent (clock : nat -> Z) (fileContent filePath : string)
  : exn (list Entry) :=
  if negb (Js.truthy fileContent) then Ok []
  else parseLines clock filePath 0 (nonEmptyLines fileContent).

(** The filter object of [filterLogEntries]. *)
Record EntryFilters : Type := {
  ef_level : option string;
  ef_startDate : option string;
  ef_endDate : option string;
  ef_sourceFile : option string;
  ef_search : option string
}.

(** The callback of [entries.filter] in [filterLogEntries]. *)
Definition keepsEntry (filters : EntryFilters) (entry : Entry) : bool :=
  if optTruthy (ef_level filters)
     && match ef_level filters with
        | Some lv => levelDiffers (level entry) lv
        | None => false
        end
  then false
  else if optTruthy (ef_startDate filters)
          && match ef_startDate filters with
             | Some sd => dateLt (timestamp entry) (Date_of_string sd)
             | None => false
             end
  then false
  else if optTruthy (ef_endDate filters)
          && match ef_endDate filters with
             | Some ed => dateLt (Date_of_string ed) (timestamp entry)
             | None => false
             end
  then false
  else if optTruthy (ef_sourceFile filters)
          && match ef_sourceFile filters with
             | Some sf => negb (Js.includes (sourceFile entry) sf)
             | None => false
             end
  then false
  else
    match ef_search filters with
    | Some text =>
        if Js.truthy text then
          let searchTerm := Js.toLowerCase text in
          Js.includes (Js.toLowerCase (message entry)) searchTerm
        else true
    | None => true
    end.

Definition filterLogEntries (es : list Entry) (filters : EntryFilters)
  : list Entry :=
  filter (keepsEntry filters) es.

End LogParser.

(** ** lib/searchEngine.js *)

(** [Map<string, Set<number>>]: keys in insertion order, each with its
    positions in insertion order and without duplicates. *)
Definition TermMap : Type := list (string * list nat).

Definition mapGet (m : TermMap) (k : string) : option (list nat) := assoc k m.

Definition mapHas (m : TermMap) (k : string) : bool :=
  match mapGet m k with Some _ => true | None => false end.

(** [map.set(k, v)]: a present key keeps its place, a new key goes last. *)
Fixpoint mapSet (m : TermMap) (k : string) (v : list nat) : TermMap :=
  match m with
  | [] => [(k, v)]
  | (k', v') :: m' =>
      if String.eqb k' k then (k, v) :: m' else (k', v') :: mapSet m' k v
  end.

(** [set.add(i)]. *)
Definition setAdd (s : list nat) (i : nat) : list nat :=
  if existsb (Nat.eqb i) s then s else s ++ [i].

Record Engine : Type := {
  entries : list Entry;
  indexedTerms : TermMap;
  lastIndexTime : option Date
}.

(** The options of [search], defaults applied. [page] and [pageSize] are
    integers (the route passes [parseInt] of the request parameters; NaN is
    not represented); a filter value is a string or absent. *)
Record Options : Type := {
  opt_level : option string;
  opt_startDate : option string;
  opt_endDate : option string;
  opt_sourceFile : option string;
  opt_page : Z;
  opt_pageSize : Z;
  opt_sortBy : string;
  opt_sortOrder : string
}.

(** The defaults of the destructuring in [search]. *)
Definition defaultOptions : Options :=
  {| opt_level := None; opt_startDate := None; opt_endDate := None;
     opt_sourceFile := None; opt_page := 1; opt_pageSize := 100;
     opt_sortBy := "timestamp"; opt_sortOrder := "desc" |}.

(** The object [search] hands to [applyFilters]. *)
Record Filters : Type := {
  f_level : option string;
  f_startDate : option string;
  f_endDate : option string
}.

Record Pagination : Type := {
  currentPage : Z;
  totalPages : jsnum;
  totalCount : Z;
  pageSize : Z;
  hasNextPage : bool;
  hasPreviousPage : bool
}.

Record SearchMeta : Type := {
  query : string;
  searchTime : option Date;
  resultsFound : Z
}.

(** An element of a result array is an entry or [undefined] ([None]). *)
Record SearchResult : Type := {
  res_entries : list (option Entry);
  pagination : Pagination;
  searchMeta : SearchMeta
}.

(** The value of [entry[sortBy]]. *)
Inductive jsval : Type :=
| VUndefined
| VString (s : string)
| VNumber (n : Z)
| VBoolean (b : bool)
| VDate (d : Date)
| VObject (text : string).   (* a function or object, with its String() *)

Definition zToString (z : Z) : string :=
  (if (z <? 0)%Z then "-" ++ Js.natToString (Z.to_nat (- z))
   else Js.natToString (Z.to_nat z))%string.

(** Members every entry object inherits from [Object.prototype], with the
    text [String] gives for them. *)
Definition inheritedMember (f : string) : option string :=
  if (f =? "__proto__")%string then Some "[object Object]"
  else if existsb (String.eqb f)
            ["constructor"; "hasOwnProperty"; "isPrototypeOf";
             "propertyIsEnumerable"; "toLocaleString"; "toString"; "valueOf";
             "__defineGetter__"; "__defineSetter__"; "__lookupGetter__";
             "__lookupSetter__"]
  then Some ("function " ++ (if (f =? "constructor")%string then "Object" else f)
             ++ "() { [native code] }")%string
  else None.

Section SearchEngine.
Context {rt : JsRuntime}.

(** [constructor()]. *)
Definition newEngine : Engine :=
  {| entries := []; indexedTerms := []; lastIndexTime := None |}.

Definition getSearchableText (entry : Entry) : string :=
  Js.toLowerCase
    (Js.join " " [message entry; levelText (level entry);
                  sourceFile entry; raw entry]).

Definition extractTerms (text : string) : list string :=
  map Js.toLowerCase
    (filter (fun term => 2 <=? String.length term) (Js.splitNonWord text)).

(** The callback of [terms.forEach] in [indexEntry]. *)
Definition indexTerm (index : nat) (m : TermMap) (term : string) : TermMap :=
  let m1 := if negb (mapHas m term) then mapSet m term [] else m in
  match mapGet m1 term with
  | Some s => mapSet m1 term (setAdd s index)
  | None => m1   (* not reached: the key was set just above *)
  end.

Definition indexEntry (m : TermMap) (entry : Entry) (index : nat) : TermMap :=
  let searchableText := getSearchableText entry in
  let terms := extractTerms searchableText in
  fold_left (indexTerm index) terms m.

(** [entries.forEach((entry, index) => this.indexEntry(entry, index))]. *)
Fixpoint indexFrom (index : nat) (es : list Entry) (m : TermMap) : TermMap :=
  match es with
  | [] => m
  | entry :: rest => indexFrom (S index) rest (indexEntry m entry index)
  end.

(** [now] is the reading of the clock by [new Date()]. *)
Definition indexEntries (now : Z) (st : Engine) (es : list Entry) : Engine :=
  {| entries := es;
     indexedTerms := indexFrom 0 es [];
     lastIndexTime := Some (Some now) |}.

Definition clearIndex (st : Engine) : Engine :=
  {| entries := []; indexedTerms := []; lastIndexTime := None |}.

(** [indices.forEach(index => matchingIndices.add(index))]. *)
Definition addAll (matching indices : list nat) : list nat :=
  fold_left setAdd indices matching.

(** The callback of [queryTerms.forEach] in [performTextSearch]. *)
Definition matchTerm (st : Engine) (matching : list nat) (term : string)
  : list nat :=
  let exact :=
    if mapHas (indexedTerms st) term then
      match mapGet (indexedTerms st) term with
      | Some indices => addAll matching indices
      | None => matching
      end
    else matching in
  fold_left
    (fun acc kv =>
       let '(indexedTerm, indices) := kv in
       if Js.includes indexedTerm term then addAll acc indices else acc)
    (indexedTerms st) exact.

Definition performTextSearch (st : Engine) (query : string) : list nat :=
  let queryTerms := extractTerms (Js.toLowerCase query) in
  if List.length queryTerms =? 0 then seq 0 (List.length (entries st))
  else fold_left (matchTerm st) queryTerms [].

(** Reading a property of [undefined] throws. *)
Definition deref (entry : option Entry) : exn Entry :=
  match entry with
  | Some e => Ok e
  | None => Throw TypeError
  end.

(** The callback of [entries.filter] in [applyFilters]. *)
Definition passesFilters (filters : Filters) (entry : option Entry) : exn bool :=
  levelFails <-
    (match f_level filters with
     | Some lv =>
         if Js.truthy lv then e <- deref entry ;; Ok (levelDiffers (level e) lv)
         else Ok false
     | None => Ok false
     end) ;;
  if levelFails then Ok false
  else
    startFails <-
      (match f_startDate filters with
       | Some sd =>
           if Js.truthy sd then
             let startDate := Date_of_string sd in
             e <- deref entry ;; Ok (dateLt (timestamp e) startDate)
           else Ok false
       | None => Ok false
       end) ;;
    if startFails then Ok false
    else
      endFails <-
        (match f_endDate filters with
         | Some ed =>
             if Js.truthy ed then
               let endDate := Date_of_string ed in
               e <- deref entry ;; Ok (dateLt endDate (timestamp e))
             else Ok false
         | None => Ok false
         end) ;;
      if endFails then Ok false else Ok true.

Definition applyFilters (es : list (option Entry)) (filters : Filters)
  : exn (list (option Entry)) :=
  filterM (passesFilters filters) es.

(** [entry[sortBy]]. *)
Definition getField (e : Entry) (f : string) : jsval :=
  if (f =? "id")%string then VString (id e)
  else if (f =? "level")%string then
    match level e with
    | LevelStr s => VString s
    | other => VObject (levelText other)
    end
  else if (f =? "message")%string then VString (message e)
  else if (f =? "timestamp")%string then VDate (timestamp e)
  else if (f =? "sourceFile")%string then VString (sourceFile e)
  else if (f =? "lineNumber")%string then VNumber (Z.of_nat (lineNumber e))
  else if (f =? "raw")%string then VString (raw e)
  else if (f =? "isStructured")%string then VBoolean (isStructured e)
  else match inheritedMember f with
       | Some text => VObject text
       | None => VUndefined
       end.

(** [String(v)]. *)
Definition jsToString (v : jsval) : string :=
  match v with
  | VUndefined => "undefined"
  | VString s => s
  | VNumber n => zToString n
  | VBoolean b => if b then "true" else "false"
  | VDate d => Date_toString d
  | VObject text => text
  end.

(** The comparator of [sortResults]; [None] is NaN. *)
Definition compareEntries (sortBy : string) (multiplier : Z) (a b : Entry)
  : option Z :=
  let aValue := getField a sortBy in
  let bValue := getField b sortBy in
  match aValue, bValue with
  | VDate da, VDate db =>
      match da, db with
      | Some ta, Some tb => Some ((ta - tb) * multiplier)%Z
      | _, _ => None
      end
  | VString sa, VString sb => Some (localeCompare sa sb * multiplier)%Z
  | VNumber na, VNumber nb => Some ((na - nb) * multiplier)%Z
  | _, _ =>
      Some (localeCompare (jsToString aValue) (jsToString bValue) * multiplier)%Z
  end.

Fixpoint defined (l : list (option Entry)) : list Entry :=
  match l with
  | [] => []
  | Some e :: l' => e :: defined l'
  | None :: l' => defined l'
  end.

Definition undefineds (l : list (option Entry)) : list (option Entry) :=
  filter (fun o => match o with None => true | Some _ => false end) l.

(** [sort] never passes [undefined] to the comparator: it moves such
    elements to the end. *)
Definition sortResults (es : list (option Entry)) (sortBy sortOrder : string)
  : list (option Entry) :=
  let multiplier := if (sortOrder =? "desc")%string then (-1)%Z else 1%Z in
  map Some (Array_sort (compareEntries sortBy multiplier) (defined es))
  ++ undefineds es.

(** [Math.ceil(totalCount / pageSize)] for a length [totalCount]. *)
Definition ceilDiv (totalCount pageSize : Z) : jsnum :=
  if (pageSize =? 0)%Z then
    if (totalCount =? 0)%Z then JNaN else JInfinity
  else JInt (- ((- totalCount) / pageSize))%Z.

(** [page < totalPages]. *)
Definition ltNum (page : Z) (n : jsnum) : bool :=
  match n with
  | JInt z => (page <? z)%Z
  | JInfinity => true
  | JNaN => false
  end.

(** The candidates of [search] before filtering. *)
Definition candidates (st : Engine) (query : string) : list (option Entry) :=
  if Js.truthy query && Js.truthy (Js.trim query) then
    let searchIndices := performTextSearch st (Js.trim query) in
    map (fun index => nth_error (entries st) index) searchIndices
  else map Some (entries st).

(** The results of [search] after filtering and sorting, before slicing. *)
Definition searchResults (st : Engine) (query : string) (options : Options)
  : exn (list (option Entry)) :=
  let results := candidates st query in
  results <- applyFilters results
               {| f_level := opt_level options;
                  f_startDate := opt_startDate options;
                  f_endDate := opt_endDate options |} ;;
  Ok (sortResults results (opt_sortBy options) (opt_sortOrder options)).

Definition search (st : Engine) (query : string) (options : Options)
  : exn SearchResult :=
  let page := opt_page options in
  let pageSize := opt_pageSize options in
  results <- searchResults st query options ;;
  let totalCount := Z.of_nat (List.length results) in
  let totalPages := ceilDiv totalCount pageSize in
  let startIndex := ((page - 1) * pageSize)%Z in
  let endIndex := Z.min (startIndex + pageSize) totalCount in
  let paginatedResults := Js.slice results startIndex endIndex in
  Ok {| res_entries := paginatedResults;
        pagination :=
          {| currentPage := page;
             totalPages := totalPages;
             totalCount := totalCount;
             pageSize := pageSize;
             hasNextPage := ltNum page totalPages;
             hasPreviousPage := (1 <? page)%Z |};
        searchMeta :=
          {| query := query;
             searchTime := lastIndexTime st;
             resultsFound := totalCount |} |}.

(** The operations that change an engine, and their runs from a new one. *)
Inductive EngineOp : Type :=
| OpIndexEntries (now : Z) (es : list Entry)
| OpClearIndex.

Definition stepEngine (st : Engine) (op : EngineOp) : Engine :=
  match op with
  | OpIndexEntries now es => indexEntries now st es
  | OpClearIndex => clearIndex st
  end.

Definition runEngine (ops : list EngineOp) : Engine :=
  fold_left stepEngine ops newEngine.

End SearchEngine.

(** The options with [page] replaced. *)
Definition setPage (p : Z) (o : Options) : Options :=
  {| opt_level := opt_level o; opt_startDate := opt_startDate o;
     opt_endDate := opt_endDate o; opt_sourceFile := opt_sourceFile o;
     opt_page := p; opt_pageSize := opt_pageSize o;
     opt_sortBy := opt_sortBy o; opt_sortOrder := opt_sortOrder o |}.

(** ** routes/api.js: loading the files into the engine *)

(** A file found by [scanLogDirectories], with what [readLogFile] yields
    for it: its text, or an exception. *)
Record LogFile : Type := {
  file_path : string;
  file_content : exn string
}.

Record ApiState : Type := {
  searchEngine : Engine;
  lastScanTime : option Z
}.

Section Api.
Context {rt : JsRuntime}.

(** The loop of [loadLogs]: a file that cannot be read or parsed is
    skipped with a warning. [clock k n] is the reading of the clock while
    line [n] of the [k]-th file is parsed. *)
Fixpoint readAll (clock : nat -> nat -> Z) (k : nat) (files : list LogFile)
  : list Entry :=
  match files with
  | [] => []
  | file :: rest =>
      let parsed :=
        tryCatch
          (content <- file_content file ;;
           parseLogContent (clock k) content (file_path file))
          (fun _ => Ok []) in
      match parsed with
      | Ok es => es ++ readAll clock (S k) rest
      | Throw _ => readAll clock (S k) rest
      end
  end.

(** [indexTime] and [scanTime] are the two readings of the clock after
    the files are read. *)
Definition loadLogs (indexTime scanTime : Z) (clock : nat -> nat -> Z)
  (files : list LogFile) (s : ApiState) : ApiState :=
  let allEntries := readAll clock 0 files in
  {| searchEngine := indexEntries indexTime (searchEngine s) allEntries;
     lastScanTime := Some scanTime |}.

End Api.

(** ** A runtime and data for evaluating the definitions *)

Module Sample.

(** Comparison by code units: one admissible collation. *)
Definition compare (a b : string) : Z :=
  match String.compare a b with
  | Eq => 0%Z
  | Lt => (-1)%Z
  | Gt => 1%Z
  end.

(** Writes the double quote as an apostrophe. *)
Fixpoint dq (s : string) : string :=
  match s with
  | EmptyString => EmptyString
  | String c s' =>
      String (if Ascii.eqb c "'" then ascii_of_nat 34 else c) (dq s')
  end.

Definition jsonLine : string :=
  dq "{'level':'error','message':'Database down','timestamp':'2025-01-20T10:05:00.000Z'}".

Definition plainLine : string := "2025-01-20 10:00:00 INFO User logged in".

(** [JSON.parse] on the few texts used below. *)
Definition parse (line : string) : exn json :=
  if (line =? jsonLine)%string then
    Ok (JObject [("level", JString "error");
                 ("message", JString "Database down");
                 ("timestamp", JString "2025-01-20T10:05:00.000Z")])
  else if (line =? "null")%string then Ok JNull
  else if (line =? "{}")%string then Ok (JObject [])
  else Throw SyntaxError.

(** [new Date(s)] on the few texts used below (UTC). *)
Definition dateOfString (s : string) : Date :=
  if (s =? "2025-01-20T10:05:00.000Z")%string then Some 1737367500000%Z
  else if (s =? "2025-01-20 10:00:00")%string then Some 1737367200000%Z
  else if (s =? "2025-01-20")%string then Some 1737331200000%Z
  else None.

Definition dateOfJson (v : json) : exn Date :=
  match v with
  | JString s => Ok (dateOfString s)
  | _ => Ok None
  end.

Definition entry (i : string) (msg : string) (t : Z) (file : string)
  (n : nat) : Entry :=
  {| id := i; level := LevelStr "info"; message := msg; timestamp := Some t;
     sourceFile := file; lineNumber := n; raw := msg; isStructured := false |}.

Definition e_old : Entry := entry "debug.log:1" "beta" 1000 "/var/log/debug.log" 1.
Definition e_new : Entry := entry "debug.log:2" "alpha" 2000 "/var/log/debug.log" 2.
Definition e_tie : Entry := entry "debug.log:2" "alpha" 1000 "/var/log/debug.log" 2.

Definition e_err : Entry := entry "debug.log:1" "Error in payment" 3000 "/var/log/debug.log" 1.
Definition e_db : Entry := entry "debug.log:2" "database connection lost" 2000 "/var/log/debug.log" 2.
Definition e_ok : Entry := entry "debug.log:3" "user logged in" 1000 "/var/log/debug.log" 3.

Definition onePerPage : Options :=
  {| opt_level := None; opt_startDate := None; opt_endDate := None;
     opt_sourceFile := None; opt_page := 1; opt_pageSize := 1;
     opt_sortBy := "timestamp"; opt_sortOrder := "desc" |}.

Definition fromErrorFiles : Options :=
  {| opt_level := None; opt_startDate := None; opt_endDate := None;
     opt_sourceFile := Some "error"; opt_page := 1; opt_pageSize := 100;
     opt_sortBy := "timestamp"; opt_sortOrder := "desc" |}.

Definition byBogusField : Options :=
  {| opt_level := None; opt_startDate := None; opt_endDate := None;
     opt_sourceFile := None; opt_page := 1; opt_pageSize := 100;
     opt_sortBy := "bogus"; opt_sortOrder := "desc" |}.

End Sample.

Module SampleRuntime.

Definition compare_refl (s : string) : Sample.compare s s = 0%Z.
Proof.
  unfold Sample.compare.
  pose proof (String.compare_antisym s s) as H.
  destruct (String.compare s s); simpl in H; congruence.
Qed.

(** The stable sort is one admissible [sort]. *)
Definition sort_perm (A : Type) (cmp : A -> A -> option Z) (l : list A) :
  Permutation (stableSort cmp l) l.
Proof.
  induction l as [|x l IH]; simpl; [constructor|].
  eapply perm_trans; [|apply perm_skip, IH].
  generalize (stableSort cmp l). clear. intros l.
  induction l as [|y l IH]; simpl; [apply Permutation_refl|].
  destruct (notAfter cmp x y); [apply Permutation_refl|].
  eapply perm_trans; [apply perm_skip, IH | apply perm_swap].
Qed.

#[export] Instance runtime : JsRuntime :=
  {| localeCompare := Sample.compare;
     localeCompare_refl := compare_refl;
     Array_sort := stableSort;
     Array_sort_perm := sort_perm;
     Array_sort_consistent := fun A cmp l _ => eq_refl;
     JSON_parse := Sample.parse;
     Date_of_json := Sample.dateOfJson;
     parseInt_json := fun _ => Ok None;
     Date_of_string := Sample.dateOfString;
     Date_toString := fun _ => "Invalid Date" |}.

End SampleRuntime.

(** ** Vocabulary of the properties *)

(** The [k]-th block of [ps] elements of [l], counted from 0. *)
Definition chunk {A : Type} (ps : nat) (l : list A) (k : nat) : list A :=
  firstn ps (skipn (k * ps) l).

(** What [indexTerm] amounts to: the first binding of the term gains the
    position; a term without binding gets one at the end. *)
Fixpoint addPosting (term : string) (index : nat) (m : TermMap) : TermMap :=
  match m with
  | [] => [(term, [index])]
  | (k, s) :: m' =>
      if String.eqb k term then (term, setAdd s index) :: m'
      else (k, s) :: addPosting term index m'
  end.

(** Position [i] is recorded under the indexed term [t]. *)
Definition posted (m : TermMap) (t : string) (i : nat) : Prop :=
  exists s, In (t, s) m /\ In i s.

(** Every recorded position is an index into the stored entries. *)
Definition inBounds (st : Engine) : Prop :=
  forall t i, posted (indexedTerms st) t i -> i < List.length (entries st).

Definition dateEqb (a b : Date) : bool :=
  match a, b with
  | Some x, Some y => (x =? y)%Z
  | None, None => true
  | _, _ => false
  end.

Definition jsvalEqb (a b : jsval) : bool :=
  match a, b with
  | VUndefined, VUndefined => true
  | VString x, VString y => (x =? y)%string
  | VNumber x, VNumber y => (x =? y)%Z
  | VBoolean x, VBoolean y => Bool.eqb x y
  | VDate x, VDate y => dateEqb x y
  | VObject x, VObject y => (x =? y)%string
  | _, _ => false
  end.

Section Vocabulary.
Context {rt : JsRuntime}.

(** The entry has the sort-key value [k] in the field [sortBy]. *)
Definition hasKey (sortBy : string) (k : jsval) (e : Entry) : bool :=
  jsvalEqb (getField e sortBy) k.

(** The verdict of the filter callback on an entry. *)
Definition passes (filters : Filters) (e : Entry) : bool :=
  negb (optTruthy (f_level filters)
        && match f_level filters with
           | Some lv => levelDiffers (level e) lv
           | None => false
           end)
  && negb (optTruthy (f_startDate filters)
           && match f_startDate filters with
              | Some sd => dateLt (timestamp e) (Date_of_string sd)
              | None => false
              end)
  && negb (optTruthy (f_endDate filters)
           && match f_endDate filters with
              | Some ed => dateLt (Date_of_string ed) (timestamp e)
              | None => false
              end).

Definition filtersOf (options : Options) : Filters :=
  {| f_level := opt_level options;
     f_startDate := opt_startDate options;
     f_endDate := opt_endDate options |}.

(** No level, start date or end date filter is supplied. *)
Definition unfiltered (options : Options) : bool :=
  negb (optTruthy (opt_level options))
  && negb (optTruthy (opt_startDate options))
  && negb (optTruthy (opt_endDate options)).

(** The comparator [sortResults] hands to [sort] for the options. *)
Definition comparatorOf (options : Options) : Entry -> Entry -> option Z :=
  compareEntries (opt_sortBy options)
    (if (opt_sortOrder options =? "desc")%string then (-1)%Z else 1%Z).

(** The entries of page [page] of a query; empty if [search] throws. *)
Definition pageEntries (st : Engine) (query : string) (options : Options)
  (page : Z) : list (option Entry) :=
  match search st query (setPage page options) with
  | Ok r => res_entries r
  | Throw _ => []
  end.

(** The pages 1 .. [n] of a query, one after the other. *)
Definition allPages (st : Engine) (query : string) (options : Options)
  (n : nat) : list (option Entry) :=
  List.concat
    (map (fun p => pageEntries st query options (Z.of_nat p)) (seq 1 n)).

End Vocabulary.

(** The own properties of an entry object. *)
Definition entryFields : list string :=
  ["id"; "level"; "message"; "timestamp"; "sourceFile"; "lineNumber"; "raw";
   "isStructured"].

Definition knownField (f : string) : bool := existsb (String.eqb f) entryFields.

(** The options with [sourceFile] replaced. *)
Definition setSourceFile (sf : option string) (o : Options) : Options :=
  {| opt_level := opt_level o; opt_startDate := opt_startDate o;
     opt_endDate := opt_endDate o; opt_sourceFile := sf;
     opt_page := opt_page o; opt_pageSize := opt_pageSize o;
     opt_sortBy := opt_sortBy o; opt_sortOrder := opt_sortOrder o |}.

(** The last component of a path. *)
Definition basename (filePath : string) : string :=
  match Js.pop (Js.splitChar "/" filePath) with
  | Some f => f
  | None => filePath
  end.

(** The level inference of the fallback path as the specification words
    it: first from the name of the source file, then from the line. *)
Definition specLevelFromName (name : string) : option string :=
  if Js.includes name "error" then Some "error"
  else if Js.includes name "debug" then Some "debug"
  else None.

Definition specLevelFromContent (line : string) : string :=
  let l := Js.toLowerCase line in
  if Js.includes l "error" then "error"
  else if Js.includes l "err" then "error"
  else if Js.includes l "warn" then "warning"
  else if Js.includes l "info" then "info"
  else if Js.includes l "debug" then "debug"
  else "unknown".

Definition specFallbackLevel (line name : string) : string :=
  match specLevelFromName name with
  | Some l => l
  | None => specLevelFromContent line
  end.

Section VocabularySearch.
Context {rt : JsRuntime}.

(** The entries that pass text search and filters, in candidate order. *)
Definition matched (st : Engine) (query : string) (options : Options)
  : list Entry :=
  filter (passes (filtersOf options)) (defined (candidates st query)).

(** [Math.ceil(total / pageSize)] for [pageSize >= 1]. *)
Definition pageCount (total pageSize : Z) : Z := (- ((- total) / pageSize))%Z.

(** An indexed term that contains the query term records position [i]. *)
Definition hit (st : Engine) (term : string) (i : nat) : Prop :=
  exists t, Js.includes t term = true /\ posted (indexedTerms st) t i.

End VocabularySearch.

Section VocabularyParser.
Context {rt : JsRuntime}.

(** The line parses as JSON and the record has a truthy [level],
    [message] and [timestamp]. *)
Definition structuredRecord (line : string) : bool :=
  match JSON_parse line with
  | Ok v =>
      match getProp v "level", getProp v "message", getProp v "timestamp" with
      | Ok l, Ok m, Ok t => jsTruthy l && jsTruthy m && jsTruthy t
      | _, _, _ => false
      end
  | Throw _ => false
  end.

End VocabularyParser.

Module SampleFiles.

(** Two configured directories, each with its own [debug.log]. *)
Definition twoDirectories : list LogFile :=
  [ {| file_path := "/srv/a/debug.log"; file_content := Ok "started" |};
    {| file_path := "/srv/b/debug.log"; file_content := Ok "stopped" |} ].

Definition onlyFromErrorFiles : EntryFilters :=
  {| ef_level := None; ef_startDate := None; ef_endDate := None;
     ef_sourceFile := Some "error"; ef_search := None |}.

Definition noState : ApiState :=
  {| searchEngine := {| entries := []; indexedTerms := []; lastIndexTime := None |};
     lastScanTime := None |}.

End SampleFiles.

(** * The rest of the code: scanner, statistics, routes *)

From Stdlib Require Import Sorted.

(** ** lib/fileReader.js *)

(** The outcome of a file-system call: a value, or an [Error] with its
    message. *)
Inductive io (A : Type) : Type :=
| Done (a : A)
| Failed (msg : string).
Arguments Done {A} a.
Arguments Failed {A} msg.

(** [s.startsWith(p)]. *)
Definition startsWith (s p : string) : bool := prefix p s.

(** What follows the prefix [p] in [s], if [s] starts with it. *)
Fixpoint afterPrefix (p s : string) : option string :=
  match p with
  | EmptyString => Some s
  | String a p' =>
      match s with
      | EmptyString => None
      | String b s' => if Ascii.eqb a b then afterPrefix p' s' else None
      end
  end.

(** [/^(debug|error)(\d+)?\.log$/.test(filename)]: after one of the two
    prefixes, the longest run of digits must be followed by [.log] and the
    end of the name. *)
Definition isLogFile (filename : string) : bool :=
  match afterPrefix "debug" filename with
  | Some rest => (dropDigits rest =? ".log")%string
  | None =>
      match afterPrefix "error" filename with
      | Some rest => (dropDigits rest =? ".log")%string
      | None => false
      end
  end.

Definition extractLogLevel (filename : string) : string :=
  if startsWith filename "debug" then "debug" else "error".

(** What [fs.stat] tells: the size and the modification time (ms). *)
Record Stats : Type := {
  st_size : Z;
  st_mtime : Z
}.

(** An entry of [readdir(dirPath, { withFileTypes: true })]. *)
Record Dirent : Type := {
  d_name : string;
  d_isFile : bool
}.

Record FileInfo : Type := {
  fi_name : string;
  fi_path : string;
  fi_size : Z;
  fi_lastModified : Z;
  fi_level : string;
  fi_directory : string
}.

(** A call of [logger.warn(text, detail)]. *)
Record Warning : Type := {
  w_text : string;
  w_detail : string
}.

(** [arr.sort(cmp)] for a comparator with integer results: a stable sort,
    here insertion from the right. *)
Fixpoint insertWith {A : Type} (cmp : A -> A -> Z) (x : A) (l : list A)
  : list A :=
  match l with
  | [] => [x]
  | y :: l' => if (cmp x y <=? 0)%Z then x :: l else y :: insertWith cmp x l'
  end.

Fixpoint sortWith {A : Type} (cmp : A -> A -> Z) (l : list A) : list A :=
  match l with
  | [] => []
  | x :: l' => insertWith cmp x (sortWith cmp l')
  end.

Section FileReader.
(** The file system and [path] of Node: [readdir], [stat], [path.join],
    [path.basename], [path.dirname]. *)
Variable readdir : string -> io (list Dirent).
Variable stat : string -> io Stats.
Variable path_join : string -> string -> string.
Variable path_basename : string -> string.
Variable path_dirname : string -> string.

(** The loop of [scanSingleDirectory]; a failing [stat] ends it. *)
Fixpoint scanEntries (dirPath : string) (ents : list Dirent)
  : io (list FileInfo) :=
  match ents with
  | [] => Done []
  | entry :: rest =>
      if d_isFile entry && isLogFile (d_name entry) then
        let filePath := path_join dirPath (d_name entry) in
        match stat filePath with
        | Failed m => Failed m
        | Done stats =>
            match scanEntries dirPath rest with
            | Failed m => Failed m
            | Done logFiles =>
                Done ({| fi_name := d_name entry;
                         fi_path := filePath;
                         fi_size := st_size stats;
                         fi_lastModified := st_mtime stats;
                         fi_level := extractLogLevel (d_name entry);
                         fi_directory := dirPath |} :: logFiles)
            end
        end
      else scanEntries dirPath rest
  end.

Definition scanSingleDirectory (dirPath : string) : io (list FileInfo) :=
  let body :=
    match readdir dirPath with
    | Failed m => Failed m
    | Done ents => scanEntries dirPath ents
    end in
  match body with
  | Done logFiles => Done logFiles
  | Failed m =>
      Failed ("Failed to scan directory " ++ dirPath ++ ": " ++ m)%string
  end.

(** The loop of [scanLogDirectories]: the files found so far and the
    warnings given. *)
Fixpoint scanEach (logPaths : list string) : list FileInfo * list Warning :=
  match logPaths with
  | [] => ([], [])
  | logPath :: rest =>
      let '(files, warnings) := scanEach rest in
      match scanSingleDirectory logPath with
      | Done found => (found ++ files, warnings)
      | Failed m =>
          (files,
           {| w_text :=
                ("The Logfather couldn't access directory: " ++ logPath)%string;
              w_detail := m |} :: warnings)
      end
  end.

(** [(a, b) => b.lastModified - a.lastModified]. *)
Definition byLastModifiedDesc (a b : FileInfo) : Z :=
  (fi_lastModified b - fi_lastModified a)%Z.

Definition scanLogDirectories (logPaths : list string)
  : list FileInfo * list Warning :=
  let '(allFiles, warnings) := scanEach logPaths in
  (sortWith byLastModifiedDesc allFiles, warnings).

Definition readLogFile (readFile : string -> io string) (filePath : string)
  : io string :=
  match readFile filePath with
  | Done text => Done text
  | Failed m =>
      Failed ("Failed to read log file " ++ filePath ++ ": " ++ m)%string
  end.

Fixpoint getFileMetadata (filePaths : list string)
  : list FileInfo * list Warning :=
  match filePaths with
  | [] => ([], [])
  | filePath :: rest =>
      let '(metadata, warnings) := getFileMetadata rest in
      match stat filePath with
      | Done stats =>
          let filename := path_basename filePath in
          ({| fi_name := filename;
              fi_path := filePath;
              fi_size := st_size stats;
              fi_lastModified := st_mtime stats;
              fi_level := extractLogLevel filename;
              fi_directory := path_dirname filePath |} :: metadata,
           warnings)
      | Failed m =>
          (metadata,
           {| w_text :=
                ("The Logfather couldn't access file: " ++ filePath)%string;
              w_detail := m |} :: warnings)
      end
  end.

End FileReader.

(** ** lib/searchEngine.js: statistics *)

(** A value of a counter object: a number, or the string that [+ 1]
    makes of an inherited member. *)
Inductive CountValue : Type :=
| CNum (n : Z)
| CStr (s : string).

(** The own properties of a counter object ([{}]), in order of creation. *)
Definition Counter : Type := list (string * CountValue).

(** [(counts[key] || 0) + 1], where [counts[key]] is the own property,
    else the member inherited from [Object.prototype], else [undefined]. *)
Definition bumped (counts : Counter) (key : string) : CountValue :=
  match assoc key counts with
  | Some (CNum n) => if (n =? 0)%Z then CNum 1 else CNum (n + 1)
  | Some (CStr s) =>
      if Js.truthy s then CStr (s ++ "1")%string else CNum 1
  | None =>
      match inheritedMember key with
      | Some text => CStr (text ++ "1")%string
      | None => CNum 1
      end
  end.

Fixpoint setProperty (counts : Counter) (key : string) (v : CountValue)
  : Counter :=
  match counts with
  | [] => [(key, v)]
  | (k, v') :: rest =>
      if String.eqb k key then (key, v) :: rest
      else (k, v') :: setProperty rest key v
  end.

(** [counts[key] = (counts[key] || 0) + 1]; an assignment to [__proto__]
    of a value that is no object changes nothing. *)
Definition countUp (counts : Counter) (key : string) : Counter :=
  if (key =? "__proto__")%string then counts
  else setProperty counts key (bumped counts key).

Record IndexStats : Type := {
  totalEntries : nat;
  totalTerms : nat;
  stats_lastIndexTime : option Date;
  levelCounts : Counter;
  sourceFileCounts : Counter
}.

(** The key of an entry in [sourceFileCounts]. *)
Definition fileKey (entry : Entry) : string :=
  match Js.pop (Js.splitChar "/" (sourceFile entry)) with
  | Some f => if Js.truthy f then f else sourceFile entry
  | None => sourceFile entry
  end.

Definition getIndexStats (st : Engine) : IndexStats :=
  let '(lc, fc) :=
    fold_left
      (fun (acc : Counter * Counter) entry =>
         (countUp (fst acc) (levelText (level entry)),
          countUp (snd acc) (fileKey entry)))
      (entries st) ([], []) in
  {| totalEntries := List.length (entries st);
     totalTerms := List.length (indexedTerms st);
     stats_lastIndexTime := lastIndexTime st;
     levelCounts := lc;
     sourceFileCounts := fc |}.

(** ** routes/api.js: lazy loading and the entry route *)

(** The handlers are asynchronous. [ensureLogsLoaded] tests [lastScanTime]
    when its request arrives and, finding none, calls [loadLogs];
    [loadLogs] scans and reads the files across its [await]s and only then,
    in its last step, indexes the entries and assigns [lastScanTime]. Other
    requests arrive in between. The events of a server: *)
Inductive ApiEvent : Type :=
| Arrives      (* a request reaches [await ensureLogsLoaded()] *)
| Refreshes    (* POST /refresh reaches [await loadLogs()] *)
| Completes (indexTime scanTime : Z) (clock : nat -> nat -> Z)
    (files : list LogFile).
               (* a running [loadLogs] has read [files]: its last step *)

(** The router with its calls of [loadLogs]: those still running, and
    all those made so far. *)
Record Server : Type := {
  sv_state : ApiState;
  sv_running : nat;
  sv_started : nat
}.

Section ApiRoutes.
Context {rt : JsRuntime}.

(** [createApiRoutes]: a new engine and no scan time. *)
Definition newServer : Server :=
  {| sv_state := {| searchEngine := newEngine; lastScanTime := None |};
     sv_running := 0;
     sv_started := 0 |}.

(** A call of [loadLogs], up to its first [await]. *)
Definition startLoad (sv : Server) : Server :=
  {| sv_state := sv_state sv;
     sv_running := S (sv_running sv);
     sv_started := S (sv_started sv) |}.

(** [ensureLogsLoaded], up to its first [await]:
    [if (!lastScanTime) await loadLogs()]. *)
Definition ensureLogsLoaded (sv : Server) : Server :=
  match lastScanTime (sv_state sv) with
  | None => startLoad sv
  | Some _ => sv
  end.

(** The last step of a running [loadLogs]; without a running one the
    event does not occur. *)
Definition completeLoad (indexTime scanTime : Z) (clock : nat -> nat -> Z)
  (files : list LogFile) (sv : Server) : Server :=
  match sv_running sv with
  | O => sv
  | S n =>
      {| sv_state := loadLogs indexTime scanTime clock files (sv_state sv);
         sv_running := n;
         sv_started := sv_started sv |}
  end.

Definition stepServer (sv : Server) (ev : ApiEvent) : Server :=
  match ev with
  | Arrives => ensureLogsLoaded sv
  | Refreshes => startLoad sv
  | Completes indexTime scanTime clock files =>
      completeLoad indexTime scanTime clock files sv
  end.

Definition runServer (evs : list ApiEvent) : Server :=
  fold_left stepServer evs newServer.

(** [searchEngine.entries.find(e => e.id === entryId)] of GET /entry/:id;
    [None] is answered with status 404. *)
Definition findEntry (s : ApiState) (entryId : string) : option Entry :=
  find (fun e => (id e =? entryId)%string) (entries (searchEngine s)).

End ApiRoutes.

(** ** Vocabulary of the further properties *)

(** The keys of a map or object, in order. *)
Definition keys {V : Type} (m : list (string * V)) : list string := map fst m.

(** The value of a decimal numeral, most significant digit first. *)
Fixpoint decimalValue (acc : nat) (s : string) : nat :=
  match s with
  | EmptyString => acc
  | String c s' => decimalValue (10 * acc + (Js.code c - 48)) s'
  end.

Definition allChars (p : ascii -> bool) (s : string) : bool :=
  forallb p (list_ascii_of_string s).

(** A lower-case word character: [a-z0-9_]. *)
Definition isTermChar (c : ascii) : bool :=
  Js.isWordChar c && negb ((65 <=? Js.code c) && (Js.code c <=? 90)).

(** The number of entries that satisfy [p]. *)
Definition countIf (p : Entry -> bool) (es : list Entry) : nat :=
  List.length (filter p es).

(** The string has no escape character (code 27). *)
Definition noEscape (s : string) : bool :=
  allChars (fun c => negb (Js.code c =? 27)) s.

(** The colour sequence [ESC [ digits m]. *)
Definition ansiCode (digits : string) : string :=
  String (ascii_of_nat 27) ("[" ++ digits ++ "m")%string.

(** A directory entry that [scanSingleDirectory] takes: a regular file
    named like a log file. *)
Definition isLogEntry (entry : Dirent) : bool :=
  d_isFile entry && isLogFile (d_name entry).

(** The files a directory contributes to a scan: none when it fails. *)
Definition filesFound (readdir : string -> io (list Dirent))
  (stat : string -> io Stats) (path_join : string -> string -> string)
  (logPath : string) : list FileInfo :=
  match scanSingleDirectory readdir stat path_join logPath with
  | Done found => found
  | Failed _ => []
  end.

Definition scanFails (readdir : string -> io (list Dirent))
  (stat : string -> io Stats) (path_join : string -> string -> string)
  (logPath : string) : bool :=
  match scanSingleDirectory readdir stat path_join logPath with
  | Done _ => false
  | Failed _ => true
  end.

Definition succeeds {A : Type} (r : io A) : bool :=
  match r with
  | Done _ => true
  | Failed _ => false
  end.

(** The non-empty pieces of a split. *)
Definition nonEmptyPieces (l : list string) : list string :=
  filter Js.truthy l.

(** All terms of a list of entries, with repetitions. *)
Definition allTerms (es : list Entry) : list string :=
  flat_map (fun e => extractTerms (getSearchableText e)) es.

(** What a counter holds for a key that was counted [n] times and is no
    member of [Object.prototype]. *)
Definition counted (n : nat) : option CountValue :=
  if n =? 0 then None else Some (CNum (Z.of_nat n)).

(** Posting lists that are not empty, ascending and bounded by [b]. *)
Definition ascendingTo (b : nat) (m : TermMap) : Prop :=
  forall t s, In (t, s) m ->
    s <> [] /\ StronglySorted lt s /\ (forall i, In i s -> i <= b).

Section VocabularyOrder.
Context {rt : JsRuntime}.

(** The sort key of an entry when it is a number or a valid date. *)
Definition numericKey (sortBy : string) (e : Entry) : option Z :=
  match getField e sortBy with
  | VDate (Some t) => Some t
  | VNumber n => Some n
  | _ => None
  end.

(** [a] may come before [b] in the order asked for. *)
Definition inOrder (sortBy sortOrder : string) (a b : Entry) : Prop :=
  forall ka kb,
    numericKey sortBy a = Some ka -> numericKey sortBy b = Some kb ->
    if (sortOrder =? "desc")%string then (kb <= ka)%Z else (ka <= kb)%Z.

End VocabularyOrder.

Section VocabularyFilters.
Context {rt : JsRuntime}.

(** The entry is within the date bounds of the options: a bound counts
    when its value is not empty and parses, and then only against a valid
    timestamp; the bounds themselves are included. *)
Definition withinDates (o : Options) (e : Entry) : Prop :=
  (forall sd lo t,
     opt_startDate o = Some sd -> sd <> "" -> Date_of_string sd = Some lo ->
     timestamp e = Some t -> (lo <= t)%Z)
  /\ (forall ed hi t,
        opt_endDate o = Some ed -> ed <> "" -> Date_of_string ed = Some hi ->
        timestamp e = Some t -> (t <= hi)%Z).

(** The entry has the level asked for, when one is asked for. *)
Definition hasLevel (o : Options) (e : Entry) : Prop :=
  forall lv, opt_level o = Some lv -> lv <> "" -> level e = LevelStr lv.

(** The filters of [filterLogEntries] that [search] has too. *)
Definition commonFilters (f : Filters) : EntryFilters :=
  {| ef_level := f_level f; ef_startDate := f_startDate f;
     ef_endDate := f_endDate f; ef_sourceFile := None; ef_search := None |}.

End VocabularyFilters.

(** The requests among the events, and the refreshes among them. *)
Definition isRequest (ev : ApiEvent) : bool :=
  match ev with
  | Arrives | Refreshes => true
  | Completes _ _ _ _ => false
  end.

Definition isRefresh (ev : ApiEvent) : bool :=
  match ev with
  | Refreshes => true
  | _ => false
  end.

Definition countEvents (p : ApiEvent -> bool) (evs : list ApiEvent) : nat :=
  List.length (filter p evs).

(** The number of lines a file contributes to a load. *)
Definition linesOf (file : LogFile) : nat :=
  match file_content file with
  | Ok text => List.length (nonEmptyLines text)
  | Throw _ => 0
  end.

Module SampleMore.

Definition twoLines : string :=
  (Sample.plainLine ++ String "010"%char Sample.jsonLine)%string.

Definition zeroPerPage : Options :=
  {| opt_level := None; opt_startDate := None; opt_endDate := None;
     opt_sourceFile := None; opt_page := 1; opt_pageSize := 0;
     opt_sortBy := "timestamp"; opt_sortOrder := "desc" |}.

Definition fromDebugFiles : EntryFilters :=
  {| ef_level := None; ef_startDate := None; ef_endDate := None;
     ef_sourceFile := Some "debug"; ef_search := Some "BETA" |}.

End SampleMore.

(** * Properties *)

(** ** Lists, slices and pages *)

Section Pages.
Variable A : Type.
Implicit Types (l : list A) (ps n k : nat).

Lemma chunk_succ ps l k : chunk ps l (S k) = chunk ps (skipn ps l) k.
Proof.
  unfold chunk. rewrite skipn_skipn. f_equal. f_equal. simpl. lia.
Qed.

Lemma concat_chunks ps n :
  forall l, List.length l <= n * ps ->
       List.concat (map (chunk ps l) (seq 0 n)) = l.
Proof.
  induction n as [|n IH]; intros l Hlen.
  - simpl in *. destruct l; simpl in *; [reflexivity | lia].
  - rewrite <- cons_seq, <- seq_shift, map_cons, map_map. simpl List.concat.
    rewrite (map_ext _ (chunk ps (skipn ps l))) by (intro; apply chunk_succ).
    rewrite IH.
    + unfold chunk. simpl. apply firstn_skipn.
    + rewrite length_skipn. simpl in Hlen. lia.
Qed.

Lemma chunk_beyond ps l k : List.length l <= k * ps -> chunk ps l k = [].
Proof.
  intros H. unfold chunk. rewrite skipn_all2 by exact H. apply firstn_nil.
Qed.

(** A slice with bounds inside the array is a [firstn] of a [skipn]. *)
Lemma slice_page l (page pageSize : Z) :
  (1 <= page)%Z -> (1 <= pageSize)%Z ->
  Js.slice l ((page - 1) * pageSize)
    (Z.min ((page - 1) * pageSize + pageSize) (Z.of_nat (List.length l)))
  = chunk (Z.to_nat pageSize) l (Z.to_nat (page - 1)).
Proof.
  intros Hp Hs. unfold Js.slice, chunk.
  set (len := Z.of_nat (List.length l)).
  set (start := ((page - 1) * pageSize)%Z).
  assert (0 <= start)%Z by (unfold start; nia).
  assert (0 <= len)%Z by (unfold len; lia).
  replace (start <? 0)%Z with false by (symmetry; apply Z.ltb_ge; lia).
  replace (Z.min (start + pageSize) len <? 0)%Z with false
    by (symmetry; apply Z.ltb_ge; lia).
  replace (Z.to_nat (page - 1) * Z.to_nat pageSize)
    with (Z.to_nat start) by (unfold start; rewrite Z2Nat.inj_mul; lia).
  destruct (Z_le_gt_dec start len) as [Hle | Hgt].
  - rewrite (Z.min_l start len) by lia.
    rewrite (Z.min_l (Z.min (start + pageSize) len) len) by lia.
    destruct (Z_le_gt_dec (start + pageSize) len) as [Hle2 | Hgt2].
    + rewrite Z.min_l by lia. f_equal. lia.
    + rewrite Z.min_r by lia.
      rewrite !firstn_all2; try reflexivity; rewrite length_skipn; lia.
  - rewrite !skipn_all2 by lia. rewrite !firstn_nil. reflexivity.
Qed.

End Pages.

(** ** Sorting *)

Section Sorting.
Variable cmp : Entry -> Entry -> option Z.

Lemma insertSorted_perm x l : Permutation (insertSorted cmp x l) (x :: l).
Proof.
  induction l as [|y l IH]; simpl.
  - apply Permutation_refl.
  - destruct (notAfter cmp x y).
    + apply Permutation_refl.
    + eapply perm_trans; [apply perm_skip, IH | apply perm_swap].
Qed.

Lemma stableSort_perm l : Permutation (stableSort cmp l) l.
Proof.
  induction l as [|x l IH]; simpl.
  - constructor.
  - eapply perm_trans; [apply insertSorted_perm | apply perm_skip, IH].
Qed.

Lemma stableSort_length l : List.length (stableSort cmp l) = List.length l.
Proof. apply Permutation_length, stableSort_perm. Qed.

(** Entries selected by [same] are pairwise tied for the comparator. *)
Variable same : Entry -> bool.
Hypothesis same_tied :
  forall x y, same x = true -> same y = true -> notAfter cmp x y = true.

Lemma insertSorted_filter_in x l :
  same x = true -> filter same (insertSorted cmp x l) = x :: filter same l.
Proof.
  intros Hx. induction l as [|y l IH]; simpl.
  - rewrite Hx. reflexivity.
  - destruct (notAfter cmp x y) eqn:Hxy; simpl.
    + rewrite Hx. reflexivity.
    + destruct (same y) eqn:Hy.
      * rewrite (same_tied Hx Hy) in Hxy. discriminate.
      * exact IH.
Qed.

Lemma insertSorted_filter_out x l :
  same x = false -> filter same (insertSorted cmp x l) = filter same l.
Proof.
  intros Hx. induction l as [|y l IH]; simpl.
  - rewrite Hx. reflexivity.
  - destruct (notAfter cmp x y); simpl.
    + rewrite Hx. reflexivity.
    + rewrite IH. reflexivity.
Qed.

(** The sort keeps the tied entries in the order they came in. *)
Lemma stableSort_stable l : filter same (stableSort cmp l) = filter same l.
Proof.
  induction l as [|x l IH]; simpl; [reflexivity|].
  destruct (same x) eqn:Hx.
  - rewrite insertSorted_filter_in by exact Hx. rewrite IH. reflexivity.
  - rewrite insertSorted_filter_out by exact Hx. exact IH.
Qed.

End Sorting.

Lemma defined_map_Some (l : list Entry) : defined (map Some l) = l.
Proof. induction l; simpl; congruence. Qed.

Lemma undefineds_map_Some (l : list Entry) : undefineds (map Some l) = [].
Proof. induction l; simpl; auto. Qed.

Lemma defined_undefineds_perm (es : list (option Entry)) :
  Permutation (map Some (defined es) ++ undefineds es) es.
Proof.
  induction es as [|[e|] es IH]; simpl.
  - constructor.
  - apply perm_skip, IH.
  - apply Permutation_sym, Permutation_cons_app, Permutation_sym, IH.
Qed.

Section SortResults.
Context {rt : JsRuntime}.

Lemma sortResults_perm es sortBy sortOrder :
  Permutation (sortResults es sortBy sortOrder) es.
Proof.
  unfold sortResults.
  eapply perm_trans; [|apply defined_undefineds_perm].
  apply Permutation_app_tail, Permutation_map, Array_sort_perm.
Qed.

Lemma sortResults_length es sortBy sortOrder :
  List.length (sortResults es sortBy sortOrder) = List.length es.
Proof. apply Permutation_length, sortResults_perm. Qed.

Lemma sortResults_Some (l : list Entry) sortBy sortOrder :
  sortResults (map Some l) sortBy sortOrder
  = map Some
      (Array_sort
         (compareEntries sortBy
            (if (sortOrder =? "desc")%string then (-1)%Z else 1%Z)) l).
Proof.
  unfold sortResults.
  rewrite defined_map_Some, undefineds_map_Some, app_nil_r. reflexivity.
Qed.

Lemma jsvalEqb_eq a b : jsvalEqb a b = true -> a = b.
Proof.
  destruct a, b; simpl; try discriminate; intros H; try reflexivity.
  - apply String.eqb_eq in H. congruence.
  - apply Z.eqb_eq in H. congruence.
  - apply Bool.eqb_prop in H. congruence.
  - destruct d as [x|], d0 as [y|]; simpl in H; try discriminate.
    + apply Z.eqb_eq in H. congruence.
    + reflexivity.
  - apply String.eqb_eq in H. congruence.
Qed.

(** Entries with the same sort-key value are tied for the comparator. *)
Lemma hasKey_tied sortBy multiplier k x y :
  hasKey sortBy k x = true -> hasKey sortBy k y = true ->
  notAfter (compareEntries sortBy multiplier) x y = true.
Proof.
  unfold hasKey, notAfter, compareEntries. intros Hx Hy.
  apply jsvalEqb_eq in Hx. apply jsvalEqb_eq in Hy. rewrite Hx, Hy.
  destruct k as [| s | n | b | [t|] | s]; simpl;
    rewrite ?localeCompare_refl, ?Z.sub_diag; simpl; reflexivity.
Qed.

End SortResults.

(** ** Filtering *)

Section Filtering.
Context {rt : JsRuntime}.

Lemma passesFilters_Some filters e :
  passesFilters filters (Some e) = Ok (passes filters e).
Proof.
  unfold passesFilters, passes.
  destruct filters as [[lv|] [sd|] [ed|]]; simpl;
    repeat match goal with
           | |- context [Js.truthy ?s] => destruct (Js.truthy s); simpl
           | |- context [levelDiffers ?a ?b] => destruct (levelDiffers a b); simpl
           | |- context [dateLt ?a ?b] => destruct (dateLt a b); simpl
           end; reflexivity.
Qed.

Lemma applyFilters_Some filters (l : list Entry) :
  applyFilters (map Some l) filters = Ok (map Some (filter (passes filters) l)).
Proof.
  unfold applyFilters. induction l as [|e l IH]; simpl; [reflexivity|].
  rewrite passesFilters_Some. simpl. rewrite IH. simpl.
  destruct (passes filters e); reflexivity.
Qed.

(** Without a truthy filter value the callback reads no property of the
    element and keeps it. *)
Lemma passesFilters_unfiltered options x :
  unfiltered options = true -> passesFilters (filtersOf options) x = Ok true.
Proof.
  unfold unfiltered, passesFilters, filtersOf, optTruthy. simpl.
  destruct (opt_level options) as [lv|], (opt_startDate options) as [sd|],
    (opt_endDate options) as [ed|]; simpl;
    repeat match goal with
           | |- context [Js.truthy ?s] => destruct (Js.truthy s); simpl
           end; intros H; try discriminate; reflexivity.
Qed.

Lemma applyFilters_unfiltered options es :
  unfiltered options = true -> applyFilters es (filtersOf options) = Ok es.
Proof.
  intros H. unfold applyFilters. induction es as [|x es IH]; simpl.
  - reflexivity.
  - rewrite passesFilters_unfiltered by exact H. simpl. rewrite IH. reflexivity.
Qed.

Lemma passes_unfiltered options e :
  unfiltered options = true -> passes (filtersOf options) e = true.
Proof.
  intros H. pose proof (passesFilters_unfiltered options (Some e) H) as P.
  rewrite passesFilters_Some in P. congruence.
Qed.

End Filtering.

(** ** The inverted index *)

Lemma In_setAdd s i j : In j (setAdd s i) <-> In j s \/ j = i.
Proof.
  unfold setAdd. destruct (existsb (Nat.eqb i) s) eqn:E.
  - split; [auto|]. intros [H | ->]; [exact H|].
    apply existsb_exists in E. destruct E as [x [Hx Heq]].
    apply Nat.eqb_eq in Heq. subst. exact Hx.
  - rewrite in_app_iff. simpl. intuition.
Qed.

Lemma NoDup_setAdd s i : NoDup s -> NoDup (setAdd s i).
Proof.
  intros H. unfold setAdd. destruct (existsb (Nat.eqb i) s) eqn:E; [exact H|].
  apply NoDup_app; [exact H | repeat constructor; simpl; tauto |].
  intros x Hx [Heq | []]. subst x.
  assert (existsb (Nat.eqb i) s = true) as C; [|congruence].
  apply existsb_exists. exists i. split; [exact Hx | apply Nat.eqb_refl].
Qed.

Lemma In_addAll indices : forall acc j,
  In j (addAll acc indices) <-> In j acc \/ In j indices.
Proof.
  unfold addAll. induction indices as [|i l IH]; intros acc j; simpl.
  - tauto.
  - rewrite IH, In_setAdd. intuition.
Qed.

Lemma NoDup_addAll indices : forall acc, NoDup acc -> NoDup (addAll acc indices).
Proof.
  unfold addAll. induction indices as [|i l IH]; intros acc H; simpl.
  - exact H.
  - apply IH, NoDup_setAdd, H.
Qed.

Lemma assoc_In {V : Type} k (m : list (string * V)) v :
  assoc k m = Some v -> In (k, v) m.
Proof.
  induction m as [|[k' v'] m IH]; simpl; [discriminate|].
  destruct (String.eqb_spec k' k) as [-> | N].
  - intros [= ->]. left. reflexivity.
  - intros H. right. apply IH, H.
Qed.

Lemma posted_nil t i : ~ posted [] t i.
Proof. intros [s [[] _]]. Qed.

Lemma posted_cons k s m t i :
  posted ((k, s) :: m) t i <-> (t = k /\ In i s) \/ posted m t i.
Proof.
  unfold posted. split.
  - intros [s' [[E | H] Hi]].
    + inversion E; subst. left. auto.
    + right. eauto.
  - intros [[-> Hi] | [s' [H Hi]]].
    + exists s. split; [left; reflexivity | exact Hi].
    + exists s'. split; [right; exact H | exact Hi].
Qed.

Lemma posted_addPosting term index m t i :
  posted (addPosting term index m) t i
  <-> posted m t i \/ (t = term /\ i = index).
Proof.
  induction m as [|[k s] m IH]; simpl.
  - rewrite posted_cons. simpl. pose proof (@posted_nil t i). intuition.
  - destruct (String.eqb_spec k term) as [-> | N].
    + rewrite !posted_cons, In_setAdd. intuition.
    + rewrite !posted_cons, IH. intuition.
Qed.

Section Index.
Context {rt : JsRuntime}.

Lemma indexTerm_addPosting index m term :
  indexTerm index m term = addPosting term index m.
Proof.
  unfold indexTerm, mapHas, mapGet.
  induction m as [|[k s] m IH]; simpl.
  - rewrite String.eqb_refl. simpl. rewrite ?String.eqb_refl. reflexivity.
  - destruct (String.eqb k term) eqn:E; simpl.
    + rewrite ?E. simpl. rewrite ?E. apply String.eqb_eq in E. subst.
      reflexivity.
    + destruct (assoc term m) as [s'|] eqn:A; simpl in *.
      * rewrite ?E, ?A. simpl. rewrite ?E. f_equal.
        rewrite ?A in IH. exact IH.
      * rewrite ?E. simpl.
        destruct (assoc term (mapSet m term [])) as [s'|] eqn:B; simpl in *;
          rewrite ?B in IH; rewrite ?E; f_equal; exact IH.
Qed.

Lemma posted_indexEntry e index t i : forall m,
  posted (indexEntry m e index) t i
  <-> posted m t i
      \/ (In t (extractTerms (getSearchableText e)) /\ i = index).
Proof.
  unfold indexEntry.
  induction (extractTerms (getSearchableText e)) as [|term terms IH];
    intros m; simpl.
  - tauto.
  - rewrite IH, indexTerm_addPosting, posted_addPosting.
    intuition (subst; auto).
Qed.

Lemma posted_indexFrom t i : forall es k m,
  posted (indexFrom k es m) t i
  <-> posted m t i
      \/ exists e, k <= i /\ nth_error es (i - k) = Some e
                   /\ In t (extractTerms (getSearchableText e)).
Proof.
  induction es as [|e es IH]; intros k m; simpl.
  - split; [auto|]. intros [H | [e [_ [H _]]]]; [exact H|].
    destruct (i - k); discriminate.
  - rewrite IH, posted_indexEntry. split.
    + intros [[H | [Ht ->]] | [e' [Hk [Hn Ht]]]].
      * left. exact H.
      * right. exists e. rewrite Nat.sub_diag. simpl. auto.
      * right. exists e'. split; [lia|]. split; [|exact Ht].
        replace (i - k) with (S (i - S k)) by lia. exact Hn.
    + intros [H | [e' [Hk [Hn Ht]]]]; [left; left; exact H|].
      destruct (Nat.eq_dec i k) as [-> | N].
      * rewrite Nat.sub_diag in Hn. simpl in Hn. inversion Hn; subst.
        left. right. auto.
      * right. exists e'. split; [lia|]. split; [|exact Ht].
        replace (i - k) with (S (i - S k)) in Hn by lia. exact Hn.
Qed.

(** After [indexEntries es], position [i] is recorded under [t] exactly
    when [t] is a term of the [i]-th entry. *)
Lemma posted_indexEntries now st es t i :
  posted (indexedTerms (indexEntries now st es)) t i
  <-> exists e, nth_error es i = Some e
                /\ In t (extractTerms (getSearchableText e)).
Proof.
  simpl. rewrite posted_indexFrom. split.
  - intros [H | [e [_ [Hn Ht]]]]; [destruct (posted_nil H)|].
    rewrite Nat.sub_0_r in Hn. eauto.
  - intros [e [Hn Ht]]. right. exists e. rewrite Nat.sub_0_r.
    split; [lia | auto].
Qed.

Lemma inBounds_newEngine : inBounds newEngine.
Proof. intros t i H. destruct (posted_nil H). Qed.

Lemma inBounds_clearIndex st : inBounds (clearIndex st).
Proof. intros t i H. destruct (posted_nil H). Qed.

Lemma inBounds_indexEntries now st es : inBounds (indexEntries now st es).
Proof.
  intros t i H. apply posted_indexEntries in H. destruct H as [e [Hn _]].
  change (entries (indexEntries now st es)) with es.
  apply nth_error_Some. congruence.
Qed.

Lemma inBounds_steps ops : forall st,
  inBounds st -> inBounds (fold_left stepEngine ops st).
Proof.
  induction ops as [|op ops IH]; intros st H; simpl; [exact H|].
  apply IH. destruct op; simpl.
  - apply inBounds_indexEntries.
  - apply inBounds_clearIndex.
Qed.

End Index.

(** ** Text search *)

Lemma prefix_refl s : prefix s s = true.
Proof.
  induction s as [|c s IH]; simpl; [reflexivity|].
  destruct (ascii_dec c c); [exact IH | congruence].
Qed.

Lemma includes_refl s : Js.includes s s = true.
Proof.
  replace (Js.includes s s)
    with (prefix s s
          || match s with
             | EmptyString => false
             | String _ s' => Js.includes s' s
             end) by (destruct s; reflexivity).
  rewrite prefix_refl. reflexivity.
Qed.

Section TextSearch.
Context {rt : JsRuntime}.
Variable st : Engine.

Let scan (term : string) :=
  fold_left
    (fun (acc : list nat) (kv : string * list nat) =>
       let '(indexedTerm, indices) := kv in
       if Js.includes indexedTerm term then addAll acc indices else acc).

Lemma In_scan term i : forall m acc,
  In i (scan term m acc)
  <-> In i acc \/ exists t, Js.includes t term = true /\ posted m t i.
Proof.
  induction m as [|[k s] m IH]; intros acc; simpl.
  - split; [auto|]. intros [H | [t [_ H]]]; [exact H | destruct (posted_nil H)].
  - rewrite IH. split.
    + intros [H | [t [Ht Hp]]].
      * destruct (Js.includes k term) eqn:E; [|auto].
        apply In_addAll in H. destruct H as [H | H]; [auto|].
        right. exists k. split; [exact E|]. apply posted_cons. auto.
      * right. exists t. split; [exact Ht|]. apply posted_cons. auto.
    + intros [H | [t [Ht Hp]]].
      * left. destruct (Js.includes k term); [apply In_addAll|]; auto.
      * apply posted_cons in Hp. destruct Hp as [[-> Hi] | Hp].
        -- left. rewrite Ht. apply In_addAll. auto.
        -- right. eauto.
Qed.

Lemma NoDup_scan term : forall m acc, NoDup acc -> NoDup (scan term m acc).
Proof.
  induction m as [|[k s] m IH]; intros acc H; simpl; [exact H|].
  apply IH. destruct (Js.includes k term); [apply NoDup_addAll|]; exact H.
Qed.

Lemma In_matchTerm acc term i :
  In i (matchTerm st acc term) <-> In i acc \/ hit st term i.
Proof.
  unfold matchTerm, hit. fold (scan term). rewrite In_scan.
  unfold mapHas, mapGet.
  destruct (assoc term (indexedTerms st)) as [indices|] eqn:A; [|tauto].
  rewrite In_addAll. split; [|tauto].
  intros [[H | H] | H]; auto.
  right. exists term. split; [apply includes_refl|].
  exists indices. split; [apply assoc_In, A | exact H].
Qed.

Lemma NoDup_matchTerm acc term : NoDup acc -> NoDup (matchTerm st acc term).
Proof.
  intros H. unfold matchTerm. fold (scan term). apply NoDup_scan.
  destruct (mapHas (indexedTerms st) term); [|exact H].
  destruct (mapGet (indexedTerms st) term); [apply NoDup_addAll|]; exact H.
Qed.

Lemma In_matchTerms i : forall terms acc,
  In i (fold_left (matchTerm st) terms acc)
  <-> In i acc \/ exists term, In term terms /\ hit st term i.
Proof.
  induction terms as [|term terms IH]; intros acc; simpl.
  - split; [auto|]. intros [H | [t [[] _]]]. exact H.
  - rewrite IH, In_matchTerm. split.
    + intros [[H | H] | [t [Ht H]]]; eauto.
    + intros [H | [t [[-> | Ht] H]]]; eauto.
Qed.

Lemma NoDup_matchTerms : forall terms acc,
  NoDup acc -> NoDup (fold_left (matchTerm st) terms acc).
Proof.
  induction terms as [|term terms IH]; intros acc H; simpl; [exact H|].
  apply IH, NoDup_matchTerm, H.
Qed.

(** A query without term of two characters or more matches every entry. *)
Lemma performTextSearch_no_term q :
  extractTerms (Js.toLowerCase q) = [] ->
  performTextSearch st q = seq 0 (List.length (entries st)).
Proof. intros H. unfold performTextSearch. rewrite H. reflexivity. Qed.

Lemma In_performTextSearch q i :
  extractTerms (Js.toLowerCase q) <> [] ->
  (In i (performTextSearch st q)
   <-> exists term, In term (extractTerms (Js.toLowerCase q)) /\ hit st term i).
Proof.
  intros H. unfold performTextSearch.
  destruct (extractTerms (Js.toLowerCase q)) as [|t ts] eqn:E; [congruence|].
  change (List.length (t :: ts) =? 0) with false. cbv iota.
  rewrite In_matchTerms. simpl. tauto.
Qed.

Lemma NoDup_performTextSearch q : NoDup (performTextSearch st q).
Proof.
  unfold performTextSearch.
  destruct (List.length (extractTerms (Js.toLowerCase q)) =? 0).
  - apply seq_NoDup.
  - apply NoDup_matchTerms. constructor.
Qed.

Hypothesis bounds : inBounds st.

Lemma performTextSearch_bounds q i :
  In i (performTextSearch st q) -> i < List.length (entries st).
Proof.
  destruct (extractTerms (Js.toLowerCase q)) as [|t ts] eqn:E.
  - rewrite performTextSearch_no_term by exact E. intros H.
    apply in_seq in H. lia.
  - intros H. apply In_performTextSearch in H; [|congruence].
    destruct H as [term [_ [t' [_ Hp]]]]. exact (bounds Hp).
Qed.

Lemma lookups_defined (l : list nat) :
  (forall i, In i l -> i < List.length (entries st)) ->
  map (fun index => nth_error (entries st) index) l
  = map Some (defined (map (fun index => nth_error (entries st) index) l)).
Proof.
  induction l as [|i l IH]; intros H; simpl; [reflexivity|].
  destruct (nth_error (entries st) i) as [e|] eqn:N.
  - simpl. f_equal. apply IH. intros j Hj. apply H. right. exact Hj.
  - apply nth_error_None in N. specialize (H i (or_introl eq_refl)). lia.
Qed.

(** In a well-formed engine no candidate is [undefined]. *)
Lemma candidates_defined q :
  candidates st q = map Some (defined (candidates st q)).
Proof.
  unfold candidates.
  destruct (Js.truthy q && Js.truthy (Js.trim q)).
  - apply lookups_defined. intros i. apply performTextSearch_bounds.
  - rewrite defined_map_Some. reflexivity.
Qed.

Lemma searchResults_defined q options :
  searchResults st q options
  = Ok (map Some (Array_sort (comparatorOf options) (matched st q options))).
Proof.
  unfold searchResults, matched. rewrite candidates_defined.
  change {| f_level := opt_level options;
            f_startDate := opt_startDate options;
            f_endDate := opt_endDate options |} with (filtersOf options).
  rewrite applyFilters_Some. simpl. rewrite sortResults_Some.
  rewrite defined_map_Some. reflexivity.
Qed.

End TextSearch.

(** ** Pagination *)

Lemma pageCount_spec total pageSize :
  (1 <= pageSize)%Z ->
  (total <= pageCount total pageSize * pageSize < total + pageSize)%Z.
Proof.
  intros H. unfold pageCount.
  pose proof (Z_div_mod_eq_full (- total) pageSize) as D.
  pose proof (Z.mod_pos_bound (- total) pageSize ltac:(lia)) as B.
  nia.
Qed.

Lemma ceilDiv_pageCount total pageSize :
  (1 <= pageSize)%Z -> ceilDiv total pageSize = JInt (pageCount total pageSize).
Proof.
  intros H. unfold ceilDiv.
  replace (pageSize =? 0)%Z with false by (symmetry; apply Z.eqb_neq; lia).
  reflexivity.
Qed.

Section Paging.
Context {rt : JsRuntime}.
Variables (st : Engine) (q : string) (o : Options).
Variable R : list (option Entry).
Hypothesis results : searchResults st q o = Ok R.

Let total : Z := Z.of_nat (List.length R).

Lemma search_page page :
  search st q (setPage page o)
  = Ok {| res_entries :=
            Js.slice R ((page - 1) * opt_pageSize o)
              (Z.min ((page - 1) * opt_pageSize o + opt_pageSize o) total);
          pagination :=
            {| currentPage := page;
               totalPages := ceilDiv total (opt_pageSize o);
               totalCount := total;
               pageSize := opt_pageSize o;
               hasNextPage := ltNum page (ceilDiv total (opt_pageSize o));
               hasPreviousPage := (1 <? page)%Z |};
          searchMeta :=
            {| query := q;
               searchTime := lastIndexTime st;
               resultsFound := total |} |}.
Proof.
  unfold search.
  change (searchResults st q (setPage page o)) with (searchResults st q o).
  rewrite results. reflexivity.
Qed.

Lemma pageEntries_slice page :
  pageEntries st q o page
  = Js.slice R ((page - 1) * opt_pageSize o)
      (Z.min ((page - 1) * opt_pageSize o + opt_pageSize o) total).
Proof. unfold pageEntries. rewrite search_page. reflexivity. Qed.

Hypothesis size : (1 <= opt_pageSize o)%Z.

Lemma pageEntries_chunk page :
  (1 <= page)%Z ->
  pageEntries st q o page
  = chunk (Z.to_nat (opt_pageSize o)) R (Z.to_nat (page - 1)).
Proof.
  intros Hp. rewrite pageEntries_slice. apply slice_page; assumption.
Qed.

Lemma pages_cover :
  List.length R
  <= Z.to_nat (pageCount total (opt_pageSize o)) * Z.to_nat (opt_pageSize o).
Proof.
  pose proof (pageCount_spec total size) as S. unfold total in *. nia.
Qed.

(** The pages 1 .. totalPages, one after the other, are the results. *)
Lemma allPages_results :
  allPages st q o (Z.to_nat (pageCount total (opt_pageSize o))) = R.
Proof.
  unfold allPages. rewrite <- seq_shift, map_map.
  rewrite (map_ext _ (chunk (Z.to_nat (opt_pageSize o)) R)).
  - apply concat_chunks, pages_cover.
  - intros k. rewrite pageEntries_chunk by lia. f_equal. lia.
Qed.

Lemma page_beyond page :
  (pageCount total (opt_pageSize o) < page)%Z -> pageEntries st q o page = [].
Proof.
  intros Hp. pose proof (pageCount_spec total size) as S.
  assert (0 <= pageCount total (opt_pageSize o))%Z as P0
      by (unfold total in *; nia).
  rewrite pageEntries_chunk by lia.
  apply chunk_beyond.
  assert (total <= (page - 1) * opt_pageSize o)%Z as B by nia.
  unfold total in B.
  rewrite <- Z2Nat.inj_mul by lia. lia.
Qed.

End Paging.

Arguments search_page {rt st q o R} results page.
Arguments pageEntries_slice {rt st q o R} results page.
Arguments allPages_results {rt st q o R} results size.
Arguments page_beyond {rt st q o R} results size.

Lemma In_slice {A : Type} (l : list A) (a b : Z) (x : A) :
  In x (Js.slice l a b) -> In x l.
Proof.
  unfold Js.slice. intros H.
  set (k := Z.to_nat _) in H. set (n := Z.to_nat _) in H.
  rewrite <- (firstn_skipn n l). apply in_or_app. right.
  rewrite <- (firstn_skipn k (skipn n l)). apply in_or_app. left. exact H.
Qed.

Lemma slice_page_zero {A : Type} (l : list A) (ps total : Z) :
  (1 <= ps)%Z -> (0 <= total)%Z ->
  Js.slice l ((0 - 1) * ps) (Z.min ((0 - 1) * ps + ps) total) = [].
Proof.
  intros Hs Ht. unfold Js.slice.
  replace (Z.min ((0 - 1) * ps + ps) total) with 0%Z by lia.
  replace ((0 - 1) * ps <? 0)%Z with true by (symmetry; apply Z.ltb_lt; lia).
  change (0 <? 0)%Z with false. cbv iota.
  match goal with
  | |- firstn ?n _ = [] => replace n with 0 by lia
  end.
  reflexivity.
Qed.

Lemma setPage_same (o : Options) : setPage (opt_page o) o = o.
Proof. destruct o. reflexivity. Qed.

(** ** The query engine *)

Section QueryEngine.
Context {rt : JsRuntime}.

(** C1. Round trip through indexing and querying: after [indexEntries E],
    a query with empty or whitespace-only text and no level, start date or
    end date filter, with a page size of at least 1, reports [length E]
    results on every page request, and its pages 1 .. totalPages, one after
    the other, are the whole sorted result: a permutation of [E]. *)
Theorem index_then_query_roundtrip (now : Z) (st0 : Engine) (E : list Entry)
  (q : string) (o : Options) :
  Js.trim q = "" -> unfiltered o = true -> (1 <= opt_pageSize o)%Z ->
  let st := indexEntries now st0 E in
  let n := pageCount (Z.of_nat (List.length E)) (opt_pageSize o) in
  (forall page, exists r,
      search st q (setPage page o) = Ok r
      /\ totalCount (pagination r) = Z.of_nat (List.length E)
      /\ totalPages (pagination r) = JInt n)
  /\ searchResults st q o = Ok (allPages st q o (Z.to_nat n))
  /\ Permutation (allPages st q o (Z.to_nat n)) (map Some E).
Proof.
  intros Hq Hf Hs st n.
  assert (candidates st q = map Some E) as Hc.
  { unfold candidates. rewrite Hq. simpl. rewrite andb_false_r. reflexivity. }
  set (R := sortResults (map Some E) (opt_sortBy o) (opt_sortOrder o)).
  assert (searchResults st q o = Ok R) as HR.
  { unfold searchResults. rewrite Hc.
    change {| f_level := opt_level o; f_startDate := opt_startDate o;
              f_endDate := opt_endDate o |} with (filtersOf o).
    rewrite applyFilters_unfiltered by exact Hf. reflexivity. }
  assert (List.length R = List.length E) as HL.
  { unfold R. rewrite sortResults_length. apply length_map. }
  pose proof (allPages_results HR Hs) as HA. rewrite HL in HA. fold n in HA.
  split; [|split].
  - intros page. eexists. split; [apply (search_page HR)|]. simpl.
    rewrite HL. split; [reflexivity|]. apply ceilDiv_pageCount, Hs.
  - rewrite HA. exact HR.
  - rewrite HA. apply sortResults_perm.
Qed.

(** C2. Pagination invariant: for every indexed entry list, query and page
    size of at least 1, [totalCount] is the number of candidates that pass
    the filters, [totalPages] is its quotient by the page size rounded up,
    the lengths of the pages 1 .. totalPages sum to [totalCount], and a
    page beyond totalPages is empty with the same counts. *)
Theorem pagination_invariant (now : Z) (st0 : Engine) (E : list Entry)
  (q : string) (o : Options) :
  (1 <= opt_pageSize o)%Z ->
  let st := indexEntries now st0 E in
  exists filtered,
    applyFilters (candidates st q) (filtersOf o) = Ok filtered
    /\ let total := Z.of_nat (List.length filtered) in
       let n := pageCount total (opt_pageSize o) in
       (total <= n * opt_pageSize o < total + opt_pageSize o)%Z
       /\ (forall page, (1 <= page)%Z ->
             exists r,
               search st q (setPage page o) = Ok r
               /\ totalCount (pagination r) = total
               /\ totalPages (pagination r) = JInt n
               /\ ((n < page)%Z -> res_entries r = []))
       /\ list_sum
            (map (fun p => List.length (pageEntries st q o (Z.of_nat p)))
               (seq 1 (Z.to_nat n)))
          = List.length filtered.
Proof.
  intros Hs st.
  assert (inBounds st) as Hb by apply inBounds_indexEntries.
  exists (map Some (matched st q o)). split.
  { rewrite (candidates_defined Hb q). apply applyFilters_Some. }
  pose proof (searchResults_defined Hb q o) as HR.
  set (R := map Some _) in HR.
  assert (List.length R = List.length (map Some (matched st q o))) as HL.
  { unfold R. rewrite !length_map.
    apply Permutation_length, Array_sort_perm. }
  rewrite <- HL. cbv zeta.
  split; [apply pageCount_spec, Hs | split].
  - intros page Hp. eexists. split; [apply (search_page HR)|]. simpl.
    split; [reflexivity|]. split; [apply ceilDiv_pageCount, Hs|].
    intros Hn. rewrite <- (pageEntries_slice HR). apply (page_beyond HR Hs page Hn).
  - pose proof (allPages_results HR Hs) as HA. unfold allPages in HA.
    apply (f_equal (@List.length _)) in HA.
    rewrite length_concat, map_map in HA. exact HA.
Qed.

(** C10. Index positions are always in bounds: after any sequence of
    [indexEntries] and [clearIndex] calls on a new engine, every position
    recorded under any term is an index into the stored entries; so every
    index returned by [performTextSearch] maps to an entry, and [search]
    returns a page (it does not throw) without [undefined] element. *)
Theorem index_positions_in_bounds (ops : list EngineOp) :
  let st := runEngine ops in
  inBounds st
  /\ (forall q i, In i (performTextSearch st q) ->
        exists e, nth_error (entries st) i = Some e)
  /\ (forall q o, exists r,
        search st q o = Ok r /\ forall x, In x (res_entries r) -> x <> None).
Proof.
  intros st.
  assert (inBounds st) as Hb by apply inBounds_steps, inBounds_newEngine.
  split; [exact Hb | split].
  - intros q i H. apply (performTextSearch_bounds Hb q) in H.
    destruct (nth_error (entries st) i) as [e|] eqn:N; [eauto|].
    apply nth_error_None in N. lia.
  - intros q o. pose proof (searchResults_defined Hb q o) as HR.
    eexists. split.
    + rewrite <- (setPage_same o) at 1. apply (search_page HR).
    + simpl. intros x Hx. apply In_slice in Hx. apply in_map_iff in Hx.
      destruct Hx as [e [<- _]]. discriminate.
Qed.

(** C3. Text search semantics: for a query text that yields
    at least one term, position [i] is a candidate exactly when, for some
    query term, the [i]-th entry is indexed under that very term or under
    a term containing it (OR over the query terms); a query text that
    yields no term has every position as a candidate. The candidates are
    without repetition. *)
Theorem text_search_semantics (now : Z) (st0 : Engine) (E : list Entry)
  (q : string) :
  let st := indexEntries now st0 E in
  let queryTerms := extractTerms (Js.toLowerCase q) in
  (queryTerms <> [] ->
   forall i,
     In i (performTextSearch st q)
     <-> exists term, In term queryTerms
         /\ exists e t, nth_error E i = Some e
            /\ In t (extractTerms (getSearchableText e))
            /\ (t = term \/ Js.includes t term = true))
  /\ (queryTerms = [] -> performTextSearch st q = seq 0 (List.length E))
  /\ NoDup (performTextSearch st q).
Proof.
  intros st queryTerms. split; [|split].
  - intros Hne i. unfold queryTerms in *.
    rewrite (In_performTextSearch st q i Hne). unfold hit.
    split.
    + intros [term [Hin [t [Hinc Hp]]]]. exists term. split; [exact Hin|].
      apply posted_indexEntries in Hp. destruct Hp as [e [Hn Ht]].
      exists e, t. auto.
    + intros [term [Hin [e [t [Hn [Ht Hm]]]]]]. exists term.
      split; [exact Hin|]. exists t. split.
      * destruct Hm as [-> | Hm]; [apply includes_refl | exact Hm].
      * apply posted_indexEntries. eauto.
  - intros Hnil. apply (performTextSearch_no_term st q Hnil).
  - apply NoDup_performTextSearch.
Qed.

End QueryEngine.

(** ** Sort fields, ties and the parameters of a query *)

Lemma stableSort_all_tied cmp (l : list Entry) :
  (forall x y, notAfter cmp x y = true) -> stableSort cmp l = l.
Proof.
  intros H. induction l as [|x l IH]; simpl; [reflexivity|].
  rewrite IH. destruct l as [|y l]; simpl; [reflexivity|].
  rewrite H. reflexivity.
Qed.

(** A comparator that ties everything is consistent. *)
Lemma consistent_all_tied (A : Type) (cmp : A -> A -> option Z) (l : list A) :
  (forall x y, cmp x y = Some 0%Z) -> consistent cmp l = true.
Proof.
  intros H. unfold consistent.
  apply forallb_forall. intros a _. apply forallb_forall. intros b _.
  apply forallb_forall. intros c _.
  unfold consistentAt, cmpIs. rewrite !H. reflexivity.
Qed.

Section QueryParameters.
Context {rt : JsRuntime}.

(** A field that no entry owns has the same value in every entry. *)
Lemma getField_unknown f e :
  knownField f = false ->
  getField e f = match inheritedMember f with
                 | Some text => VObject text
                 | None => VUndefined
                 end.
Proof.
  unfold knownField, entryFields. simpl. intros H.
  repeat (apply orb_false_elim in H; destruct H as [?E H]).
  unfold getField. rewrite E, E0, E1, E2, E3, E4, E5, E6. reflexivity.
Qed.

Lemma compare_unknown f multiplier x y :
  knownField f = false -> notAfter (compareEntries f multiplier) x y = true.
Proof.
  intros H. unfold notAfter, compareEntries.
  rewrite (getField_unknown _ x H), (getField_unknown _ y H).
  destruct (inheritedMember f); simpl; rewrite localeCompare_refl; reflexivity.
Qed.

Lemma compare_unknown_zero f multiplier x y :
  knownField f = false -> compareEntries f multiplier x y = Some 0%Z.
Proof.
  intros H. unfold compareEntries.
  rewrite (getField_unknown _ x H), (getField_unknown _ y H).
  destruct (inheritedMember f); simpl; rewrite localeCompare_refl; reflexivity.
Qed.

Lemma levelDiffers_false l lv :
  levelDiffers l lv = false <-> l = LevelStr lv.
Proof.
  destruct l as [s| |]; simpl; split; intros H; try discriminate.
  - apply negb_false_iff, String.eqb_eq in H. congruence.
  - inversion H. rewrite String.eqb_refl. reflexivity.
Qed.

(** The three filters are a conjunction; one without truthy value asks
    nothing. *)
Lemma passes_and filters e :
  passes filters e = true
  <-> (forall lv, f_level filters = Some lv -> Js.truthy lv = true ->
         level e = LevelStr lv)
      /\ (forall sd, f_startDate filters = Some sd -> Js.truthy sd = true ->
            dateLt (timestamp e) (Date_of_string sd) = false)
      /\ (forall ed, f_endDate filters = Some ed -> Js.truthy ed = true ->
            dateLt (Date_of_string ed) (timestamp e) = false).
Proof.
  unfold passes, optTruthy.
  rewrite !andb_true_iff, !negb_true_iff, !andb_false_iff. split.
  - intros [[H1 H2] H3]. repeat split.
    + intros lv E T. rewrite E, T in H1.
      apply levelDiffers_false. destruct H1; [discriminate | assumption].
    + intros sd E T. rewrite E, T in H2.
      destruct H2; [discriminate | assumption].
    + intros ed E T. rewrite E, T in H3.
      destruct H3; [discriminate | assumption].
  - intros [H1 [H2 H3]]. repeat split.
    + destruct (f_level filters) as [lv|]; [|auto].
      destruct (Js.truthy lv) eqn:T; [|auto].
      right. apply levelDiffers_false. auto.
    + destruct (f_startDate filters) as [sd|]; [|auto].
      destruct (Js.truthy sd) eqn:T; auto.
    + destruct (f_endDate filters) as [ed|]; [|auto].
      destruct (Js.truthy ed) eqn:T; auto.
Qed.

(** Every entry of a result page passed the level and date filters. *)
Lemma result_entries_pass (ops : list EngineOp) q o r e :
  search (runEngine ops) q o = Ok r -> In (Some e) (res_entries r) ->
  passes (filtersOf o) e = true.
Proof.
  intros Hs Hin.
  assert (inBounds (runEngine ops)) as Hb
      by apply inBounds_steps, inBounds_newEngine.
  pose proof (searchResults_defined Hb q o) as HR.
  pose proof (search_page HR (opt_page o)) as HP.
  rewrite setPage_same, Hs in HP. inversion HP; subst r. simpl in Hin.
  apply In_slice, in_map_iff in Hin. destruct Hin as [e' [E Hin]].
  inversion E; subst e'.
  apply (Permutation_in _ (Array_sort_perm _ _)) in Hin.
  apply filter_In in Hin. apply Hin.
Qed.

Lemma search_ignores_sourceFile st q o sf :
  search st q (setSourceFile sf o) = search st q o.
Proof. reflexivity. Qed.

(** C7. Query-shape parameters: an invalid page number or sort
    field does not make the query fail, and is not clamped either. The
    page number is reported as given and used as given in the slice
    bounds, so that page 0 is an empty page; a sort field that no entry
    owns ties all entries, so that the results keep their candidate order
    instead of the order of their timestamps. *)
Theorem invalid_parameters_not_clamped (ops : list EngineOp) (q : string)
  (o : Options) :
  let st := runEngine ops in
  exists r sorted,
    search st q o = Ok r
    /\ searchResults st q o = Ok (map Some sorted)
    /\ currentPage (pagination r) = opt_page o
    /\ res_entries r
       = Js.slice (map Some sorted) ((opt_page o - 1) * opt_pageSize o)
           (Z.min ((opt_page o - 1) * opt_pageSize o + opt_pageSize o)
              (Z.of_nat (List.length sorted)))
    /\ (opt_page o = 0%Z -> (1 <= opt_pageSize o)%Z -> res_entries r = [])
    /\ (knownField (opt_sortBy o) = false -> sorted = matched st q o).
Proof.
  intros st.
  assert (inBounds st) as Hb by apply inBounds_steps, inBounds_newEngine.
  pose proof (searchResults_defined Hb q o) as HR.
  set (sorted := Array_sort _ _) in HR.
  pose proof (search_page HR (opt_page o)) as HS. rewrite setPage_same in HS.
  eexists. exists sorted. split; [exact HS|]. simpl.
  rewrite length_map.
  split; [exact HR|]. split; [reflexivity|]. split; [reflexivity|]. split.
  - intros H0 H1. rewrite H0. apply slice_page_zero; [exact H1 | lia].
  - intros Hk. unfold sorted.
    rewrite Array_sort_consistent.
    + apply stableSort_all_tied. intros x y. apply compare_unknown, Hk.
    + apply consistent_all_tied. intros x y. apply compare_unknown_zero, Hk.
Qed.

(** C8. Sort stability: when the comparator of the query is a consistent
    comparator for the entries to sort, the entries with one and the same
    sort-key value appear among the results in the order of the candidate
    list that was sorted. That is the snapshot order when the query has no
    text; for a text query it is the order in which the text search met
    their positions. (With an Invalid Date under the [timestamp] sort the
    comparator yields NaN, is not consistent, and the order is left to the
    implementation of [sort].) *)
Theorem sort_keeps_candidate_order_among_ties (ops : list EngineOp)
  (q : string) (o : Options) (k : jsval) :
  let st := runEngine ops in
  consistent (comparatorOf o) (matched st q o) = true ->
  exists sorted,
    searchResults st q o = Ok (map Some sorted)
    /\ filter (hasKey (opt_sortBy o) k) sorted
       = filter (hasKey (opt_sortBy o) k) (matched st q o)
    /\ (Js.truthy q && Js.truthy (Js.trim q) = false ->
        matched st q o = filter (passes (filtersOf o)) (entries st))
    /\ (Js.truthy q && Js.truthy (Js.trim q) = true ->
        exists met,
          map Some met
          = map (fun index => nth_error (entries st) index)
              (performTextSearch st (Js.trim q))
          /\ matched st q o = filter (passes (filtersOf o)) met).
Proof.
  intros st Hc.
  assert (inBounds st) as Hb by apply inBounds_steps, inBounds_newEngine.
  eexists. split; [apply (searchResults_defined Hb)|]. split; [|split].
  - rewrite Array_sort_consistent by exact Hc.
    apply stableSort_stable. intros x y. apply hasKey_tied.
  - intros Hq. unfold matched, candidates. rewrite Hq.
    rewrite defined_map_Some. reflexivity.
  - intros Hq. exists (defined (candidates st q)). split; [|reflexivity].
    rewrite <- (candidates_defined Hb q). unfold candidates. rewrite Hq.
    reflexivity.
Qed.

End QueryParameters.

(** ** The line parser *)

Lemma inferLogLevel_spec line path :
  inferLogLevel line path = specFallbackLevel line path.
Proof.
  unfold inferLogLevel, specFallbackLevel, specLevelFromName,
    specLevelFromContent.
  destruct (Js.includes path "error"); [reflexivity|].
  destruct (Js.includes path "debug"); [reflexivity|].
  destruct (Js.includes (Js.toLowerCase line) "error"); reflexivity.
Qed.

Lemma generateEntryId_basename path n :
  Js.truthy (basename path) = true ->
  generateEntryId path n = (basename path ++ ":" ++ Js.natToString n)%string.
Proof.
  unfold generateEntryId, basename.
  destruct (Js.pop (Js.splitChar "/" path)) as [f|]; [|reflexivity].
  intros ->. reflexivity.
Qed.

Section Parser.
Context {rt : JsRuntime}.


(** The [try] block yields the fallback entry, a structured entry of a
    structured record, or throws. *)
Lemma parseStructured_cases now line path n :
  match parseStructured now line path n with
  | Ok e =>
      (structuredRecord line = false
       /\ e = createFallbackEntry now line path n)
      \/ (structuredRecord line = true
          /\ isStructured e = true /\ raw e = line /\ sourceFile e = path
          /\ lineNumber e = n /\ id e = generateEntryId path n)
  | Throw _ => True
  end.
Proof.
  unfold parseStructured, structuredRecord.
  destruct (JSON_parse line) as [v|err]; simpl; [|exact I].
  destruct (getProp v "level") as [l|]; simpl; [|exact I].
  destruct (getProp v "message") as [m|]; simpl; [|exact I].
  destruct (getProp v "timestamp") as [t|]; simpl; [|exact I].
  destruct (jsTruthy l), (jsTruthy m), (jsTruthy t); simpl; auto.
  destruct (normalizeLogLevel l); simpl; [|exact I].
  destruct (cleanMessage m); simpl; [|exact I].
  destruct (parseTimestamp now t); simpl; [|exact I].
  right. repeat split; reflexivity.
Qed.

(** [parseLogLine] returns an entry whatever the line: the exceptions of
    the [try] block are caught. *)
Lemma parseLogLine_total now line path n :
  exists e,
    parseLogLine now line path n = Ok e
    /\ raw e = line /\ sourceFile e = path /\ lineNumber e = n
    /\ id e = generateEntryId path n
    /\ (structuredRecord line = false ->
        e = createFallbackEntry now line path n)
    /\ (isStructured e = false -> e = createFallbackEntry now line path n).
Proof.
  unfold parseLogLine. pose proof (parseStructured_cases now line path n) as C.
  destruct (parseStructured now line path n) as [e|err]; simpl.
  - exists e. split; [reflexivity|].
    destruct C as [[Hs ->] | [Hs [Hi [Hr [Hf [Hl Hid]]]]]].
    + repeat split; auto.
    + repeat split; auto; intros H; congruence.
  - eexists. split; [reflexivity|]. repeat split; auto.
Qed.

Lemma parseLines_total clock path : forall lines i,
  exists es,
    parseLines clock path i lines = Ok es
    /\ List.length es = List.length lines
    /\ forall k line, nth_error lines k = Some line ->
         exists e, nth_error es k = Some e
           /\ parseLogLine (clock (i + k + 1)) line path (i + k + 1) = Ok e.
Proof.
  induction lines as [|line lines IH]; intros i; simpl.
  - exists []. split; [reflexivity|]. split; [reflexivity|].
    intros [|k] l H; discriminate.
  - destruct (parseLogLine_total (clock (i + 1)) line path (i + 1))
      as [e [He _]].
    destruct (IH (S i)) as [es [Hes [Hlen Hnth]]].
    exists (e :: es). rewrite He, Hes. simpl.
    split; [reflexivity|]. split; [congruence|].
    intros [|k] l H; simpl in *.
    + inversion H; subst. exists e. rewrite Nat.add_0_r. auto.
    + destruct (Hnth k l H) as [e' [H1 H2]]. exists e'. split; [exact H1|].
      replace (i + S k + 1) with (S i + k + 1) by lia. exact H2.
Qed.


(** Level inference of the fallback path: for every line that takes the
    fallback path, the level is the one the precedence rule gives when it
    is read on the whole path handed to the parser, directory names
    included: [error], then [debug], and the one inferred from the line
    content when the path has neither. *)
Lemma fallback_level_of_path (now : Z) (line path : string) (n : nat)
  (e : Entry) :
  parseLogLine now line path n = Ok e -> isStructured e = false ->
  level e = LevelStr (specFallbackLevel line path)
  /\ (Js.includes path "error" = true -> level e = LevelStr "error")
  /\ (Js.includes path "error" = false -> Js.includes path "debug" = true ->
      level e = LevelStr "debug")
  /\ (Js.includes path "error" = false -> Js.includes path "debug" = false ->
      level e = LevelStr (specLevelFromContent line)).
Proof.
  intros Hp Hs.
  destruct (parseLogLine_total now line path n) as [e' [He' [_ [_ [_ [_ [_ F]]]]]]].
  assert (e' = e) by congruence. subst e'. specialize (F Hs).
  assert (level e = LevelStr (specFallbackLevel line path)) as L.
  { rewrite F. simpl. rewrite inferLogLevel_spec. reflexivity. }
  split; [exact L|]. rewrite L. unfold specFallbackLevel, specLevelFromName.
  split; [intros ->; reflexivity|].
  split; intros -> ->; reflexivity.
Qed.

(** C6. The level of a fallback entry is inferred from the whole path of
    the source file, not from its name: in the file [debug.log] of the
    directory [/srv/errors], whose name holds [debug] and not [error],
    every line that takes the fallback path gets the level [error], where
    the file name gives [debug]. *)
Theorem fallback_level_reads_directory_names (now : Z) (line : string)
  (n : nat) :
  let path := "/srv/errors/debug.log" in
  basename path = "debug.log"
  /\ Js.includes (basename path) "error" = false
  /\ specFallbackLevel line (basename path) = "debug"
  /\ level (createFallbackEntry now line path n) = LevelStr "error"
  /\ (forall e, parseLogLine now line path n = Ok e ->
        isStructured e = false -> level e = LevelStr "error").
Proof.
  intros path.
  split; [reflexivity|]. split; [reflexivity|]. split; [reflexivity|].
  split; [reflexivity|].
  intros e Hp Hs.
  exact (proj1 (proj2 (fallback_level_of_path now line path n Hp Hs)) eq_refl).
Qed.

End Parser.

(** ** Loading several directories *)

Section Loader.
Context {rt : JsRuntime}.

Lemma parse_one_line clock line path :
  nonEmptyLines line = [line] ->
  exists e,
    parseLogContent clock line path = Ok [e]
    /\ sourceFile e = path /\ id e = generateEntryId path 1.
Proof.
  intros H.
  destruct (parseLogLine_total (clock 1) line path 1)
    as [e [He [_ [Hf [_ [Hid _]]]]]].
  exists e. split; [|auto].
  unfold parseLogContent. destruct line as [|c line]; [discriminate H|].
  cbn [Js.truthy negb]. rewrite H.
  cbn [parseLines Nat.add]. rewrite He. reflexivity.
Qed.

(** C9. The identifiers of one refresh are not unique: with two configured
    directories that each hold a [debug.log], the first entries of the two
    files are different entries with the same id [debug.log:1]. *)
Theorem entry_ids_collide_across_directories (indexTime scanTime : Z)
  (clock : nat -> nat -> Z) (s : ApiState) :
  exists e1 e2,
    entries
      (searchEngine
         (loadLogs indexTime scanTime clock SampleFiles.twoDirectories s))
    = [e1; e2]
    /\ sourceFile e1 = "/srv/a/debug.log"
    /\ sourceFile e2 = "/srv/b/debug.log"
    /\ e1 <> e2
    /\ id e1 = "debug.log:1" /\ id e2 = "debug.log:1".
Proof.
  destruct (@parse_one_line (clock 0) "started" "/srv/a/debug.log" eq_refl)
    as [e1 [P1 [F1 I1]]].
  destruct (@parse_one_line (clock 1) "stopped" "/srv/b/debug.log" eq_refl)
    as [e2 [P2 [F2 I2]]].
  exists e1, e2.
  cbn [loadLogs searchEngine indexEntries entries readAll
       SampleFiles.twoDirectories file_content file_path bind tryCatch].
  rewrite P1, P2. cbn [tryCatch app].
  repeat split; auto. intros E. rewrite E in F1. rewrite F1 in F2. discriminate.
Qed.

End Loader.


(** * Further properties *)

(** ** Characters and strings *)

Ltac each_ascii c :=
  destruct c as [[] [] [] [] [] [] [] []]; vm_compute; try reflexivity;
  try discriminate; auto.

Lemma lowerChar_idem c : Js.lowerChar (Js.lowerChar c) = Js.lowerChar c.
Proof. each_ascii c. Qed.

Lemma isSpace_lowerChar c : Js.isSpace (Js.lowerChar c) = Js.isSpace c.
Proof. each_ascii c. Qed.

Lemma isWordChar_lowerChar c :
  Js.isWordChar (Js.lowerChar c) = Js.isWordChar c.
Proof. each_ascii c. Qed.

Lemma isTermChar_lowerChar c :
  Js.isWordChar c = true -> isTermChar (Js.lowerChar c) = true.
Proof. each_ascii c. Qed.

Lemma lowerChar_termChar c : isTermChar c = true -> Js.lowerChar c = c.
Proof. each_ascii c. Qed.

Lemma isTermChar_word c : isTermChar c = true -> Js.isWordChar c = true.
Proof. each_ascii c. Qed.

Lemma isDigit_not_dot c : Js.isDigit c = true -> c <> "."%char.
Proof. each_ascii c. Qed.

Lemma toLowerCase_idem s :
  Js.toLowerCase (Js.toLowerCase s) = Js.toLowerCase s.
Proof.
  induction s as [|c s IH]; simpl; [reflexivity|].
  rewrite lowerChar_idem, IH. reflexivity.
Qed.

Lemma toLowerCase_length s :
  String.length (Js.toLowerCase s) = String.length s.
Proof. induction s; simpl; congruence. Qed.

Lemma toLowerCase_trimStart s :
  Js.toLowerCase (Js.trimStart s) = Js.trimStart (Js.toLowerCase s).
Proof.
  induction s as [|c s IH]; simpl; [reflexivity|].
  rewrite isSpace_lowerChar. destruct (Js.isSpace c); [exact IH | reflexivity].
Qed.

Lemma toLowerCase_trimEnd s :
  Js.toLowerCase (Js.trimEnd s) = Js.trimEnd (Js.toLowerCase s).
Proof.
  induction s as [|c s IH]; simpl; [reflexivity|].
  rewrite <- IH, isSpace_lowerChar.
  destruct (Js.trimEnd s); simpl; [|reflexivity].
  destruct (Js.isSpace c); reflexivity.
Qed.

Lemma toLowerCase_trim s : Js.toLowerCase (Js.trim s) = Js.trim (Js.toLowerCase s).
Proof.
  unfold Js.trim. rewrite toLowerCase_trimEnd, toLowerCase_trimStart.
  reflexivity.
Qed.

Lemma trimEnd_idem s : Js.trimEnd (Js.trimEnd s) = Js.trimEnd s.
Proof.
  induction s as [|c s IH]; simpl; [reflexivity|].
  destruct (Js.trimEnd s) as [|d t] eqn:E.
  - destruct (Js.isSpace c) eqn:Sp; simpl; [reflexivity|].
    rewrite Sp. reflexivity.
  - simpl in *. rewrite IH. reflexivity.
Qed.

(** A string that does not start with a space keeps its start under
    [trimEnd]. *)
Lemma trimStart_trimEnd s :
  Js.trimStart s = s -> Js.trimStart (Js.trimEnd s) = Js.trimEnd s.
Proof.
  destruct s as [|c s]; simpl; [reflexivity|].
  destruct (Js.isSpace c) eqn:Sp.
  - intros H. exfalso.
    assert (String.length (Js.trimStart s) <= String.length s) as L.
    { clear. induction s as [|d s IH]; simpl; [lia|].
      destruct (Js.isSpace d); simpl; lia. }
    rewrite H in L. simpl in L. lia.
  - intros _. destruct (Js.trimEnd s); simpl; rewrite Sp; reflexivity.
Qed.

Lemma trimStart_idem s : Js.trimStart (Js.trimStart s) = Js.trimStart s.
Proof.
  induction s as [|c s IH]; simpl; [reflexivity|].
  destruct (Js.isSpace c) eqn:Sp; [exact IH|]. simpl. rewrite Sp. reflexivity.
Qed.

Lemma trim_idem s : Js.trim (Js.trim s) = Js.trim s.
Proof.
  unfold Js.trim.
  rewrite (@trimStart_trimEnd (Js.trimStart s)) by apply trimStart_idem.
  apply trimEnd_idem.
Qed.

(** ** The parser's normalisers *)

Lemma normalizeLogLevel_string s :
  Js.truthy s = true ->
  normalizeLogLevel (Some (JString s))
  = Ok (match levelMap (Js.trim (Js.toLowerCase s)) with
        | Some v => v
        | None => LevelStr (Js.trim (Js.toLowerCase s))
        end).
Proof. intros T. unfold normalizeLogLevel. simpl. rewrite T. reflexivity. Qed.

Lemma levelMap_cases n :
  match levelMap n with
  | Some (LevelStr out) => In out ["error"; "warning"; "info"; "debug"]
  | Some _ => True
  | None => ~ In n ["err"; "warn"; "trace"; "fatal"]
  end.
Proof.
  unfold levelMap.
  repeat match goal with
         | |- context [if (?a =? ?b)%string then _ else _] =>
             destruct (String.eqb_spec a b)
         end; simpl; auto 8.
  intuition congruence.
Qed.

(** A level that comes out as a string is in canonical form. *)
Lemma normalizeLogLevel_result (s out : string) :
  normalizeLogLevel (Some (JString s)) = Ok (LevelStr out) ->
  ~ In out ["err"; "warn"; "trace"; "fatal"]
  /\ (out <> "" -> normalizeLogLevel (Some (JString out)) = Ok (LevelStr out)).
Proof.
  destruct (Js.truthy s) eqn:T.
  - rewrite normalizeLogLevel_string by exact T.
    set (n := Js.trim (Js.toLowerCase s)).
    assert (Js.trim (Js.toLowerCase n) = n) as Hn.
    { unfold n. rewrite toLowerCase_trim, toLowerCase_idem. apply trim_idem. }
    pose proof (levelMap_cases n) as C.
    destruct (levelMap n) as [[o| |]|] eqn:L; intros [= <-].
    + split.
      * simpl in C. simpl. intuition (subst; discriminate).
      * intros _. simpl in C.
        repeat (destruct C as [<- | C]; [reflexivity|]). destruct C.
    + split; [exact C|]. intros Hne.
      rewrite normalizeLogLevel_string by (destruct n; [congruence | reflexivity]).
      rewrite Hn, L. reflexivity.
  - unfold normalizeLogLevel. simpl. rewrite T. simpl. intros [= <-].
    split; [|reflexivity]. simpl. intuition discriminate.
Qed.

(** X1. [normalizeLogLevel] returns for every string. When the text,
    lower-cased and trimmed, is [constructor] or [__proto__], the lookup in
    [levelMap] finds the member every object inherits, and the level is
    that object, no string. For every other text the level is a string in
    canonical form: never one of the aliases [err], [warn], [trace],
    [fatal], and, when it is not empty, unchanged by a further
    normalisation. *)
Theorem normalizeLogLevel_canonical (s : string) :
  let normalized := Js.trim (Js.toLowerCase s) in
  exists v,
    normalizeLogLevel (Some (JString s)) = Ok v
    /\ (normalized = "constructor" -> v = LevelObjectCtor)
    /\ (normalized = "__proto__" -> v = LevelObjectProto)
    /\ (normalized <> "constructor" -> normalized <> "__proto__" ->
        exists out,
          v = LevelStr out
          /\ ~ In out ["err"; "warn"; "trace"; "fatal"]
          /\ (out <> "" ->
              normalizeLogLevel (Some (JString out)) = Ok (LevelStr out))).
Proof.
  intros normalized. destruct s as [|c s].
  - exists (LevelStr "unknown"). split; [reflexivity|].
    split; [discriminate|]. split; [discriminate|]. intros _ _.
    exists "unknown". split; [reflexivity|].
    apply (@normalizeLogLevel_result "" "unknown"). reflexivity.
  - assert (normalizeLogLevel (Some (JString (String c s)))
            = Ok (match levelMap normalized with
                  | Some v => v
                  | None => LevelStr normalized
                  end)) as E by (apply normalizeLogLevel_string; reflexivity).
    eexists. split; [exact E|].
    split; [intros ->; reflexivity|]. split; [intros ->; reflexivity|].
    intros N1 N2.
    assert (exists out,
              match levelMap normalized with
              | Some v => v
              | None => LevelStr normalized
              end = LevelStr out) as [out Hout].
    { unfold levelMap.
      repeat match goal with
             | |- context [if (?a =? ?b)%string then _ else _] =>
                 destruct (String.eqb_spec a b)
             end; try congruence; eauto. }
    exists out. split; [exact Hout|].
    apply (@normalizeLogLevel_result (String c s) out).
    rewrite E, Hout. reflexivity.
Qed.

Lemma str_app_assoc (a b c : string) :
  ((a ++ b) ++ c)%string = (a ++ (b ++ c))%string.
Proof. induction a; simpl; congruence. Qed.

Lemma str_app_nil_r (a : string) : (a ++ "")%string = a.
Proof. induction a; simpl; congruence. Qed.

Lemma allChars_cons p c s :
  allChars p (String c s) = p c && allChars p s.
Proof. reflexivity. Qed.

Lemma allChars_app p a b :
  allChars p (a ++ b)%string = allChars p a && allChars p b.
Proof.
  induction a as [|c a IH]; simpl; [reflexivity|].
  rewrite !allChars_cons, IH, andb_assoc. reflexivity.
Qed.

Lemma ansiAt_noEscape c s :
  negb (Js.code c =? 27) = true -> ansiAt (String c s) = None.
Proof.
  intros H. apply negb_true_iff in H. simpl.
  destruct s as [|b [|d rest]]; try reflexivity.
  rewrite H. reflexivity.
Qed.

Lemma stripAnsiFuel_noEscape : forall fuel s,
  noEscape s = true -> stripAnsiFuel fuel s = s.
Proof.
  induction fuel as [|fuel IH]; intros s H; [reflexivity|].
  destruct s as [|c s]; [reflexivity|].
  unfold noEscape in H. rewrite allChars_cons in H.
  apply andb_true_iff in H. destruct H as [Hc Hs].
  cbn [stripAnsiFuel]. rewrite ansiAt_noEscape by exact Hc.
  rewrite IH by exact Hs. reflexivity.
Qed.

Lemma dropDigits_length s : String.length (dropDigits s) <= String.length s.
Proof.
  induction s as [|c s IH]; simpl; [lia|].
  destruct (Js.isDigit c); simpl; lia.
Qed.

Lemma ansiAt_shorter s rest :
  ansiAt s = Some rest -> String.length rest < String.length s.
Proof.
  destruct s as [|e [|b [|d r]]]; simpl; try discriminate.
  destruct ((Js.code e =? 27) && (Js.code b =? 91) && Js.isDigit d);
    [|discriminate].
  pose proof (dropDigits_length r) as L.
  destruct (dropDigits r) as [|m r']; [discriminate|].
  destruct (Js.code m =? 109); [|discriminate].
  intros [= <-]. simpl in L. lia.
Qed.

(** Any fuel from the length of the string on gives the same result. *)
Lemma stripAnsiFuel_enough : forall fuel s,
  String.length s <= fuel ->
  stripAnsiFuel fuel s = stripAnsiFuel (String.length s) s.
Proof.
  induction fuel as [fuel IH] using lt_wf_ind. intros s H.
  destruct fuel as [|fuel].
  - destruct s; simpl in H; [reflexivity | lia].
  - destruct s as [|c s].
    + reflexivity.
    + simpl String.length. cbn [stripAnsiFuel].
      destruct (ansiAt (String c s)) as [rest|] eqn:A.
      * apply ansiAt_shorter in A. simpl in A, H.
        rewrite (IH fuel) by lia.
        rewrite (IH (String.length s)) by lia. reflexivity.
      * simpl in H. rewrite (IH fuel) by lia. reflexivity.
Qed.

Lemma dropDigits_app d c r :
  allChars Js.isDigit d = true -> Js.isDigit c = false ->
  dropDigits (d ++ String c r) = String c r.
Proof.
  intros Hd Hc. induction d as [|x d IH]; simpl.
  - rewrite Hc. reflexivity.
  - rewrite allChars_cons in Hd. apply andb_true_iff in Hd.
    destruct Hd as [Hx Hd]. rewrite Hx. apply IH, Hd.
Qed.

Lemma ansiAt_code digits rest :
  digits <> "" -> allChars Js.isDigit digits = true ->
  ansiAt (ansiCode digits ++ rest) = Some rest.
Proof.
  intros Hne Hd. destruct digits as [|d ds]; [congruence|].
  rewrite allChars_cons in Hd. apply andb_true_iff in Hd.
  destruct Hd as [H1 H2].
  unfold ansiCode. cbn [append ansiAt].
  change (Js.code (ascii_of_nat 27) =? 27) with true.
  change (Js.code "[" =? 91) with true. rewrite H1. cbn [andb].
  rewrite str_app_assoc. cbn [append].
  rewrite dropDigits_app by (exact H2 || reflexivity).
  reflexivity.
Qed.

Lemma stripAnsi_prefix a b :
  noEscape a = true -> stripAnsi (a ++ b) = (a ++ stripAnsi b)%string.
Proof.
  intros Ha. unfold stripAnsi.
  induction a as [|c a IH]; [reflexivity|].
  unfold noEscape in Ha. rewrite allChars_cons in Ha.
  apply andb_true_iff in Ha. destruct Ha as [Hc Ha].
  cbn [append String.length stripAnsiFuel].
  rewrite ansiAt_noEscape by exact Hc. rewrite IH by exact Ha. reflexivity.
Qed.

Lemma stripAnsi_code digits rest :
  digits <> "" -> allChars Js.isDigit digits = true ->
  stripAnsi (ansiCode digits ++ rest) = stripAnsi rest.
Proof.
  intros Hne Hd. unfold stripAnsi.
  pose proof (ansiAt_code rest Hne Hd) as A.
  pose proof (@ansiAt_shorter _ _ A) as L.
  destruct (String.length (ansiCode digits ++ rest)) as [|n] eqn:E; [lia|].
  cbn [stripAnsiFuel]. rewrite A. apply stripAnsiFuel_enough. lia.
Qed.

(** X2. [cleanMessage] takes the colour sequences off a message and
    trims it: for a text [body] without escape character,
    [ESC[d1m body ESC[d2m] and [body] itself are both cleaned to the
    trimmed [body]. *)
Theorem cleanMessage_strips_colours (d1 d2 body : string) :
  d1 <> "" -> allChars Js.isDigit d1 = true ->
  d2 <> "" -> allChars Js.isDigit d2 = true ->
  noEscape body = true ->
  cleanMessage (Some (JString (ansiCode d1 ++ body ++ ansiCode d2)))
  = Ok (Js.trim body)
  /\ cleanMessage (Some (JString body)) = Ok (Js.trim body).
Proof.
  intros N1 D1 N2 D2 Hb. unfold cleanMessage. split.
  - change (jsTruthy (Some (JString (ansiCode d1 ++ body ++ ansiCode d2))))
      with true. cbn [negb].
    rewrite stripAnsi_code by assumption.
    rewrite stripAnsi_prefix by exact Hb.
    rewrite <- (str_app_nil_r (ansiCode d2)).
    rewrite stripAnsi_code by assumption.
    change (stripAnsi "") with "".
    rewrite str_app_nil_r.
    reflexivity.
  - destruct body as [|c body]; [reflexivity|].
    change (jsTruthy (Some (JString (String c body)))) with true. cbn [negb].
    unfold stripAnsi. rewrite stripAnsiFuel_noEscape by exact Hb. reflexivity.
Qed.

(** ** Entry identifiers *)

Lemma digitsFuel_step fuel n acc :
  Js.digitsFuel (S fuel) n acc
  = if n / 10 =? 0 then String (ascii_of_nat (48 + n mod 10)) acc
    else Js.digitsFuel fuel (n / 10)
           (String (ascii_of_nat (48 + n mod 10)) acc).
Proof. reflexivity. Qed.

Lemma digitsFuel_acc : forall fuel n acc,
  Js.digitsFuel fuel n acc = (Js.digitsFuel fuel n "" ++ acc)%string.
Proof.
  induction fuel as [|fuel IH]; intros n acc; [reflexivity|].
  rewrite !digitsFuel_step.
  destruct (n / 10 =? 0); [reflexivity|].
  rewrite IH. rewrite (IH _ (String _ "")). rewrite str_app_assoc.
  reflexivity.
Qed.

Lemma decimalValue_snoc : forall a k c,
  decimalValue k (a ++ String c "")
  = 10 * decimalValue k a + (Js.code c - 48).
Proof.
  induction a as [|x a IH]; intros k c; simpl.
  - lia.
  - apply IH.
Qed.

Lemma code_digit r : r < 10 -> Js.code (ascii_of_nat (48 + r)) - 48 = r.
Proof.
  intros H. unfold Js.code. rewrite nat_ascii_embedding by lia. lia.
Qed.

Lemma decimalValue_digitsFuel : forall fuel n,
  n < fuel -> decimalValue 0 (Js.digitsFuel fuel n "") = n.
Proof.
  induction fuel as [|fuel IH]; intros n H; [lia|].
  rewrite digitsFuel_step.
  pose proof (Nat.mod_upper_bound n 10 ltac:(lia)) as M.
  pose proof (Nat.div_mod_eq n 10) as D.
  destruct (n / 10 =? 0) eqn:E.
  - apply Nat.eqb_eq in E. cbn [decimalValue].
    rewrite code_digit by exact M. lia.
  - apply Nat.eqb_neq in E. rewrite digitsFuel_acc, decimalValue_snoc.
    rewrite IH by (assert (n / 10 < n) by (apply Nat.div_lt; lia); lia).
    rewrite code_digit by exact M. lia.
Qed.

(** The decimal rendering can be read back. *)
Lemma decimalValue_natToString n : decimalValue 0 (Js.natToString n) = n.
Proof. apply decimalValue_digitsFuel. lia. Qed.

Lemma natToString_inj n m : Js.natToString n = Js.natToString m -> n = m.
Proof.
  intros H. rewrite <- (decimalValue_natToString n), H.
  apply decimalValue_natToString.
Qed.

Lemma str_app_inv_head (a x y : string) :
  (a ++ x)%string = (a ++ y)%string -> x = y.
Proof. induction a; simpl; intros H; [exact H | inversion H; auto]. Qed.

Lemma generateEntryId_inj path n m :
  generateEntryId path n = generateEntryId path m -> n = m.
Proof.
  unfold generateEntryId. intros H.
  apply str_app_inv_head in H. simpl in H. inversion H as [H'].
  apply natToString_inj, H'.
Qed.

Section EntryIds.
Context {rt : JsRuntime}.

(** X3. Within one file the identifiers are unique: the entries that
    [parseLogContent] returns for one content and path have pairwise
    different ids. *)
Theorem ids_unique_within_file (clock : nat -> Z) (content path : string)
  (es : list Entry) :
  parseLogContent clock content path = Ok es -> NoDup (map id es).
Proof.
  intros H.
  assert (parseLines clock path 0 (nonEmptyLines content) = Ok es) as HL.
  { unfold parseLogContent in H. destruct content; [|exact H].
    inversion H. reflexivity. }
  destruct (parseLines_total clock path (nonEmptyLines content) 0)
    as [es' [Hes [Hlen Hnth]]].
  assert (es' = es) by congruence. subst es'.
  assert (forall k e, nth_error es k = Some e ->
                      id e = generateEntryId path (k + 1)) as Hid.
  { intros k e Hk.
    assert (k < List.length (nonEmptyLines content)) as Lk
        by (rewrite <- Hlen; apply nth_error_Some; congruence).
    destruct (nth_error (nonEmptyLines content) k) as [line|] eqn:N;
      [|apply nth_error_None in N; lia].
    destruct (Hnth k line N) as [e' [He' Hp]]. simpl in Hp.
    assert (e' = e) by congruence. subst e'.
    destruct (parseLogLine_total (clock (k + 1)) line path (k + 1))
      as [e2 [He2 [_ [_ [_ [I _]]]]]].
    congruence. }
  apply NoDup_nth_error. intros i j Hi Hij.
  rewrite length_map in Hi.
  rewrite !nth_error_map in Hij.
  destruct (nth_error es i) as [a|] eqn:A;
    [|apply nth_error_None in A; lia].
  destruct (nth_error es j) as [b|] eqn:B; [|discriminate].
  simpl in Hij. inversion Hij as [Hab].
  rewrite (Hid i a A), (Hid j b B) in Hab.
  apply generateEntryId_inj in Hab. lia.
Qed.

End EntryIds.

(** ** The directory scanner *)

Lemma afterPrefix_Some : forall p s r,
  afterPrefix p s = Some r <-> s = (p ++ r)%string.
Proof.
  induction p as [|a p IH]; intros s r; simpl.
  - split; [intros [= ->]; reflexivity | intros ->; reflexivity].
  - destruct s as [|b s]; [split; discriminate|].
    destruct (Ascii.eqb_spec a b) as [-> | N].
    + rewrite IH. split; [intros ->; reflexivity | intros [= ->]; reflexivity].
    + split; [discriminate | intros [= E]; congruence].
Qed.

Lemma digits_then_rest r :
  exists d, allChars Js.isDigit d = true /\ r = (d ++ dropDigits r)%string.
Proof.
  induction r as [|c r [d [Hd Hr]]]; simpl.
  - exists "". split; reflexivity.
  - destruct (Js.isDigit c) eqn:E.
    + exists (String c d). rewrite allChars_cons, E, Hd. simpl.
      split; [reflexivity | congruence].
    + exists "". split; reflexivity.
Qed.

Lemma dropDigits_log r :
  dropDigits r = ".log"
  <-> exists d, allChars Js.isDigit d = true /\ r = (d ++ ".log")%string.
Proof.
  split.
  - intros H. destruct (digits_then_rest r) as [d [Hd Hr]].
    exists d. rewrite H in Hr. auto.
  - intros [d [Hd ->]]. apply dropDigits_app; [exact Hd | reflexivity].
Qed.

Lemma prefix_app p r : prefix p (p ++ r) = true.
Proof.
  induction p as [|a p IH]; simpl; [destruct r; reflexivity|].
  destruct (ascii_dec a a); [exact IH | congruence].
Qed.

(** X4. [isLogFile] accepts exactly the names [debug<digits>.log] and
    [error<digits>.log] (digits optional), and for these
    [extractLogLevel] is the prefix of the name. *)
Theorem isLogFile_spec (filename : string) :
  isLogFile filename = true
  <-> exists p d,
        (p = "debug" \/ p = "error")
        /\ allChars Js.isDigit d = true
        /\ filename = (p ++ d ++ ".log")%string
        /\ extractLogLevel filename = p.
Proof.
  unfold isLogFile. split.
  - destruct (afterPrefix "debug" filename) as [r|] eqn:A.
    + intros H. apply String.eqb_eq, dropDigits_log in H.
      destruct H as [d [Hd ->]]. apply afterPrefix_Some in A. subst.
      exists "debug", d. repeat split; auto.
      unfold extractLogLevel, startsWith. rewrite prefix_app. reflexivity.
    + destruct (afterPrefix "error" filename) as [r|] eqn:B; [|discriminate].
      intros H. apply String.eqb_eq, dropDigits_log in H.
      destruct H as [d [Hd ->]]. apply afterPrefix_Some in B. subst.
      exists "error", d. repeat split; auto.
  - intros [p [d [[-> | ->] [Hd [-> _]]]]]; cbn [afterPrefix append Ascii.eqb];
      simpl; apply String.eqb_eq, dropDigits_log; eauto.
Qed.

Lemma StronglySorted_weaken {A : Type} (R R' : A -> A -> Prop) l :
  (forall a b, R a b -> R' a b) -> StronglySorted R l -> StronglySorted R' l.
Proof.
  intros H S. induction S as [|a l S IH F]; constructor; [exact IH|].
  eapply Forall_impl; [|exact F]. intros b. apply H.
Qed.

Section SortWith.
Variable A : Type.
Variable cmp : A -> A -> Z.

Lemma insertWith_perm x l : Permutation (insertWith cmp x l) (x :: l).
Proof.
  induction l as [|y l IH]; simpl; [apply Permutation_refl|].
  destruct (cmp x y <=? 0)%Z; [apply Permutation_refl|].
  eapply perm_trans; [apply perm_skip, IH | apply perm_swap].
Qed.

Lemma sortWith_perm l : Permutation (sortWith cmp l) l.
Proof.
  induction l as [|x l IH]; simpl; [constructor|].
  eapply perm_trans; [apply insertWith_perm | apply perm_skip, IH].
Qed.

Hypothesis total : forall x y, (cmp x y <= 0)%Z \/ (cmp y x <= 0)%Z.
Hypothesis trans :
  forall x y z, (cmp x y <= 0)%Z -> (cmp y z <= 0)%Z -> (cmp x z <= 0)%Z.

Lemma insertWith_sorted x l :
  StronglySorted (fun a b => (cmp a b <= 0)%Z) l ->
  StronglySorted (fun a b => (cmp a b <= 0)%Z) (insertWith cmp x l).
Proof.
  induction l as [|y l IH]; intros S; simpl.
  - repeat constructor.
  - inversion S as [|? ? S' F]; subst.
    destruct (Z.leb_spec (cmp x y) 0) as [L | G].
    + constructor; [exact S|]. constructor; [exact L|].
      eapply Forall_impl; [|exact F]. intros z Hz. eapply trans; eauto.
    + constructor; [apply IH, S'|].
      apply (Permutation_Forall (Permutation_sym (insertWith_perm x l))).
      constructor; [|exact F]. destruct (total x y); [lia | assumption].
Qed.

Lemma sortWith_sorted l :
  StronglySorted (fun a b => (cmp a b <= 0)%Z) (sortWith cmp l).
Proof.
  induction l as [|x l IH]; simpl; [constructor | apply insertWith_sorted, IH].
Qed.

End SortWith.

Section Scanner.
Variable readdir : string -> io (list Dirent).
Variable stat : string -> io Stats.
Variable path_join : string -> string -> string.
Variable path_basename : string -> string.
Variable path_dirname : string -> string.

(** What a file record of directory [dirPath] says. *)
Let describes (dirPath : string) (f : FileInfo) : Prop :=
  isLogFile (fi_name f) = true
  /\ fi_level f = extractLogLevel (fi_name f)
  /\ fi_directory f = dirPath
  /\ fi_path f = path_join dirPath (fi_name f)
  /\ stat (fi_path f)
     = Done {| st_size := fi_size f; st_mtime := fi_lastModified f |}.

Lemma scanEntries_Done dirPath : forall ents fs,
  scanEntries stat path_join dirPath ents = Done fs ->
  map fi_name fs = map d_name (filter isLogEntry ents)
  /\ Forall (describes dirPath) fs.
Proof.
  induction ents as [|e ents IH]; intros fs H; simpl in *.
  - inversion H. split; constructor.
  - unfold isLogEntry at 1. destruct (d_isFile e && isLogFile (d_name e)) eqn:M.
    + destruct (stat (path_join dirPath (d_name e))) as [[sz mt]|] eqn:St;
        [|discriminate].
      destruct (scanEntries stat path_join dirPath ents) as [fs'|];
        [|discriminate].
      inversion H; subst. destruct (IH fs' eq_refl) as [N F].
      split; [simpl; f_equal; exact N|].
      constructor; [|exact F]. apply andb_true_iff in M.
      unfold describes. simpl. rewrite St. tauto.
    + apply IH, H.
Qed.

Lemma scanEntries_Failed dirPath m : forall ents,
  scanEntries stat path_join dirPath ents = Failed m ->
  exists e, In e ents /\ isLogEntry e = true
            /\ stat (path_join dirPath (d_name e)) = Failed m.
Proof.
  induction ents as [|e ents IH]; intros H; simpl in *; [discriminate|].
  destruct (d_isFile e && isLogFile (d_name e)) eqn:M.
  - destruct (stat (path_join dirPath (d_name e))) as [st|m'] eqn:St.
    + destruct (scanEntries stat path_join dirPath ents) as [fs'|m''];
        [discriminate|].
      inversion H; subst. destruct (IH eq_refl) as [e' [I [L S]]].
      exists e'. auto.
    + inversion H; subst. exists e. auto.
  - destruct (IH H) as [e' [I [L S]]]. exists e'. auto.
Qed.

(** X5. A directory scan returns exactly the regular files named like a
    log file, in listing order, each with its path, level, directory and
    stats. When the listing or the [stat] of one such file fails, the whole
    directory fails, with a message that names it. *)
Theorem scanSingleDirectory_spec (dirPath : string) :
  match scanSingleDirectory readdir stat path_join dirPath with
  | Done fs =>
      exists ents,
        readdir dirPath = Done ents
        /\ map fi_name fs = map d_name (filter isLogEntry ents)
        /\ Forall (describes dirPath) fs
  | Failed msg =>
      exists m,
        msg = ("Failed to scan directory " ++ dirPath ++ ": " ++ m)%string
        /\ (readdir dirPath = Failed m
            \/ exists ents e,
                 readdir dirPath = Done ents /\ In e ents
                 /\ isLogEntry e = true
                 /\ stat (path_join dirPath (d_name e)) = Failed m)
  end.
Proof.
  unfold scanSingleDirectory.
  destruct (readdir dirPath) as [ents|m] eqn:R.
  - destruct (scanEntries stat path_join dirPath ents) as [fs|m] eqn:S.
    + exists ents. split; [reflexivity|]. apply scanEntries_Done, S.
    + exists m. split; [reflexivity|]. right.
      destruct (scanEntries_Failed _ _ S) as [e H]. exists ents, e. tauto.
  - exists m. split; [reflexivity | left; reflexivity].
Qed.

Lemma scanEach_spec : forall logPaths,
  fst (scanEach readdir stat path_join logPaths)
  = flat_map (filesFound readdir stat path_join) logPaths
  /\ map w_text (snd (scanEach readdir stat path_join logPaths))
     = map (fun p => ("The Logfather couldn't access directory: " ++ p)%string)
         (filter (scanFails readdir stat path_join) logPaths).
Proof.
  induction logPaths as [|p rest [IH1 IH2]]; simpl; [split; reflexivity|].
  unfold filesFound at 1, scanFails at 1.
  destruct (scanEach readdir stat path_join rest) as [files warnings].
  simpl in IH1, IH2.
  destruct (scanSingleDirectory readdir stat path_join p); simpl.
  - rewrite IH1. auto.
  - rewrite IH1, IH2. auto.
Qed.

(** X6. [scanLogDirectories] returns the files of all directories that
    could be scanned, most recently modified first; a directory that fails
    is left out with one warning that names it, and the others are still
    scanned. *)
Theorem scanLogDirectories_spec (logPaths : list string) :
  let result := scanLogDirectories readdir stat path_join logPaths in
  Permutation (fst result)
    (flat_map (filesFound readdir stat path_join) logPaths)
  /\ StronglySorted
       (fun a b => (fi_lastModified b <= fi_lastModified a)%Z) (fst result)
  /\ map w_text (snd result)
     = map (fun p => ("The Logfather couldn't access directory: " ++ p)%string)
         (filter (scanFails readdir stat path_join) logPaths).
Proof.
  unfold scanLogDirectories.
  destruct (scanEach_spec logPaths) as [H1 H2].
  destruct (scanEach readdir stat path_join logPaths) as [files warnings].
  simpl in *. subst files. split; [apply sortWith_perm | split; [|exact H2]].
  eapply StronglySorted_weaken; [|apply sortWith_sorted].
  - unfold byLastModifiedDesc. intros a b H. lia.
  - unfold byLastModifiedDesc. intros x y. lia.
  - unfold byLastModifiedDesc. intros x y z. lia.
Qed.

(** X7. [getFileMetadata] describes, in the order given, exactly the paths
    whose [stat] succeeds, and warns once for each of the others. *)
Theorem getFileMetadata_spec (filePaths : list string) :
  let result := getFileMetadata stat path_basename path_dirname filePaths in
  map fi_path (fst result) = filter (fun p => succeeds (stat p)) filePaths
  /\ map w_text (snd result)
     = map (fun p => ("The Logfather couldn't access file: " ++ p)%string)
         (filter (fun p => negb (succeeds (stat p))) filePaths)
  /\ Forall
       (fun f =>
          fi_name f = path_basename (fi_path f)
          /\ fi_level f = extractLogLevel (fi_name f)
          /\ fi_directory f = path_dirname (fi_path f)
          /\ stat (fi_path f)
             = Done {| st_size := fi_size f; st_mtime := fi_lastModified f |})
       (fst result).
Proof.
  induction filePaths as [|p rest IH]; simpl; [repeat split; constructor|].
  destruct (getFileMetadata stat path_basename path_dirname rest)
    as [md ws].
  simpl in IH. destruct IH as [I1 [I2 I3]].
  destruct (stat p) as [[sz mt]|m] eqn:S; simpl.
  - rewrite I1. split; [reflexivity|]. split; [exact I2|].
    constructor; [|exact I3]. simpl. rewrite S. auto.
  - rewrite I2. auto.
Qed.

End Scanner.

(** ** Tokens *)

Lemma splitNonWord_cons_word c s :
  Js.isWordChar c = true ->
  Js.splitNonWord (String c s)
  = String c (hd "" (Js.splitNonWord s)) :: tl (Js.splitNonWord s).
Proof.
  intros H. cbn [Js.splitNonWord]. rewrite H.
  destruct (Js.splitNonWord s); reflexivity.
Qed.

Lemma splitNonWord_cons_other c d s :
  Js.isWordChar c = false ->
  Js.splitNonWord (String c (String d s))
  = if Js.isWordChar d then "" :: Js.splitNonWord (String d s)
    else Js.splitNonWord (String d s).
Proof.
  intros H.
  change (Js.splitNonWord (String c (String d s)))
    with (if Js.isWordChar c then
            match Js.splitNonWord (String d s) with
            | p :: ps => String c p :: ps
            | [] => [String c ""]
            end
          else if Js.isWordChar d then "" :: Js.splitNonWord (String d s)
               else Js.splitNonWord (String d s)).
  rewrite H. reflexivity.
Qed.

Lemma splitNonWord_last_sep c :
  Js.isWordChar c = false -> Js.splitNonWord (String c "") = [""; ""].
Proof. intros H. cbn [Js.splitNonWord]. rewrite H. reflexivity. Qed.

Lemma splitNonWord_nonempty s : Js.splitNonWord s <> [].
Proof.
  induction s as [|c s IH]; [discriminate|].
  destruct (Js.isWordChar c) eqn:W.
  - rewrite splitNonWord_cons_word by exact W. discriminate.
  - destruct s as [|d s].
    + rewrite splitNonWord_last_sep by exact W. discriminate.
    + rewrite splitNonWord_cons_other by exact W.
      destruct (Js.isWordChar d); [discriminate | exact IH].
Qed.

(** After a non-word character the first piece is empty and the other
    pieces are the non-empty pieces of what follows. *)
Lemma splitNonWord_cons_sep c s :
  Js.isWordChar c = false ->
  hd "" (Js.splitNonWord (String c s)) = ""
  /\ nonEmptyPieces (tl (Js.splitNonWord (String c s)))
     = nonEmptyPieces (Js.splitNonWord s).
Proof.
  revert c. induction s as [|d s IH]; intros c H.
  - rewrite splitNonWord_last_sep by exact H. split; reflexivity.
  - rewrite splitNonWord_cons_other by exact H.
    destruct (Js.isWordChar d) eqn:W.
    + split; reflexivity.
    + destruct (IH d W) as [Hh Ht]. split; [exact Hh|].
      destruct (Js.splitNonWord (String d s)) as [|h t] eqn:E.
      * destruct (splitNonWord_nonempty _ E).
      * simpl in Hh. subst h. reflexivity.
Qed.

Lemma nonEmptyPieces_split s :
  nonEmptyPieces (Js.splitNonWord s)
  = nonEmptyPieces [hd "" (Js.splitNonWord s)]
    ++ nonEmptyPieces (tl (Js.splitNonWord s)).
Proof.
  destruct (Js.splitNonWord s) as [|h t] eqn:E;
    [destruct (splitNonWord_nonempty _ E)|].
  simpl. destruct (Js.truthy h); reflexivity.
Qed.

(** Splitting a text with a separator inside: the pieces before and the
    pieces after. *)
Lemma splitNonWord_app sep b : Js.isWordChar sep = false -> forall a,
  hd "" (Js.splitNonWord (a ++ String sep b)) = hd "" (Js.splitNonWord a)
  /\ nonEmptyPieces (tl (Js.splitNonWord (a ++ String sep b)))
     = nonEmptyPieces (tl (Js.splitNonWord a))
       ++ nonEmptyPieces (Js.splitNonWord b).
Proof.
  intros Hsep. induction a as [|c a [IHh IHt]].
  - cbn [append]. destruct (@splitNonWord_cons_sep sep b Hsep) as [H1 H2].
    split; [exact H1 | exact H2].
  - cbn [append]. destruct (Js.isWordChar c) eqn:W.
    + rewrite !splitNonWord_cons_word by exact W. simpl.
      rewrite IHh. split; [reflexivity | exact IHt].
    + destruct (@splitNonWord_cons_sep c (a ++ String sep b) W) as [H1 H2].
      destruct (@splitNonWord_cons_sep c a W) as [H3 H4].
      split; [congruence|].
      rewrite H2, H4, (nonEmptyPieces_split (a ++ String sep b)),
        (nonEmptyPieces_split a), IHh, IHt, app_assoc.
      reflexivity.
Qed.

Lemma nonEmptyPieces_app sep a b :
  Js.isWordChar sep = false ->
  nonEmptyPieces (Js.splitNonWord (a ++ String sep b))
  = nonEmptyPieces (Js.splitNonWord a) ++ nonEmptyPieces (Js.splitNonWord b).
Proof.
  intros H. destruct (@splitNonWord_app sep b H a) as [Hh Ht].
  rewrite (nonEmptyPieces_split (a ++ String sep b)), (nonEmptyPieces_split a),
    Hh, Ht, app_assoc.
  reflexivity.
Qed.

Lemma long_pieces (l : list string) :
  filter (fun term => 2 <=? String.length term) l
  = filter (fun term => 2 <=? String.length term) (nonEmptyPieces l).
Proof.
  unfold nonEmptyPieces. induction l as [|x l IH]; [reflexivity|].
  cbn [filter]. destruct x as [|c x].
  - change (2 <=? String.length "") with false.
    change (Js.truthy "") with false. cbv iota. exact IH.
  - change (Js.truthy (String c x)) with true. cbv iota. cbn [filter].
    rewrite IH. reflexivity.
Qed.

Lemma extractTerms_app sep a b :
  Js.isWordChar sep = false ->
  extractTerms (a ++ String sep b) = extractTerms a ++ extractTerms b.
Proof.
  intros H. unfold extractTerms.
  rewrite (long_pieces (Js.splitNonWord (a ++ String sep b))),
    nonEmptyPieces_app by exact H.
  rewrite filter_app, map_app, <- !long_pieces. reflexivity.
Qed.

Lemma splitNonWord_lower s :
  Js.splitNonWord (Js.toLowerCase s) = map Js.toLowerCase (Js.splitNonWord s).
Proof.
  induction s as [|c s IH]; [reflexivity|].
  cbn [Js.toLowerCase]. destruct (Js.isWordChar c) eqn:W.
  - rewrite !splitNonWord_cons_word
      by (rewrite ?isWordChar_lowerChar; exact W).
    rewrite IH. destruct (Js.splitNonWord s) as [|h t] eqn:E;
      [destruct (splitNonWord_nonempty _ E)|].
    reflexivity.
  - assert (Js.isWordChar (Js.lowerChar c) = false) as W'
        by (rewrite isWordChar_lowerChar; exact W).
    destruct s as [|d s].
    + cbn [Js.toLowerCase]. rewrite !splitNonWord_last_sep by assumption.
      reflexivity.
    + cbn [Js.toLowerCase] in *.
      rewrite !splitNonWord_cons_other by assumption.
      rewrite isWordChar_lowerChar.
      destruct (Js.isWordChar d); [cbn [map]; rewrite IH; reflexivity | exact IH].
Qed.

(** The terms of a text do not depend on the case of its letters. *)
Lemma extractTerms_lower s : extractTerms (Js.toLowerCase s) = extractTerms s.
Proof.
  unfold extractTerms. rewrite splitNonWord_lower.
  induction (Js.splitNonWord s) as [|p l IH]; [reflexivity|].
  cbn [map filter]. rewrite toLowerCase_length.
  destruct (2 <=? String.length p); cbn [map];
    rewrite ?toLowerCase_idem, IH; reflexivity.
Qed.

Lemma toLowerCase_app a b :
  Js.toLowerCase (a ++ b) = (Js.toLowerCase a ++ Js.toLowerCase b)%string.
Proof. induction a; simpl; congruence. Qed.

Lemma splitNonWord_pieces s :
  Forall (fun p => allChars Js.isWordChar p = true) (Js.splitNonWord s).
Proof.
  induction s as [|c s IH]; [repeat constructor|].
  destruct (Js.isWordChar c) eqn:W.
  - rewrite splitNonWord_cons_word by exact W.
    destruct (Js.splitNonWord s) as [|h t] eqn:E;
      [destruct (splitNonWord_nonempty _ E)|].
    inversion IH; subst. constructor; [|assumption].
    simpl. rewrite allChars_cons, W. assumption.
  - destruct s as [|d s].
    + rewrite splitNonWord_last_sep by exact W. repeat constructor.
    + rewrite splitNonWord_cons_other by exact W.
      destruct (Js.isWordChar d); [constructor; [reflexivity|]|]; exact IH.
Qed.

Lemma allChars_lower p :
  allChars Js.isWordChar p = true ->
  allChars isTermChar (Js.toLowerCase p) = true.
Proof.
  induction p as [|c p IH]; [reflexivity|].
  simpl Js.toLowerCase. rewrite !allChars_cons.
  intros H. apply andb_true_iff in H. destruct H as [H1 H2].
  rewrite isTermChar_lowerChar by exact H1. apply IH, H2.
Qed.

(** A term is a lower-cased piece of the split, of two characters or
    more. *)
Lemma extractTerms_piece (text t : string) :
  In t (extractTerms text) ->
  exists p, t = Js.toLowerCase p /\ In p (Js.splitNonWord text)
            /\ 2 <= String.length p.
Proof.
  unfold extractTerms. intros H. apply in_map_iff in H.
  destruct H as [p [<- Hp]]. apply filter_In in Hp. destruct Hp as [Hin Hl].
  exists p. split; [reflexivity|]. split; [exact Hin | apply Nat.leb_le, Hl].
Qed.

(** The terms of a query are long enough and in lower case. *)
Lemma extractTerms_chars (text t : string) :
  In t (extractTerms text) ->
  2 <= String.length t /\ allChars isTermChar t = true.
Proof.
  intros H. destruct (extractTerms_piece _ _ H) as [p [-> [Hin Hl]]].
  rewrite toLowerCase_length. split; [exact Hl|].
  apply allChars_lower.
  exact (proj1 (Forall_forall _ _) (splitNonWord_pieces text) p Hin).
Qed.

(** X8. Every term that [extractTerms] returns has at least two
    characters, all of them lower-case letters, digits or underscores. *)
Theorem extractTerms_shape (text t : string) :
  In t (extractTerms text) ->
  2 <= String.length t /\ allChars isTermChar t = true.
Proof.
  unfold extractTerms. intros H. apply in_map_iff in H.
  destruct H as [p [<- Hp]]. apply filter_In in Hp. destruct Hp as [Hin Hl].
  rewrite toLowerCase_length. split; [apply Nat.leb_le, Hl|].
  apply allChars_lower.
  exact (proj1 (Forall_forall _ _) (splitNonWord_pieces text) p Hin).
Qed.

Lemma toLowerCase_term t : allChars isTermChar t = true -> Js.toLowerCase t = t.
Proof.
  induction t as [|c t IH]; [reflexivity|].
  rewrite allChars_cons. intros H. apply andb_true_iff in H.
  destruct H as [H1 H2]. simpl. rewrite lowerChar_termChar, IH; auto.
Qed.

Lemma splitNonWord_term t :
  allChars isTermChar t = true -> Js.splitNonWord t = [t].
Proof.
  induction t as [|c t IH]; [reflexivity|].
  rewrite allChars_cons. intros H. apply andb_true_iff in H.
  destruct H as [H1 H2].
  rewrite splitNonWord_cons_word by (apply isTermChar_word, H1).
  rewrite IH by exact H2. reflexivity.
Qed.

(** A term is its own and only term. *)
Lemma extractTerms_term t :
  2 <= String.length t -> allChars isTermChar t = true ->
  extractTerms t = [t].
Proof.
  intros Hl Ht. unfold extractTerms. rewrite splitNonWord_term by exact Ht.
  cbn [filter]. apply Nat.leb_le in Hl. rewrite Hl. cbn [map].
  rewrite toLowerCase_term by exact Ht. reflexivity.
Qed.

(** X9. What is searched of an entry whose texts have no character above
    U+00FF (the strings of this development): the terms of its searchable
    text are the terms of its message, of its level, of its source file
    path and of its raw line, in this order. On these strings lower-casing
    maps word characters to word characters and the others to others, so
    that lower-casing before or after the split gives the same terms. (A
    character above U+00FF can become a word character when lower-cased,
    as the Kelvin sign U+212A does.) *)
Theorem searchable_terms (e : Entry) :
  extractTerms (getSearchableText e)
  = extractTerms (message e) ++ extractTerms (levelText (level e))
    ++ extractTerms (sourceFile e) ++ extractTerms (raw e).
Proof.
  unfold getSearchableText. rewrite extractTerms_lower.
  cbn [Js.join append].
  rewrite !extractTerms_app by reflexivity. reflexivity.
Qed.

(** X10. An entry is found by each of its own terms, in any letter case:
    when the lower-cased query is a term of the [i]-th indexed entry,
    position [i] is among the results of the text search. *)
Theorem finds_own_terms (now : Z) (st0 : Engine) (E : list Entry) (i : nat)
  (e : Entry) (q : string) :
  nth_error E i = Some e ->
  In (Js.toLowerCase q) (extractTerms (getSearchableText e)) ->
  In i (performTextSearch (indexEntries now st0 E) q).
Proof.
  intros Hn Ht.
  destruct (extractTerms_chars _ _ Ht) as [Hl Hc].
  assert (extractTerms (Js.toLowerCase q) = [Js.toLowerCase q]) as Hq
      by (apply extractTerms_term; assumption).
  apply In_performTextSearch; [rewrite Hq; discriminate|].
  exists (Js.toLowerCase q). rewrite Hq. split; [left; reflexivity|].
  exists (Js.toLowerCase q). split; [apply includes_refl|].
  apply posted_indexEntries. eauto.
Qed.


(** ** The shape of the index *)

Lemma keys_addPosting term index m :
  keys (addPosting term index m)
  = if existsb (String.eqb term) (keys m) then keys m else keys m ++ [term].
Proof.
  induction m as [|[k s] m IH]; simpl; [reflexivity|].
  rewrite (String.eqb_sym term k).
  destruct (String.eqb_spec k term) as [-> | N]; simpl; [reflexivity|].
  rewrite IH. destruct (existsb (String.eqb term) (keys m)); reflexivity.
Qed.

Lemma NoDup_keys_addPosting term index m :
  NoDup (keys m) -> NoDup (keys (addPosting term index m)).
Proof.
  intros H. rewrite keys_addPosting.
  destruct (existsb (String.eqb term) (keys m)) eqn:E; [exact H|].
  apply NoDup_app; [exact H | repeat constructor; simpl; tauto|].
  intros a Ha [<- | []].
  assert (existsb (String.eqb term) (keys m) = true) as C; [|congruence].
  apply existsb_exists. exists term. split; [exact Ha | apply String.eqb_refl].
Qed.

Lemma StronglySorted_snoc (s : list nat) (i : nat) :
  StronglySorted lt s -> (forall j, In j s -> j < i) ->
  StronglySorted lt (s ++ [i]).
Proof.
  intros S H. induction S as [|a l S IH F]; simpl.
  - repeat constructor.
  - constructor.
    + apply IH. intros j Hj. apply H. right. exact Hj.
    + apply Forall_app. split; [exact F|].
      constructor; [apply H; left; reflexivity | constructor].
Qed.

Lemma setAdd_ascending s i :
  StronglySorted lt s -> (forall j, In j s -> j <= i) ->
  setAdd s i <> [] /\ StronglySorted lt (setAdd s i)
  /\ (forall j, In j (setAdd s i) -> j <= i).
Proof.
  intros S B. unfold setAdd.
  destruct (existsb (Nat.eqb i) s) eqn:E.
  - split; [|split; assumption].
    apply existsb_exists in E. destruct E as [x [Hx _]].
    destruct s; [destruct Hx | discriminate].
  - split; [destruct s; discriminate|]. split.
    + apply StronglySorted_snoc; [exact S|]. intros j Hj.
      assert (j <> i); [|specialize (B j Hj); lia].
      intros ->.
      assert (existsb (Nat.eqb i) s = true) as C; [|congruence].
      apply existsb_exists. exists i. split; [exact Hj | apply Nat.eqb_refl].
    + intros j Hj. apply in_app_iff in Hj. destruct Hj as [Hj | [<- | []]];
        [apply B, Hj | lia].
Qed.

Lemma ascendingTo_addPosting term b m :
  ascendingTo b m -> ascendingTo b (addPosting term b m).
Proof.
  unfold ascendingTo. induction m as [|[k s] m IH]; intros H t s' Hin; simpl in Hin.
  - destruct Hin as [[= <- <-] | []].
    split; [discriminate|]. split; [repeat constructor|].
    intros i [<- | []]. lia.
  - destruct (String.eqb k term).
    + destruct Hin as [[= <- <-] | Hin].
      * destruct (H k s (or_introl eq_refl)) as [_ [S B]].
        apply setAdd_ascending; assumption.
      * apply (H t s'). right. exact Hin.
    + destruct Hin as [[= <- <-] | Hin].
      * apply (H k s). left. reflexivity.
      * refine (IH _ t s' Hin). intros t0 s0 H0. apply (H t0 s0). right.
        exact H0.
Qed.

Lemma ascendingTo_le b b' m : b <= b' -> ascendingTo b m -> ascendingTo b' m.
Proof.
  intros L H t s Hin. destruct (H t s Hin) as [N [S B]].
  split; [exact N|]. split; [exact S|]. intros i Hi. specialize (B i Hi). lia.
Qed.

Lemma indexEntry_shape e index : forall m,
  NoDup (keys m) -> ascendingTo index m ->
  NoDup (keys (indexEntry m e index)) /\ ascendingTo index (indexEntry m e index).
Proof.
  unfold indexEntry.
  induction (extractTerms (getSearchableText e)) as [|term terms IH];
    intros m N A; simpl; [split; assumption|].
  rewrite indexTerm_addPosting. apply IH.
  - apply NoDup_keys_addPosting, N.
  - apply ascendingTo_addPosting, A.
Qed.

Lemma indexFrom_shape : forall es k m,
  NoDup (keys m) -> ascendingTo k m ->
  NoDup (keys (indexFrom k es m))
  /\ ascendingTo (k + List.length es) (indexFrom k es m).
Proof.
  induction es as [|e es IH]; intros k m N A; simpl.
  - rewrite Nat.add_0_r. split; assumption.
  - destruct (@indexEntry_shape e k m N A) as [N' A'].
    replace (k + S (List.length es)) with (S k + List.length es) by lia.
    apply IH; [exact N'|]. apply (ascendingTo_le (b := k)); [lia | exact A'].
Qed.

Lemma keys_posted (m : TermMap) t :
  (forall s, In (t, s) m -> s <> []) ->
  (In t (keys m) <-> exists i, posted m t i).
Proof.
  intros H. unfold keys, posted. rewrite in_map_iff. split.
  - intros [[t' s] [E Hin]]. simpl in E. subst t'.
    specialize (H s Hin). destruct s as [|i s]; [congruence|].
    exists i, (i :: s). split; [exact Hin | left; reflexivity].
  - intros [i [s [Hin _]]]. exists (t, s). auto.
Qed.

Lemma In_allTerms es t :
  In t (allTerms es)
  <-> exists i e, nth_error es i = Some e
                  /\ In t (extractTerms (getSearchableText e)).
Proof.
  unfold allTerms. rewrite in_flat_map. split.
  - intros [e [He Ht]]. apply In_nth_error in He. destruct He as [i Hi].
    eauto.
  - intros [i [e [Hi Ht]]]. exists e. split; [|exact Ht].
    eapply nth_error_In, Hi.
Qed.

Lemma indexed_keys (now : Z) (st0 : Engine) (E : list Entry) :
  let m := indexedTerms (indexEntries now st0 E) in
  NoDup (keys m)
  /\ (forall t, In t (keys m) <-> In t (allTerms E))
  /\ ascendingTo (List.length E) m.
Proof.
  simpl.
  assert (NoDup (keys ([] : TermMap))) as N0 by constructor.
  assert (ascendingTo 0 ([] : TermMap)) as A0 by (intros t s []).
  destruct (@indexFrom_shape E 0 [] N0 A0) as [N A].
  split; [exact N | split; [|exact A]].
  intros t. rewrite keys_posted by (intros s Hs; apply (A t s Hs)).
  rewrite In_allTerms. split.
  - intros [i Hp].
    apply (proj1 (posted_indexEntries now st0 E t i)) in Hp.
    destruct Hp as [e He]. eauto.
  - intros [i [e He]]. exists i.
    apply (proj2 (posted_indexEntries now st0 E t i)). eauto.
Qed.

(** X11. The shape of the index after [indexEntries]: every term of an
    entry is a key and every key is a term of an entry, no key occurs
    twice, and the positions under a key are not empty and strictly
    ascending. *)
Theorem index_shape (now : Z) (st0 : Engine) (E : list Entry) :
  let m := indexedTerms (indexEntries now st0 E) in
  NoDup (keys m)
  /\ (forall t, In t (keys m) <-> In t (allTerms E))
  /\ (forall t s, In (t, s) m -> s <> [] /\ StronglySorted lt s).
Proof.
  destruct (indexed_keys now st0 E) as [N [K A]].
  split; [exact N | split; [exact K|]].
  intros t s Hin. destruct (A t s Hin) as [H1 [H2 _]]. auto.
Qed.

(** ** Statistics *)

Lemma fold_left_pair {A B C : Type} (f : A -> C -> A) (g : B -> C -> B) :
  forall l a b,
    fold_left (fun (acc : A * B) x => (f (fst acc) x, g (snd acc) x)) l (a, b)
    = (fold_left f l a, fold_left g l b).
Proof. induction l as [|x l IH]; intros a b; simpl; [reflexivity | apply IH]. Qed.

Lemma assoc_setProperty k c : forall k' v,
  assoc k (setProperty c k' v)
  = if String.eqb k' k then Some v else assoc k c.
Proof.
  induction c as [|[k0 v0] c IH]; intros k' v; simpl.
  - reflexivity.
  - destruct (String.eqb_spec k0 k') as [-> | N]; simpl.
    + destruct (String.eqb k' k); reflexivity.
    + rewrite IH. destruct (String.eqb_spec k0 k) as [-> | N2];
        [|reflexivity].
      destruct (String.eqb_spec k' k); [congruence | reflexivity].
Qed.

Section Counting.
Variable keyOf : Entry -> string.
Variable k : string.
Hypothesis plain : inheritedMember k = None.

Lemma countUp_plain c key n :
  assoc k c = counted n ->
  assoc k (countUp c key)
  = counted (if String.eqb key k then S n else n).
Proof.
  intros H. unfold countUp.
  destruct (String.eqb_spec key "__proto__") as [-> | P].
  - destruct (String.eqb_spec "__proto__" k) as [<- | _]; [|exact H].
    discriminate plain.
  - rewrite assoc_setProperty.
    destruct (String.eqb_spec key k) as [-> | N]; [|exact H].
    unfold bumped. rewrite H, plain. unfold counted.
    destruct n as [|n]; simpl Nat.eqb; cbv iota.
    + reflexivity.
    + replace (Z.of_nat (S n) =? 0)%Z with false
        by (symmetry; apply Z.eqb_neq; lia).
      do 2 f_equal. lia.
Qed.

Lemma count_fold : forall es c n,
  assoc k c = counted n ->
  assoc k (fold_left (fun c e => countUp c (keyOf e)) es c)
  = counted (n + countIf (fun e => String.eqb (keyOf e) k) es).
Proof.
  unfold countIf.
  induction es as [|e es IH]; intros c n H; simpl.
  - rewrite Nat.add_0_r. exact H.
  - rewrite (IH _ _ (@countUp_plain c (keyOf e) n H)).
    destruct (String.eqb (keyOf e) k); simpl; f_equal; lia.
Qed.

End Counting.

(** X12. The statistics of an index: [totalEntries] is the number of
    entries, [totalTerms] the number of different terms of all entries,
    and for a key that is no member of [Object.prototype] the level and
    source-file counters hold the number of entries with that level, or
    that file name (absent when there is none). *)
Theorem getIndexStats_counts (now : Z) (st0 : Engine) (E : list Entry)
  (k : string) :
  inheritedMember k = None ->
  let stats := getIndexStats (indexEntries now st0 E) in
  totalEntries stats = List.length E
  /\ totalTerms stats = List.length (nodup string_dec (allTerms E))
  /\ assoc k (levelCounts stats)
     = counted (countIf (fun e => String.eqb (levelText (level e)) k) E)
  /\ assoc k (sourceFileCounts stats)
     = counted (countIf (fun e => String.eqb (fileKey e) k) E).
Proof.
  intros P. unfold getIndexStats.
  change (entries (indexEntries now st0 E)) with E.
  rewrite (fold_left_pair (fun c e => countUp c (levelText (level e)))
             (fun c e => countUp c (fileKey e))).
  cbn [totalEntries totalTerms levelCounts sourceFileCounts].
  split; [reflexivity|]. split.
  - destruct (indexed_keys now st0 E) as [N [K _]].
    unfold keys in *. rewrite <- (length_map fst).
    apply Permutation_length, NoDup_Permutation;
      [exact N | apply NoDup_nodup|].
    intros t. rewrite nodup_In. apply K.
  - split.
    + exact (@count_fold (fun e => levelText (level e)) k P E [] 0 eq_refl).
    + exact (@count_fold fileKey k P E [] 0 eq_refl).
Qed.

Lemma truthy_app_one s : Js.truthy (s ++ "1") = true.
Proof. destruct s; reflexivity. Qed.

(** X13. A level or file name that is spelled like a member of
    [Object.prototype] (such as [constructor]) is never counted as a
    number: its counter is absent or a string. *)
Theorem inherited_key_not_counted (st : Engine) (k text : string) (n : Z) :
  inheritedMember k = Some text ->
  assoc k (levelCounts (getIndexStats st)) <> Some (CNum n)
  /\ assoc k (sourceFileCounts (getIndexStats st)) <> Some (CNum n).
Proof.
  intros P. unfold getIndexStats.
  rewrite (fold_left_pair (fun c e => countUp c (levelText (level e)))
             (fun c e => countUp c (fileKey e))).
  cbn [levelCounts sourceFileCounts].
  assert (forall (keyOf : Entry -> string) es c,
            (assoc k c = None
             \/ exists s, Js.truthy s = true /\ assoc k c = Some (CStr s)) ->
            assoc k (fold_left (fun c e => countUp c (keyOf e)) es c)
            <> Some (CNum n)) as F.
  { intros keyOf es. induction es as [|e es IH]; intros c H; simpl.
    - destruct H as [-> | [s [_ ->]]]; discriminate.
    - apply IH. unfold countUp.
      destruct (String.eqb (keyOf e) "__proto__"); [exact H|].
      rewrite assoc_setProperty.
      destruct (String.eqb_spec (keyOf e) k) as [-> | N]; [|exact H].
      right. unfold bumped.
      destruct H as [-> | [s [T ->]]].
      + rewrite P. eexists. split; [apply truthy_app_one | reflexivity].
      + rewrite T. eexists. split; [apply truthy_app_one | reflexivity]. }
  split; apply F; left; reflexivity.
Qed.

(** ** The order of the results *)

Section SortedResults.
Context {rt : JsRuntime}.

Lemma In_candidates st q e :
  In (Some e) (candidates st q) -> In e (entries st).
Proof.
  unfold candidates.
  destruct (Js.truthy q && Js.truthy (Js.trim q)); intros H;
    apply in_map_iff in H; destruct H as [x [Hx Hin]].
  - eapply nth_error_In, Hx.
  - inversion Hx; subst. exact Hin.
Qed.

Lemma In_defined (l : list (option Entry)) e :
  In e (defined l) <-> In (Some e) l.
Proof.
  induction l as [|[x|] l IH]; simpl.
  - tauto.
  - rewrite IH. split; intros [H | H]; auto; left; congruence.
  - rewrite IH. split; [auto | intros [H | H]; [discriminate | exact H]].
Qed.

Lemma In_matched st q o e :
  In e (matched st q o)
  <-> In (Some e) (candidates st q) /\ passes (filtersOf o) e = true.
Proof. unfold matched. rewrite filter_In, In_defined. reflexivity. Qed.

Variable cmp : Entry -> Entry -> option Z.
Variable P : Entry -> Prop.
Hypothesis total :
  forall x y, P x -> P y -> notAfter cmp x y = false -> notAfter cmp y x = true.
Hypothesis trans :
  forall x y z, P x -> P y -> P z ->
    notAfter cmp x y = true -> notAfter cmp y z = true ->
    notAfter cmp x z = true.

Lemma insertSorted_sorted x l :
  P x -> Forall P l ->
  StronglySorted (fun a b => notAfter cmp a b = true) l ->
  StronglySorted (fun a b => notAfter cmp a b = true) (insertSorted cmp x l).
Proof.
  intros Px. induction l as [|y l IH]; intros F S; simpl.
  - repeat constructor.
  - inversion S as [|? ? S' Fy]; subst. inversion F as [|? ? Py Fl]; subst.
    destruct (notAfter cmp x y) eqn:E.
    + constructor; [exact S|]. constructor; [exact E|].
      apply Forall_forall. intros z Hz.
      apply (trans Px Py (proj1 (Forall_forall _ _) Fl z Hz) E).
      exact (proj1 (Forall_forall _ _) Fy z Hz).
    + constructor; [apply IH; assumption|].
      apply (Permutation_Forall (Permutation_sym (insertSorted_perm cmp x l))).
      constructor; [apply total; assumption | exact Fy].
Qed.

Lemma stableSort_sorted l :
  Forall P l ->
  StronglySorted (fun a b => notAfter cmp a b = true) (stableSort cmp l).
Proof.
  induction l as [|x l IH]; intros F; simpl; [constructor|].
  inversion F; subst. apply insertSorted_sorted; [assumption | | auto].
  apply (Permutation_Forall (Permutation_sym (stableSort_perm cmp l))).
  assumption.
Qed.

End SortedResults.

Section NumericOrder.
Context {rt : JsRuntime}.

Lemma compare_numeric sortBy m a b ka kb :
  numericKey sortBy a = Some ka -> numericKey sortBy b = Some kb ->
  compareEntries sortBy m a b = Some ((ka - kb) * m)%Z.
Proof.
  unfold numericKey, compareEntries, getField.
  repeat match goal with
         | |- context [if (?x =? ?y)%string then _ else _] =>
             destruct (x =? y)%string
         end;
    try discriminate;
    try (destruct (level a); discriminate);
    try (destruct (timestamp a), (timestamp b); try discriminate;
         intros [= ->] [= ->]; reflexivity);
    try (intros [= ->] [= ->]; reflexivity).
  destruct (inheritedMember sortBy); discriminate.
Qed.

(** A difference of numbers, in either direction, is a consistent
    comparator. *)
Lemma consistent_numeric sortBy m l :
  (m = 1 \/ m = -1)%Z ->
  Forall (fun e => numericKey sortBy e <> None) l ->
  consistent (compareEntries sortBy m) l = true.
Proof.
  intros Hm F. rewrite Forall_forall in F. unfold consistent.
  apply forallb_forall. intros a Ha. apply forallb_forall. intros b Hb.
  apply forallb_forall. intros c Hc.
  destruct (numericKey sortBy a) as [ka|] eqn:Ka; [|destruct (F a Ha Ka)].
  destruct (numericKey sortBy b) as [kb|] eqn:Kb; [|destruct (F b Hb Kb)].
  destruct (numericKey sortBy c) as [kc|] eqn:Kc; [|destruct (F c Hc Kc)].
  unfold consistentAt, cmpIs.
  rewrite (compare_numeric _ m _ _ Ka Kb), (compare_numeric _ m _ _ Ka Ka),
    (compare_numeric _ m _ _ Kb Ka), (compare_numeric _ m _ _ Kb Kc),
    (compare_numeric _ m _ _ Ka Kc).
  destruct Hm; subst m;
    repeat match goal with
           | |- context [(?x ?= 0)%Z] => destruct (Z.compare_spec x 0)
           end; simpl; try reflexivity; lia.
Qed.

(** X14. Sorting by a numeric field: when the field asked for holds a
    number or a valid date in every stored entry ([timestamp],
    [lineNumber]), the results come in that order, descending for [desc]
    and ascending for any other sort order. *)
Theorem results_in_order (ops : list EngineOp) (q : string) (o : Options) :
  (forall e, In e (entries (runEngine ops)) ->
             numericKey (opt_sortBy o) e <> None) ->
  exists sorted,
    searchResults (runEngine ops) q o = Ok (map Some sorted)
    /\ StronglySorted (inOrder (opt_sortBy o) (opt_sortOrder o)) sorted.
Proof.
  intros H. set (st := runEngine ops) in *.
  assert (inBounds st) as Hb by apply inBounds_steps, inBounds_newEngine.
  eexists. split; [apply (searchResults_defined Hb)|].
  set (m := if (opt_sortOrder o =? "desc")%string then (-1)%Z else 1%Z).
  assert (Forall (fun e => numericKey (opt_sortBy o) e <> None)
            (matched st q o)) as F.
  { apply Forall_forall. intros e He. apply In_matched in He.
    apply H, (In_candidates st q), He. }
  unfold comparatorOf. fold m.
  rewrite Array_sort_consistent
    by (apply consistent_numeric;
        [unfold m; destruct (opt_sortOrder o =? "desc")%string; auto
        | exact F]).
  eapply StronglySorted_weaken;
    [|apply (@stableSort_sorted (compareEntries (opt_sortBy o) m)
               (fun e => numericKey (opt_sortBy o) e <> None));
      [| |exact F]].
  - intros a b Hab ka kb Ka Kb. unfold notAfter in Hab.
    rewrite (compare_numeric _ _ _ _ Ka Kb) in Hab.
    apply Z.leb_le in Hab. unfold m in Hab.
    destruct (opt_sortOrder o =? "desc")%string; lia.
  - intros x y Px Py.
    destruct (numericKey (opt_sortBy o) x) as [kx|] eqn:Kx; [|congruence].
    destruct (numericKey (opt_sortBy o) y) as [ky|] eqn:Ky; [|congruence].
    unfold notAfter.
    rewrite (compare_numeric _ _ _ _ Kx Ky), (compare_numeric _ _ _ _ Ky Kx).
    intros L. apply Z.leb_gt in L. apply Z.leb_le.
    unfold m in *. destruct (opt_sortOrder o =? "desc")%string; lia.
  - intros x y z Px Py Pz.
    destruct (numericKey (opt_sortBy o) x) as [kx|] eqn:Kx; [|congruence].
    destruct (numericKey (opt_sortBy o) y) as [ky|] eqn:Ky; [|congruence].
    destruct (numericKey (opt_sortBy o) z) as [kz|] eqn:Kz; [|congruence].
    unfold notAfter.
    rewrite (compare_numeric _ _ _ _ Kx Ky), (compare_numeric _ _ _ _ Ky Kz),
      (compare_numeric _ _ _ _ Kx Kz).
    intros L1 L2. apply Z.leb_le in L1, L2. apply Z.leb_le.
    unfold m in *. destruct (opt_sortOrder o =? "desc")%string; lia.
Qed.

End NumericOrder.

(** ** Pages *)

Lemma chunk_length {A : Type} ps (l : list A) k :
  List.length (chunk ps l k) = Nat.min ps (List.length l - k * ps).
Proof. unfold chunk. rewrite length_firstn, length_skipn. reflexivity. Qed.

Lemma slice_0_0 {A : Type} (l : list A) : Js.slice l 0 0 = [].
Proof.
  unfold Js.slice. change (0 <? 0)%Z with false. cbv iota.
  match goal with
  | |- firstn ?n _ = [] => replace n with 0 by lia
  end.
  reflexivity.
Qed.

Section PageFlags.
Context {rt : JsRuntime}.

(** X15. The page flags are exact: for a page size and a page number of
    at least 1, a page never has more entries than the page size,
    [hasNextPage] holds exactly when the next page has an entry, in which
    case this page is full, and [hasPreviousPage] holds exactly from page
    2 on. *)
Theorem page_flags (ops : list EngineOp) (q : string) (o : Options)
  (page : Z) :
  (1 <= opt_pageSize o)%Z -> (1 <= page)%Z ->
  exists r,
    search (runEngine ops) q (setPage page o) = Ok r
    /\ (Z.of_nat (List.length (res_entries r)) <= opt_pageSize o)%Z
    /\ (hasNextPage (pagination r) = true
        <-> pageEntries (runEngine ops) q o (page + 1) <> [])
    /\ (hasNextPage (pagination r) = true ->
        Z.of_nat (List.length (res_entries r)) = opt_pageSize o)
    /\ (hasPreviousPage (pagination r) = true <-> (1 < page)%Z).
Proof.
  intros Hs Hp. set (st := runEngine ops).
  assert (inBounds st) as Hb by apply inBounds_steps, inBounds_newEngine.
  pose proof (searchResults_defined Hb q o) as HR.
  set (R := map Some _) in HR.
  eexists. split; [apply (search_page HR)|]. simpl.
  rewrite slice_page by assumption.
  rewrite (@pageEntries_chunk _ st q o R HR Hs (page + 1)) by lia.
  rewrite ceilDiv_pageCount by exact Hs. simpl ltNum.
  pose proof (@pageCount_spec (Z.of_nat (List.length R)) _ Hs) as PC.
  set (n := pageCount (Z.of_nat (List.length R)) (opt_pageSize o)) in *.
  rewrite chunk_length.
  replace (Z.to_nat (page + 1 - 1)) with (Z.to_nat page) by lia.
  assert ((page <? n)%Z = true <-> (page * opt_pageSize o < Z.of_nat (List.length R))%Z)
    as Hnext.
  { rewrite Z.ltb_lt. split; intros; nia. }
  assert (chunk (Z.to_nat (opt_pageSize o)) R (Z.to_nat page) <> []
          <-> (page * opt_pageSize o < Z.of_nat (List.length R))%Z) as Hne.
  { rewrite <- length_zero_iff_nil, chunk_length.
    assert (0 <= page * opt_pageSize o)%Z by nia.
    replace (Z.to_nat page * Z.to_nat (opt_pageSize o))
      with (Z.to_nat (page * opt_pageSize o))
      by (rewrite Z2Nat.inj_mul; lia).
    split; intros; lia. }
  split; [lia|]. split; [rewrite Hnext, Hne; reflexivity|].
  split.
  - intros H. apply Hnext in H.
    assert ((page - 1) * opt_pageSize o + opt_pageSize o
            <= Z.of_nat (List.length R))%Z by nia.
    assert (0 <= (page - 1) * opt_pageSize o)%Z by nia.
    replace (Z.to_nat (page - 1) * Z.to_nat (opt_pageSize o))
      with (Z.to_nat ((page - 1) * opt_pageSize o))
      by (rewrite Z2Nat.inj_mul; lia).
    lia.
  - apply Z.ltb_lt.
Qed.

(** X16. A page size of 0 is not refused: every page is then empty, and
    [totalPages] is not a number: Infinity with [hasNextPage] when there
    are results, NaN without [hasNextPage] when there are none. *)
Theorem zero_page_size (ops : list EngineOp) (q : string) (o : Options) :
  opt_pageSize o = 0%Z ->
  exists r,
    search (runEngine ops) q o = Ok r
    /\ res_entries r = []
    /\ (totalCount (pagination r) = 0%Z ->
        totalPages (pagination r) = JNaN
        /\ hasNextPage (pagination r) = false)
    /\ (totalCount (pagination r) <> 0%Z ->
        totalPages (pagination r) = JInfinity
        /\ hasNextPage (pagination r) = true).
Proof.
  intros Hz. set (st := runEngine ops).
  assert (inBounds st) as Hb by apply inBounds_steps, inBounds_newEngine.
  pose proof (searchResults_defined Hb q o) as HR.
  set (R := map Some _) in HR.
  pose proof (search_page HR (opt_page o)) as HS. rewrite setPage_same in HS.
  eexists. split; [exact HS|]. simpl. rewrite Hz.
  split.
  - rewrite Z.mul_0_r.
    replace (Z.min (0 + 0) (Z.of_nat (List.length R))) with 0%Z by lia.
    apply slice_0_0.
  - unfold ceilDiv. simpl.
    split; intros H.
    + rewrite H. split; reflexivity.
    + apply Z.eqb_neq in H. rewrite H. split; reflexivity.
Qed.

End PageFlags.

(** ** Filters *)

Section FilterSemantics.
Context {rt : JsRuntime}.

Lemma dateLt_false_le a b :
  dateLt (Some a) (Some b) = false <-> (b <= a)%Z.
Proof. simpl. rewrite Z.ltb_ge. reflexivity. Qed.

Lemma truthy_ne s : Js.truthy s = true <-> s <> "".
Proof. destruct s; simpl; split; congruence. Qed.

Lemma passes_meaning o e :
  passes (filtersOf o) e = true <-> hasLevel o e /\ withinDates o e.
Proof.
  rewrite passes_and. unfold hasLevel, withinDates. simpl.
  split.
  - intros [L [S E]]. split; [|split].
    + intros lv H N. apply (L lv H), truthy_ne, N.
    + intros sd lo t H N D T.
      specialize (S sd H (proj2 (truthy_ne sd) N)).
      rewrite D, T in S. apply dateLt_false_le, S.
    + intros ed hi t H N D T.
      specialize (E ed H (proj2 (truthy_ne ed) N)).
      rewrite D, T in E. apply dateLt_false_le, E.
  - intros [L [S E]]. split; [|split].
    + intros lv H T. apply (L lv H), truthy_ne, T.
    + intros sd H T.
      destruct (Date_of_string sd) as [lo|] eqn:D;
        destruct (timestamp e) as [t|] eqn:Ts; try reflexivity.
      apply dateLt_false_le. apply (S sd lo t H); auto. apply truthy_ne, T.
    + intros ed H T.
      destruct (Date_of_string ed) as [hi|] eqn:D;
        destruct (timestamp e) as [t|] eqn:Ts; try reflexivity.
      apply dateLt_false_le. apply (E ed hi t H); auto. apply truthy_ne, T.
Qed.

(** X17. What the filters keep: the results of a query are exactly the
    candidates of the text search that have the level asked for and lie
    within the date bounds, bounds included. An empty filter value, a
    bound that does not parse and an entry with an invalid timestamp
    restrict nothing. *)
Theorem filters_exact (ops : list EngineOp) (q : string) (o : Options) :
  exists results,
    searchResults (runEngine ops) q o = Ok results
    /\ forall x,
         In x results
         <-> exists e, x = Some e
               /\ In (Some e) (candidates (runEngine ops) q)
               /\ hasLevel o e /\ withinDates o e.
Proof.
  set (st := runEngine ops).
  assert (inBounds st) as Hb by apply inBounds_steps, inBounds_newEngine.
  eexists. split; [apply (searchResults_defined Hb)|].
  intros x. rewrite in_map_iff. split.
  - intros [e [<- He]]. exists e. split; [reflexivity|].
    apply (Permutation_in _ (Array_sort_perm _ _)) in He.
    apply In_matched in He. rewrite passes_meaning in He. tauto.
  - intros [e [-> [Hc Hp]]]. exists e. split; [reflexivity|].
    apply (Permutation_in _ (Permutation_sym (Array_sort_perm _ _))).
    apply In_matched. rewrite passes_meaning. tauto.
Qed.

Lemma keepsEntry_common f e : keepsEntry (commonFilters f) e = passes f e.
Proof.
  unfold keepsEntry, passes, commonFilters. simpl.
  repeat match goal with
         | |- context [if ?b then false else _] => destruct b; simpl
         end; reflexivity.
Qed.

(** X18. The two filter functions agree: on the level and date filters,
    without source file and search filter, [filterLogEntries] of the
    parser module keeps exactly the entries that [applyFilters] of the
    search engine keeps, in the same order. *)
Theorem filterLogEntries_agrees (es : list Entry) (f : Filters) :
  applyFilters (map Some es) f
  = Ok (map Some (filterLogEntries es (commonFilters f))).
Proof.
  rewrite applyFilters_Some. unfold filterLogEntries.
  do 2 f_equal. apply filter_ext. intros e. symmetry. apply keepsEntry_common.
Qed.

(** X19. [filterLogEntries] keeps the entries in their order and every
    entry it keeps meets the source-file and search filters: its source
    file path contains the value asked for, and its message contains the
    search text, compared in lower case. *)
Theorem filterLogEntries_sound (es : list Entry) (f : EntryFilters)
  (e : Entry) :
  In e (filterLogEntries es f) ->
  In e es
  /\ (forall sf, ef_sourceFile f = Some sf -> sf <> "" ->
        Js.includes (sourceFile e) sf = true)
  /\ (forall text, ef_search f = Some text -> text <> "" ->
        Js.includes (Js.toLowerCase (message e)) (Js.toLowerCase text) = true).
Proof.
  unfold filterLogEntries. rewrite filter_In. intros [Hin Hk].
  split; [exact Hin|]. unfold keepsEntry in Hk.
  repeat match type of Hk with
         | (if ?b then false else _) = true =>
             destruct b eqn:?; [discriminate|]
         end.
  split.
  - intros sf Hsf N. rewrite Hsf in *. unfold optTruthy in *.
    rewrite (proj2 (truthy_ne sf) N) in *. simpl in *.
    match goal with
    | H : negb _ = false |- _ => apply negb_false_iff in H; exact H
    end.
  - intros text Ht N. rewrite Ht in Hk.
    rewrite (proj2 (truthy_ne text) N) in Hk. exact Hk.
Qed.

End FilterSemantics.

(** ** Loading and the entry route *)

Section Loading.
Context {rt : JsRuntime}.

Lemma parseLogContent_entries clock content path :
  exists es,
    parseLogContent clock content path = Ok es
    /\ List.length es = List.length (nonEmptyLines content)
    /\ Forall (fun e => sourceFile e = path) es.
Proof.
  destruct (parseLines_total clock path (nonEmptyLines content) 0)
    as [es [Hes [Hlen Hnth]]].
  exists es. split; [|split; [exact Hlen|]].
  - unfold parseLogContent. destruct content; [|exact Hes].
    destruct es; [reflexivity | discriminate Hlen].
  - apply Forall_forall. intros e He. apply In_nth_error in He.
    destruct He as [k Hk].
    assert (k < List.length (nonEmptyLines content)) as Lk
        by (rewrite <- Hlen; apply nth_error_Some; congruence).
    destruct (nth_error (nonEmptyLines content) k) as [line|] eqn:N;
      [|apply nth_error_None in N; lia].
    destruct (Hnth k line N) as [e' [He' Hp]].
    assert (e' = e) by congruence. subst e'.
    destruct (parseLogLine_total (clock (0 + k + 1)) line path (0 + k + 1))
      as [e2 [He2 [_ [Hf _]]]].
    congruence.
Qed.

Lemma readAll_entries clock : forall files k,
  List.length (readAll clock k files) = list_sum (map linesOf files)
  /\ Forall (fun e => exists f, In f files /\ sourceFile e = file_path f)
       (readAll clock k files).
Proof.
  induction files as [|f files IH]; intros k; simpl.
  - split; constructor.
  - destruct (IH (S k)) as [IHl IHf].
    assert (Forall
              (fun e => exists f0, (f = f0 \/ In f0 files)
                                   /\ sourceFile e = file_path f0)
              (readAll clock (S k) files)) as IHf'.
    { eapply Forall_impl; [|exact IHf]. intros e [f0 [H1 H2]]. eauto. }
    unfold linesOf at 1. destruct (file_content f) as [text|err]; simpl.
    + destruct (parseLogContent_entries (clock k) text (file_path f))
        as [es [Hes [Hlen Hsrc]]].
      rewrite Hes. simpl. rewrite length_app, Hlen, IHl.
      split; [reflexivity|]. apply Forall_app. split; [|exact IHf'].
      eapply Forall_impl; [|exact Hsrc]. intros e He. exists f. auto.
    + split; [exact IHl | exact IHf'].
Qed.

(** X20. What a load indexes: one entry for each non-blank line of each
    file that could be read, each entry with the path of its file as
    source. The number of entries depends on nothing but the files: not on
    the clock, and not on what was loaded before. *)
Theorem loadLogs_entries (indexTime scanTime : Z) (clock : nat -> nat -> Z)
  (files : list LogFile) (s : ApiState) :
  let loaded := entries (searchEngine (loadLogs indexTime scanTime clock files s)) in
  List.length loaded = list_sum (map linesOf files)
  /\ Forall (fun e => exists f, In f files /\ sourceFile e = file_path f)
       loaded.
Proof. apply readAll_entries. Qed.

Lemma started_before_completion (evs : list ApiEvent) : forall sv,
  lastScanTime (sv_state (fold_left stepServer evs sv)) = None ->
  lastScanTime (sv_state sv) = None
  /\ sv_started (fold_left stepServer evs sv)
     = sv_started sv + countEvents isRequest evs.
Proof.
  unfold countEvents.
  induction evs as [|ev evs IH]; intros sv H; simpl in *.
  - split; [exact H | lia].
  - destruct (IH _ H) as [N S]. rewrite S. clear IH H S.
    destruct ev as [| | i t c files]; simpl in *.
    + unfold ensureLogsLoaded in *.
      destruct (lastScanTime (sv_state sv)) eqn:L; simpl in *.
      * rewrite L in N. discriminate N.
      * split; [reflexivity | lia].
    + split; [exact N | lia].
    + unfold completeLoad in *. destruct (sv_running sv); simpl in *.
      * split; [exact N | lia].
      * discriminate N.
Qed.

Lemma started_after_completion (more : list ApiEvent) : forall sv,
  lastScanTime (sv_state sv) <> None ->
  lastScanTime (sv_state (fold_left stepServer more sv)) <> None
  /\ sv_started (fold_left stepServer more sv)
     = sv_started sv + countEvents isRefresh more.
Proof.
  unfold countEvents.
  induction more as [|ev more IH]; intros sv H; simpl.
  - split; [exact H | lia].
  - assert (lastScanTime (sv_state (stepServer sv ev)) <> None
            /\ sv_started (stepServer sv ev)
               = sv_started sv + (if isRefresh ev then 1 else 0)) as [N S].
    { destruct ev as [| | i t c files]; simpl.
      - unfold ensureLogsLoaded.
        destruct (lastScanTime (sv_state sv)) eqn:L; [|congruence].
        rewrite L. split; [discriminate | lia].
      - split; [exact H | lia].
      - unfold completeLoad. destruct (sv_running sv); simpl.
        + split; [exact H | lia].
        + split; [discriminate | lia]. }
    destruct (IH _ N) as [N' S']. split; [exact N'|].
    rewrite S', S. destruct (isRefresh ev); simpl; lia.
Qed.

(** X21. Lazy loading is decided when a request arrives, not when a load
    completes. As long as no load has completed, every request starts a
    load of its own, so that requests overlapping the first load all load.
    Once a load has completed, a scan time stays recorded, and from then
    on only a refresh starts a load. *)
Theorem lazy_loading_overlaps (evs : list ApiEvent) :
  let sv := runServer evs in
  (lastScanTime (sv_state sv) = None ->
   sv_started sv = countEvents isRequest evs)
  /\ (lastScanTime (sv_state sv) <> None ->
      forall more,
        lastScanTime (sv_state (runServer (evs ++ more))) <> None
        /\ sv_started (runServer (evs ++ more))
           = sv_started sv + countEvents isRefresh more).
Proof.
  intros sv. split.
  - intros H. apply (started_before_completion evs newServer) in H.
    exact (proj2 H).
  - intros H more. unfold runServer. rewrite fold_left_app.
    apply started_after_completion. exact H.
Qed.

(** X22. The entry route answers with the first entry that has the id
    asked for, and with none (status 404) exactly when no entry has it;
    an entry behind another one with the same id is never returned. *)
Theorem findEntry_first (s : ApiState) (entryId : string) :
  match findEntry s entryId with
  | Some e =>
      id e = entryId
      /\ exists i,
           nth_error (entries (searchEngine s)) i = Some e
           /\ forall j e', j < i ->
                nth_error (entries (searchEngine s)) j = Some e' ->
                id e' <> entryId
  | None => forall e, In e (entries (searchEngine s)) -> id e <> entryId
  end.
Proof.
  unfold findEntry.
  induction (entries (searchEngine s)) as [|x l IH]; simpl.
  - intros e [].
  - destruct (String.eqb_spec (id x) entryId) as [E | N].
    + split; [exact E|]. exists 0. split; [reflexivity|]. intros j e' Hj. lia.
    + destruct (find (fun e => (id e =? entryId)%string) l) as [e|].
      * destruct IH as [Hid [i [Hi Hfirst]]]. split; [exact Hid|].
        exists (S i). split; [exact Hi|].
        intros [|j] e' Hj He'; simpl in He'.
        -- inversion He'; subst. exact N.
        -- apply (Hfirst j e'); [lia | exact He'].
      * intros e [<- | He]; [exact N | apply IH, He].
Qed.

End Loading.

(** ** What every parsed entry satisfies *)

Lemma inferLogLevel_values line path :
  In (inferLogLevel line path) ["error"; "debug"; "warning"; "info"; "unknown"].
Proof.
  unfold inferLogLevel.
  repeat match goal with
         | |- context [if ?b then _ else _] => destruct b
         end; simpl; auto 6.
Qed.

Section ParsedEntries.
Context {rt : JsRuntime}.

(** An entry is normalised: trimmed message, no alias as level. *)
Let normalised (e : Entry) : Prop :=
  Js.trim (message e) = message e
  /\ (forall s, level e = LevelStr s ->
        ~ In s ["err"; "warn"; "trace"; "fatal"])
  /\ (isStructured e = false ->
      exists s, level e = LevelStr s
                /\ In s ["error"; "debug"; "warning"; "info"; "unknown"]).

Lemma createFallbackEntry_normalised now line path n :
  normalised (createFallbackEntry now line path n).
Proof.
  unfold normalised. simpl. split; [apply trim_idem|].
  pose proof (inferLogLevel_values line path) as V. split.
  - intros s [= <-]. simpl in *. intuition (try congruence);
      match goal with
      | H1 : ?a = inferLogLevel _ _, H2 : ?b = inferLogLevel _ _ |- _ =>
          rewrite <- H1 in H2; discriminate
      end.
  - intros _. eexists. split; [reflexivity | exact V].
Qed.

Lemma normalizeLogLevel_no_alias v s :
  normalizeLogLevel v = Ok (LevelStr s) ->
  ~ In s ["err"; "warn"; "trace"; "fatal"].
Proof.
  unfold normalizeLogLevel.
  destruct (jsTruthy v) eqn:T; simpl.
  - destruct v as [[| | |x| |]|]; try discriminate.
    pose proof (levelMap_cases (Js.trim (Js.toLowerCase x))) as C.
    destruct (levelMap (Js.trim (Js.toLowerCase x))) as [[o| |]|];
      intros [= <-].
    + simpl in *. intuition (subst; discriminate).
    + exact C.
  - intros [= <-]. simpl. intuition discriminate.
Qed.

Lemma cleanMessage_trimmed v out :
  cleanMessage v = Ok out -> Js.trim out = out.
Proof.
  unfold cleanMessage. destruct (jsTruthy v); simpl.
  - destruct v as [[| | |x| |]|]; try discriminate.
    intros [= <-]. apply trim_idem.
  - intros [= <-]. reflexivity.
Qed.

(** X23. Every entry the parser returns is normalised: its message has no
    white space at either end, its level is never one of the aliases
    [err], [warn], [trace], [fatal], and the level of a fallback entry is
    one of [error], [debug], [warning], [info], [unknown]. *)
Theorem parsed_entries_normalised (clock : nat -> Z) (content path : string)
  (es : list Entry) (e : Entry) :
  parseLogContent clock content path = Ok es -> In e es ->
  Js.trim (message e) = message e
  /\ (forall s, level e = LevelStr s ->
        ~ In s ["err"; "warn"; "trace"; "fatal"])
  /\ (isStructured e = false ->
      exists s, level e = LevelStr s
                /\ In s ["error"; "debug"; "warning"; "info"; "unknown"]).
Proof.
  intros H Hin.
  assert (forall now line n e0,
            parseLogLine now line path n = Ok e0 -> normalised e0) as L.
  { clear. intros now line n e0. unfold parseLogLine, parseStructured.
    destruct (JSON_parse line) as [v|err]; simpl;
      [|intros [= <-]; apply createFallbackEntry_normalised].
    destruct (getProp v "level") as [l|]; simpl;
      [|intros [= <-]; apply createFallbackEntry_normalised].
    destruct (getProp v "message") as [m|]; simpl;
      [|intros [= <-]; apply createFallbackEntry_normalised].
    destruct (getProp v "timestamp") as [t|]; simpl;
      [|intros [= <-]; apply createFallbackEntry_normalised].
    destruct (negb (jsTruthy l) || negb (jsTruthy m) || negb (jsTruthy t));
      simpl; [intros [= <-]; apply createFallbackEntry_normalised|].
    destruct (normalizeLogLevel l) as [lv|] eqn:NL; simpl;
      [|intros [= <-]; apply createFallbackEntry_normalised].
    destruct (cleanMessage m) as [msg|] eqn:CM; simpl;
      [|intros [= <-]; apply createFallbackEntry_normalised].
    destruct (parseTimestamp now t) as [ts|]; simpl;
      [|intros [= <-]; apply createFallbackEntry_normalised].
    intros [= <-]. unfold normalised. simpl.
    split; [apply (cleanMessage_trimmed _ CM)|]. split; [|discriminate].
    intros s ->. apply (normalizeLogLevel_no_alias _ NL). }
  assert (parseLines clock path 0 (nonEmptyLines content) = Ok es) as HL.
  { unfold parseLogContent in H. destruct content; [|exact H].
    inversion H; subst. destruct Hin. }
  destruct (parseLines_total clock path (nonEmptyLines content) 0)
    as [es' [Hes [Hlen Hnth]]].
  assert (es' = es) by congruence. subst es'.
  apply In_nth_error in Hin. destruct Hin as [k Hk].
  assert (k < List.length (nonEmptyLines content)) as Lk
      by (rewrite <- Hlen; apply nth_error_Some; congruence).
  destruct (nth_error (nonEmptyLines content) k) as [line|] eqn:N;
    [|apply nth_error_None in N; lia].
  destruct (Hnth k line N) as [e' [He' Hp]].
  assert (e' = e) by congruence. subst e'.
  exact (L _ _ _ _ Hp).
Qed.

(** X24. An engine without index answers every query with an empty page:
    after [clearIndex] (as before the first [indexEntries]) [search]
    returns no entry, a total of 0 and no index time, whatever the query
    and options. *)
Theorem search_without_index (st : Engine) (q : string) (o : Options) :
  exists r,
    search (clearIndex st) q o = Ok r
    /\ res_entries r = []
    /\ totalCount (pagination r) = 0%Z
    /\ searchTime (searchMeta r) = None.
Proof.
  assert (candidates (clearIndex st) q = []) as C.
  { unfold candidates. destruct (Js.truthy q && Js.truthy (Js.trim q));
      [|reflexivity].
    unfold performTextSearch. simpl entries.
    destruct (List.length (extractTerms (Js.toLowerCase (Js.trim q))) =? 0);
      [reflexivity|].
    induction (extractTerms (Js.toLowerCase (Js.trim q))) as [|t ts IH];
      [reflexivity | exact IH]. }
  assert (searchResults (clearIndex st) q o = Ok []) as R.
  { unfold searchResults. rewrite C. simpl. unfold sortResults. simpl.
    rewrite (Permutation_nil (Permutation_sym (Array_sort_perm _ []))).
    reflexivity. }
  pose proof (search_page R (opt_page o)) as S. rewrite setPage_same in S.
  eexists. split; [exact S|]. simpl.
  split; [|split; reflexivity].
  unfold Js.slice. rewrite skipn_nil. apply firstn_nil.
Qed.

End ParsedEntries.
(** * The definitions on sample data *)

#[local] Existing Instance SampleRuntime.runtime.

Example trim_ex : Js.trim "  ab c  " = "ab c".
Proof. reflexivity. Qed.

(** The no-break space U+00A0 is white space; the letters U+00C0 ..
    U+00DE have a lower case, the multiplication sign U+00D7 has none. *)
Example latin1_ex :
  Js.trim (String (ascii_of_nat 160) "x") = "x"
  /\ Js.toLowerCase (String (ascii_of_nat 201) "A")
     = String (ascii_of_nat 233) "a"
  /\ Js.toLowerCase (String (ascii_of_nat 215) "")
     = String (ascii_of_nat 215) "".
Proof. repeat split; reflexivity. Qed.

Example split_ex1 : Js.splitNonWord " a  bc " = [""; "a"; "bc"; ""].
Proof. reflexivity. Qed.

Example split_ex2 :
  Js.splitNonWord "" = [""] /\ Js.splitNonWord "--" = [""; ""].
Proof. split; reflexivity. Qed.

Example nat_ex : Js.natToString 0 = "0" /\ Js.natToString 1203 = "1203".
Proof. split; reflexivity. Qed.

Example slice_ex :
  Js.slice [1;2;3;4;5] 1 3 = [2;3] /\ Js.slice [1;2;3;4;5] (-2) 9 = [4;5]
  /\ Js.slice [1;2;3;4;5] (-4) (-2) = [2;3] /\ Js.slice [1;2;3;4;5] (-3) 0 = [].
Proof. repeat split; reflexivity. Qed.

(** The structured line of the README in [error.log]. *)
Example structured_line_ex :
  exists e,
    parseLogContent (fun _ => 0%Z) Sample.jsonLine "error.log" = Ok [e]
    /\ level e = LevelStr "error" /\ message e = "Database down"
    /\ timestamp e = Some 1737367500000%Z /\ isStructured e = true
    /\ id e = "error.log:1".
Proof. eexists. split; [vm_compute; reflexivity|]. repeat split. Qed.

(** The plain line of the README in [debug.log]: the level comes from
    the file name, not from the [INFO] of the line. *)
Example plain_line_ex :
  exists e,
    parseLogContent (fun _ => 0%Z) Sample.plainLine "debug.log" = Ok [e]
    /\ level e = LevelStr "debug" /\ isStructured e = false
    /\ timestamp e = Some 1737367200000%Z
    /\ specLevelFromContent Sample.plainLine = "info".
Proof. eexists. split; [vm_compute; reflexivity|]. repeat split. Qed.

(** A line that holds nothing but a no-break space is skipped, and the
    line after it is the second one. *)
Example blank_line_ex :
  exists e1 e2,
    parseLogContent (fun _ => 0%Z)
      ("a" ++ String "010"%char (String (ascii_of_nat 160) "")
       ++ String "010"%char "b")
      "app.log"
    = Ok [e1; e2]
    /\ raw e2 = "b" /\ id e2 = "app.log:2".
Proof. eexists. eexists. split; [vm_compute; reflexivity|]. split; reflexivity. Qed.

(** The query [error database] finds the entries with either term. *)
Example or_query_ex :
  pageEntries
    (indexEntries 0 newEngine [Sample.e_err; Sample.e_db; Sample.e_ok])
    "error database" defaultOptions 1
  = [Some Sample.e_err; Some Sample.e_db].
Proof. vm_compute. reflexivity. Qed.

(** A level filter without match: an empty page, not an error. *)
Example no_match_ex :
  exists r,
    search (indexEntries 0 newEngine [Sample.e_err; Sample.e_db]) ""
      {| opt_level := Some "error"; opt_startDate := None;
         opt_endDate := None; opt_sourceFile := None; opt_page := 1;
         opt_pageSize := 100; opt_sortBy := "timestamp";
         opt_sortOrder := "desc" |}
    = Ok r
    /\ res_entries r = [] /\ totalCount (pagination r) = 0%Z
    /\ totalPages (pagination r) = JInt 0.
Proof. eexists. split; [vm_compute; reflexivity|]. repeat split. Qed.

(** ** The theorems at concrete inputs *)

Lemma index_then_query_roundtrip_witness :
  Js.trim "   " = "" /\ unfiltered Sample.onePerPage = true
  /\ (1 <= opt_pageSize Sample.onePerPage)%Z
  /\ Permutation
       (allPages (indexEntries 0 newEngine [Sample.e_old; Sample.e_new])
          "   " Sample.onePerPage 2)
       (map Some [Sample.e_old; Sample.e_new]).
Proof.
  split; [reflexivity|]. split; [reflexivity|]. split; [simpl; lia|].
  exact (proj2 (proj2
    (index_then_query_roundtrip 0 newEngine [Sample.e_old; Sample.e_new]
       "   " Sample.onePerPage eq_refl eq_refl ltac:(simpl; lia)))).
Defined.

Lemma pagination_invariant_witness :
  (1 <= opt_pageSize Sample.onePerPage)%Z
  /\ exists filtered,
       applyFilters
         (candidates (indexEntries 0 newEngine [Sample.e_old; Sample.e_new])
            "alpha")
         (filtersOf Sample.onePerPage)
       = Ok filtered.
Proof.
  split; [simpl; lia|].
  destruct (pagination_invariant 0 newEngine [Sample.e_old; Sample.e_new]
              "alpha" Sample.onePerPage ltac:(simpl; lia)) as [filtered [H _]].
  exists filtered. exact H.
Defined.

Lemma index_positions_in_bounds_witness :
  inBounds
    (runEngine [OpIndexEntries 0 [Sample.e_old]; OpClearIndex;
                OpIndexEntries 1 [Sample.e_err; Sample.e_db]]).
Proof.
  exact (proj1 (index_positions_in_bounds
                  [OpIndexEntries 0 [Sample.e_old]; OpClearIndex;
                   OpIndexEntries 1 [Sample.e_err; Sample.e_db]])).
Defined.

Lemma text_search_semantics_witness :
  extractTerms (Js.toLowerCase "error database") <> []
  /\ forall i,
       In i (performTextSearch
               (indexEntries 0 newEngine
                  [Sample.e_err; Sample.e_db; Sample.e_ok])
               "error database")
       <-> exists term,
             In term (extractTerms (Js.toLowerCase "error database"))
             /\ exists e t,
                  nth_error [Sample.e_err; Sample.e_db; Sample.e_ok] i = Some e
                  /\ In t (extractTerms (getSearchableText e))
                  /\ (t = term \/ Js.includes t term = true).
Proof.
  assert (extractTerms (Js.toLowerCase "error database") <> []) as H
    by (vm_compute; discriminate).
  split; [exact H|].
  exact (proj1 (text_search_semantics 0 newEngine
                  [Sample.e_err; Sample.e_db; Sample.e_ok] "error database") H).
Defined.

(** C3 does not hold for a query text without term: the text [a] is not
    empty, no term comes out of it, and yet position 0 is a candidate. *)
Lemma text_search_no_term_counterexample :
  Js.truthy "a" && Js.truthy (Js.trim "a") = true
  /\ candidates (indexEntries 0 newEngine [Sample.e_old]) "a"
     = [Some Sample.e_old]
  /\ In 0 (performTextSearch (indexEntries 0 newEngine [Sample.e_old]) "a")
  /\ ~ (exists term,
          In term (extractTerms (Js.toLowerCase "a"))
          /\ exists e t,
               nth_error [Sample.e_old] 0 = Some e
               /\ In t (extractTerms (getSearchableText e))
               /\ (t = term \/ Js.includes t term = true)).
Proof.
  split; [reflexivity|]. split; [reflexivity|]. split; [left; reflexivity|].
  intros [term [H _]]. exact H.
Qed.

Lemma invalid_parameters_not_clamped_witness :
  exists r,
    search (runEngine [OpIndexEntries 0 [Sample.e_old; Sample.e_new]]) ""
      (setPage 0 Sample.byBogusField)
    = Ok r
    /\ currentPage (pagination r) = 0%Z /\ res_entries r = [].
Proof.
  destruct (invalid_parameters_not_clamped
              [OpIndexEntries 0 [Sample.e_old; Sample.e_new]] ""
              (setPage 0 Sample.byBogusField))
    as [r [sorted [H1 [_ [H2 [_ [H3 _]]]]]]].
  exists r. split; [exact H1|]. split; [exact H2|].
  apply H3; [reflexivity | simpl; lia].
Defined.

(** C7 does not hold with clamping: page 0 is an empty page, not page 1,
    and sorting by a field that no entry has leaves the snapshot order,
    not the order of the timestamps. *)
Lemma clamping_counterexample :
  let st := indexEntries 0 newEngine [Sample.e_old; Sample.e_new] in
  pageEntries st "" defaultOptions 0 = []
  /\ pageEntries st "" defaultOptions 1 = [Some Sample.e_new; Some Sample.e_old]
  /\ pageEntries st "" Sample.byBogusField 1
     = [Some Sample.e_old; Some Sample.e_new]
  /\ (exists r, search st "" (setPage 0 defaultOptions) = Ok r
                /\ currentPage (pagination r) = 0%Z).
Proof.
  repeat split; try (vm_compute; reflexivity).
  eexists. split; [vm_compute; reflexivity | reflexivity].
Qed.

Lemma sort_keeps_candidate_order_among_ties_witness :
  consistent (comparatorOf defaultOptions)
    (matched (runEngine [OpIndexEntries 0 [Sample.e_old; Sample.e_tie]])
       "alpha beta" defaultOptions)
  = true
  /\ exists sorted,
       searchResults
         (runEngine [OpIndexEntries 0 [Sample.e_old; Sample.e_tie]])
         "alpha beta" defaultOptions
       = Ok (map Some sorted)
       /\ filter (hasKey "timestamp" (VDate (Some 1000%Z))) sorted
          = filter (hasKey "timestamp" (VDate (Some 1000%Z)))
              (matched
                 (runEngine [OpIndexEntries 0 [Sample.e_old; Sample.e_tie]])
                 "alpha beta" defaultOptions).
Proof.
  split; [vm_compute; reflexivity|].
  destruct (sort_keeps_candidate_order_among_ties
              [OpIndexEntries 0 [Sample.e_old; Sample.e_tie]] "alpha beta"
              defaultOptions (VDate (Some 1000%Z))
              ltac:(vm_compute; reflexivity))
    as [sorted [H1 [H2 _]]].
  exists sorted. split; [exact H1 | exact H2].
Defined.

(** An Invalid Date under the [timestamp] sort: the comparator yields NaN
    and is not a consistent comparator. *)
Example invalid_date_not_consistent :
  let e_bad :=
    {| id := "debug.log:3"; level := LevelStr "info"; message := "gamma";
       timestamp := None; sourceFile := "/var/log/debug.log";
       lineNumber := 3; raw := "gamma"; isStructured := true |} in
  compareEntries "timestamp" (-1) e_bad Sample.e_old = None
  /\ consistent (comparatorOf defaultOptions) [Sample.e_old; e_bad] = false
  /\ consistent (comparatorOf defaultOptions) [Sample.e_old; Sample.e_new]
     = true.
Proof. repeat split; vm_compute; reflexivity. Qed.

(** C8 does not hold with the snapshot order for a text query: the two
    entries have the same timestamp, [e_old] comes first in the snapshot,
    and the page has [e_tie] first, because the term [alpha] is looked up
    before [beta]. *)
Lemma tie_order_counterexample :
  let st := indexEntries 0 newEngine [Sample.e_old; Sample.e_tie] in
  entries st = [Sample.e_old; Sample.e_tie]
  /\ getField Sample.e_old "timestamp" = getField Sample.e_tie "timestamp"
  /\ performTextSearch st "alpha beta" = [1; 0]
  /\ pageEntries st "alpha beta" defaultOptions 1
     = [Some Sample.e_tie; Some Sample.e_old].
Proof. repeat split; vm_compute; reflexivity. Qed.


(** The scenario of the specification, in a directory whose name has
    neither [error] nor [debug]: the level is [debug]. In [/srv/errors] the
    same line of the same file name is an [error]. *)
Example fallback_level_ex :
  parseLogLine 0 Sample.plainLine "/var/log/debug.log" 1
  = Ok (createFallbackEntry 0 Sample.plainLine "/var/log/debug.log" 1)
  /\ level (createFallbackEntry 0 Sample.plainLine "/var/log/debug.log" 1)
     = LevelStr "debug"
  /\ specLevelFromContent Sample.plainLine = "info"
  /\ parseLogLine 0 Sample.plainLine "/srv/errors/debug.log" 1
     = Ok (createFallbackEntry 0 Sample.plainLine "/srv/errors/debug.log" 1)
  /\ level (createFallbackEntry 0 Sample.plainLine "/srv/errors/debug.log" 1)
     = LevelStr "error".
Proof. repeat split; reflexivity. Qed.

(** C4. The [sourceFile] option is read by [search] and then left out: a
    query for the files named like [error] returns an entry of
    [/var/log/debug.log], which [filterLogEntries] of the parser module
    rejects under the same filter value. *)
Theorem sourceFile_filter_not_applied :
  let st := indexEntries 0 newEngine [Sample.e_old] in
  opt_sourceFile Sample.fromErrorFiles = Some "error"
  /\ Js.includes (sourceFile Sample.e_old) "error" = false
  /\ pageEntries st "" Sample.fromErrorFiles 1 = [Some Sample.e_old]
  /\ (forall q o sf, search st q (setSourceFile sf o) = search st q o)
  /\ filterLogEntries [Sample.e_old] SampleFiles.onlyFromErrorFiles = [].
Proof.
  repeat split; try (vm_compute; reflexivity).
Qed.

(** ** The further properties at concrete inputs *)

Lemma normalizeLogLevel_canonical_witness :
  (exists v, normalizeLogLevel (Some (JString " Constructor ")) = Ok v
             /\ v = LevelObjectCtor)
  /\ exists out,
       normalizeLogLevel (Some (JString "  WARN ")) = Ok (LevelStr out)
       /\ normalizeLogLevel (Some (JString out)) = Ok (LevelStr out).
Proof.
  split.
  - destruct (normalizeLogLevel_canonical " Constructor ") as [v [H1 [H2 _]]].
    exists v. split; [exact H1 | apply H2; reflexivity].
  - destruct (normalizeLogLevel_canonical "  WARN ")
      as [v [H1 [_ [_ H2]]]].
    destruct (H2 ltac:(vm_compute; discriminate) ltac:(vm_compute; discriminate))
      as [out [E [_ H3]]].
    exists out. split; [rewrite <- E; exact H1|].
    apply H3. intros ->. rewrite E in H1. discriminate H1.
Defined.

Lemma cleanMessage_strips_colours_witness :
  cleanMessage
    (Some (JString (ansiCode "31" ++ " Database down " ++ ansiCode "0")))
  = Ok "Database down".
Proof.
  apply (proj1 (@cleanMessage_strips_colours "31" "0" " Database down "
                  ltac:(discriminate) eq_refl ltac:(discriminate) eq_refl
                  eq_refl)).
Defined.

Lemma ids_unique_within_file_witness :
  exists es,
    parseLogContent (fun _ => 0%Z) SampleMore.twoLines "debug.log" = Ok es
    /\ List.length es = 2 /\ NoDup (map id es).
Proof.
  eexists. split; [vm_compute; reflexivity|]. split; [reflexivity|].
  apply (@ids_unique_within_file _ (fun _ => 0%Z) SampleMore.twoLines
           "debug.log").
  vm_compute. reflexivity.
Defined.

Lemma extractTerms_shape_witness :
  In "error" (extractTerms "Error in payment; x")
  /\ 2 <= String.length "error" /\ allChars isTermChar "error" = true.
Proof.
  assert (In "error" (extractTerms "Error in payment; x")) as H
    by (vm_compute; auto).
  split; [exact H|]. apply (@extractTerms_shape _ _ H).
Defined.

Lemma finds_own_terms_witness :
  In 1 (performTextSearch
          (indexEntries 0 newEngine [Sample.e_err; Sample.e_db]) "DATABASE").
Proof.
  apply (@finds_own_terms 0 newEngine [Sample.e_err; Sample.e_db] 1
           Sample.e_db "DATABASE" eq_refl).
  vm_compute. auto.
Defined.

Lemma getIndexStats_counts_witness :
  assoc "info"
    (levelCounts
       (getIndexStats (indexEntries 0 newEngine [Sample.e_err; Sample.e_db])))
  = Some (CNum 2).
Proof.
  exact (proj1 (proj2 (proj2
    (@getIndexStats_counts 0 newEngine [Sample.e_err; Sample.e_db]
       "info" eq_refl)))).
Defined.

Lemma inherited_key_not_counted_witness :
  assoc "constructor"
    (levelCounts
       (getIndexStats
          (indexEntries 0 newEngine
             [ {| id := "a:1"; level := LevelStr "constructor";
                  message := "m"; timestamp := None; sourceFile := "a";
                  lineNumber := 1; raw := "m"; isStructured := true |} ])))
  <> Some (CNum 1).
Proof.
  apply (proj1 (@inherited_key_not_counted _ "constructor" _ 1 eq_refl)).
Defined.

Lemma results_in_order_witness :
  exists sorted,
    searchResults (runEngine [OpIndexEntries 0 [Sample.e_old; Sample.e_new]])
      "" defaultOptions
    = Ok (map Some sorted)
    /\ StronglySorted (inOrder "timestamp" "desc") sorted.
Proof.
  apply (@results_in_order _ [OpIndexEntries 0 [Sample.e_old; Sample.e_new]]
           "" defaultOptions).
  simpl. intros e [<- | [<- | []]]; discriminate.
Defined.

Lemma page_flags_witness :
  exists r,
    search (runEngine [OpIndexEntries 0 [Sample.e_old; Sample.e_new]]) ""
      (setPage 1 Sample.onePerPage)
    = Ok r
    /\ hasNextPage (pagination r) = true
    /\ List.length (res_entries r) = 1.
Proof.
  destruct (@page_flags _ [OpIndexEntries 0 [Sample.e_old; Sample.e_new]] ""
              Sample.onePerPage 1 ltac:(simpl; lia) ltac:(lia))
    as [r [H1 [_ [H2 [H3 _]]]]].
  exists r. split; [exact H1|].
  assert (hasNextPage (pagination r) = true) as N.
  { apply H2. vm_compute. discriminate. }
  split; [exact N|]. specialize (H3 N). simpl in H3. lia.
Defined.

Lemma zero_page_size_witness :
  exists r,
    search (runEngine [OpIndexEntries 0 [Sample.e_old; Sample.e_new]]) ""
      SampleMore.zeroPerPage
    = Ok r
    /\ res_entries r = [].
Proof.
  destruct (@zero_page_size _ [OpIndexEntries 0 [Sample.e_old; Sample.e_new]]
              "" SampleMore.zeroPerPage eq_refl) as [r [H1 [H2 _]]].
  exists r. split; [exact H1 | exact H2].
Defined.

Lemma filterLogEntries_sound_witness :
  In Sample.e_old
    (filterLogEntries [Sample.e_old; Sample.e_new] SampleMore.fromDebugFiles)
  /\ Js.includes (sourceFile Sample.e_old) "debug" = true.
Proof.
  assert (In Sample.e_old
            (filterLogEntries [Sample.e_old; Sample.e_new]
               SampleMore.fromDebugFiles)) as H
    by (vm_compute; auto).
  split; [exact H|].
  apply (proj1 (proj2 (@filterLogEntries_sound _ _ _ _ H)) "debug" eq_refl).
  discriminate.
Defined.

Lemma parsed_entries_normalised_witness :
  exists es e,
    parseLogContent (fun _ => 0%Z) SampleMore.twoLines "debug.log" = Ok es
    /\ nth_error es 1 = Some e
    /\ Js.trim (message e) = message e.
Proof.
  eexists. eexists. split; [vm_compute; reflexivity|].
  split; [reflexivity|].
  eapply (@parsed_entries_normalised _ (fun _ => 0%Z) SampleMore.twoLines
            "debug.log").
  - vm_compute. reflexivity.
  - right. left. reflexivity.
Defined.

(** Three requests that arrive before the first load completes start
    three loads; a request that arrives after it starts none. *)
Lemma lazy_loading_overlaps_witness :
  sv_started (runServer [Arrives; Arrives; Arrives]) = 3
  /\ sv_started
       (runServer
          ([Arrives; Completes 0 0 (fun _ _ => 0%Z) []] ++ [Arrives; Arrives]))
     = 1.
Proof.
  split.
  - exact (proj1 (lazy_loading_overlaps [Arrives; Arrives; Arrives]) eq_refl).
  - exact (proj2 (proj2 (lazy_loading_overlaps
                           [Arrives; Completes 0 0 (fun _ _ => 0%Z) []])
                    ltac:(discriminate) [Arrives; Arrives])).
Defined.
